(** * Incremental script assembly and section resolution of manim-ai

    A shallow embedding of the text-assembly functions and of the
    provider calls of [app/ai_clients.py], of the scene-class extraction,
    the renderer and the section-video discovery of
    [app/manim_runner.py], of the tables of [app/database.py], and of the
    segment resolution of [MainWindow._on_finished] in [app/ui_main.py],
    together with the properties of these functions. *)

From Stdlib Require Import String Ascii DecimalString.
From Stdlib Require Import List NArith ZArith Arith Bool Lia.
From Stdlib Require Import Permutation Sorted.
Import ListNotations.
Open Scope list_scope.

(** ** Python [str] values and the [str] methods the program calls *)

Module Py.

(** A Python [str] is a sequence of Unicode code points. *)
Definition char := N.
Definition str := list char.

(** A string literal of the source (ASCII only). *)
Definition lit (s : string) : str := map N_of_ascii (list_ascii_of_string s).
Arguments lit s%_string.

Definition NL : char := 10%N.
Definition CR : char := 13%N.

(** [c.isspace()]: the characters removed by [str.strip] and matched by
    the regular-expression class [\s]. *)
Definition isspace (c : char) : bool :=
  ((9 <=? c) && (c <=? 13) || (28 <=? c) && (c <=? 32) ||
   (c =? 133) || (c =? 160) || (c =? 5760) ||
   (8192 <=? c) && (c <=? 8202) ||
   (c =? 8232) || (c =? 8233) || (c =? 8239) || (c =? 8287) ||
   (c =? 12288))%N.

(** The line boundaries of [str.splitlines]. *)
Definition is_linebreak (c : char) : bool :=
  ((10 <=? c) && (c <=? 13) || (28 <=? c) && (c <=? 30) ||
   (c =? 133) || (c =? 8232) || (c =? 8233))%N.

(** Truth value of a string or of a list: non-empty. *)
Definition truthy {A : Type} (s : list A) : bool :=
  match s with [] => false | _ :: _ => true end.

Fixpoint lstrip (s : str) : str :=
  match s with
  | [] => []
  | c :: s' => if isspace c then lstrip s' else s
  end.

Definition rstrip (s : str) : str := rev (lstrip (rev s)).

Definition strip (s : str) : str := rstrip (lstrip s).

(** [s.startswith(p)] *)
Fixpoint startswith (s p : str) {struct p} : bool :=
  match p with
  | [] => true
  | a :: p' =>
      match s with
      | [] => false
      | b :: s' => (a =? b)%N && startswith s' p'
      end
  end.

(** [sub in s] *)
Fixpoint contains (sub s : str) : bool :=
  startswith s sub ||
  match s with
  | [] => false
  | _ :: s' => contains sub s'
  end.

(** [s.count(sub)] for a non-empty [sub]: occurrences found left to right,
    the search resuming after each occurrence; [skip] characters of the
    last occurrence are still to be passed. *)
Fixpoint count_from (sub s : str) (skip : nat) : nat :=
  match s with
  | [] => 0
  | _ :: s' =>
      match skip with
      | S k => count_from sub s' k
      | O => if startswith s sub
             then S (count_from sub s' (length sub - 1))
             else count_from sub s' 0
      end
  end.

Definition count (sub s : str) : nat := count_from sub s 0.

(** [s.split(sep)] for a one-character separator: never empty. *)
Fixpoint split_char (sep : char) (s : str) : list str :=
  match s with
  | [] => [[]]
  | c :: s' =>
      if (c =? sep)%N then [] :: split_char sep s'
      else match split_char sep s' with
           | l :: ls => (c :: l) :: ls
           | [] => [[c]]
           end
  end.

(** The text before and the text after the first occurrence of [sep]. *)
Fixpoint partition_first (sep s : str) : option (str * str) :=
  if startswith s sep then Some ([], skipn (length sep) s)
  else match s with
       | [] => None
       | c :: s' =>
           match partition_first sep s' with
           | Some (a, b) => Some (c :: a, b)
           | None => None
           end
       end.

(** [s.split(sep, 1)] for a non-empty [sep] *)
Definition split_once (sep s : str) : list str :=
  match partition_first sep s with
  | Some (a, b) => [a; b]
  | None => [s]
  end.

(** [s.splitlines()]: a carriage return followed by a line feed is one
    boundary, and a final boundary opens no further line. *)
Fixpoint splitlines (s : str) : list str :=
  match s with
  | [] => []
  | c :: s' =>
      if is_linebreak c then
        match s' with
        | d :: s'' =>
            if (c =? CR)%N && (d =? NL)%N then [] :: splitlines s''
            else [] :: splitlines s'
        | [] => [[]]
        end
      else match splitlines s' with
           | l :: ls => (c :: l) :: ls
           | [] => [[c]]
           end
  end.

(** [sep.join(ls)] *)
Fixpoint join (sep : str) (ls : list str) : str :=
  match ls with
  | [] => []
  | l :: ls' =>
      match ls' with
      | [] => l
      | _ :: _ => l ++ sep ++ join sep ls'
      end
  end.

(** [enumerate(l)], counting from [k]. *)
Fixpoint enumerate_from {A : Type} (k : nat) (l : list A) : list (nat * A) :=
  match l with
  | [] => []
  | x :: l' => (k, x) :: enumerate_from (S k) l'
  end.

Definition enumerate {A : Type} (l : list A) : list (nat * A) :=
  enumerate_from 0 l.

(** [l[i] = x] for an index in range. *)
Fixpoint set_item {A : Type} (i : nat) (x : A) (l : list A) : list A :=
  match l with
  | [] => []
  | y :: l' =>
      match i with
      | O => x :: l'
      | S i' => y :: set_item i' x l'
      end
  end.

(** [l.pop(i)] for an index in range, keeping the list only. *)
Fixpoint pop {A : Type} (i : nat) (l : list A) : list A :=
  match l with
  | [] => []
  | y :: l' =>
      match i with
      | O => l'
      | S i' => y :: pop i' l'
      end
  end.

(** [min(...)] over a sequence of naturals; the source calls it on
    non-empty sequences only. *)
Definition min_of (l : list nat) : nat :=
  match l with
  | [] => 0
  | x :: l' => fold_left Nat.min l' x
  end.

(** [a == b] *)
Fixpoint str_eqb (a b : str) : bool :=
  match a, b with
  | [], [] => true
  | x :: a', y :: b' => (x =? y)%N && str_eqb a' b'
  | _, _ => false
  end.

(** Comparison of strings, [a <= b]: lexicographic on code points. *)
Fixpoint str_le (a b : str) : bool :=
  match a, b with
  | [], _ => true
  | _ :: _, [] => false
  | x :: a', y :: b' =>
      if (x <? y)%N then true
      else if (x =? y)%N then str_le a' b'
      else false
  end.

(** [sorted(l, key=key)] with string keys: a stable sort, here by
    insertion from the right, which keeps equal keys in input order. *)
Fixpoint insert_by {A : Type} (key : A -> str) (x : A) (l : list A) : list A :=
  match l with
  | [] => [x]
  | y :: l' =>
      if str_le (key x) (key y) then x :: l
      else y :: insert_by key x l'
  end.

Fixpoint sorted_by {A : Type} (key : A -> str) (l : list A) : list A :=
  match l with
  | [] => []
  | x :: l' => insert_by key x (sorted_by key l')
  end.

(** [s.lstrip(chars)] and [s.rstrip(chars)] *)
Fixpoint lstrip_chars (chars s : str) : str :=
  match s with
  | [] => []
  | c :: s' => if existsb (N.eqb c) chars then lstrip_chars chars s' else s
  end.

Definition rstrip_chars (chars s : str) : str :=
  rev (lstrip_chars chars (rev s)).

(** [str(n)] for an integer. *)
Definition str_of_int (n : Z) : str :=
  lit (NilZero.string_of_int (Z.to_int n)).

(** [max(l, key=key)] over a non-empty sequence [x :: l]: the first item
    of greatest key. *)
Fixpoint max_by {A : Type} (key : A -> Z) (x : A) (l : list A) : A :=
  match l with
  | [] => x
  | y :: l' => max_by key (if (key x <? key y)%Z then y else x) l'
  end.

End Py.

Import Py.

(** ** [app/config.py] *)

Module config.

Record AISettings := {
  deepseek_api_key : str;
  deepseek_base_url : str;
  deepseek_model : str;
  gemini_api_key : str;
  gemini_model : str
}.

End config.

(** ** [app/ai_clients.py] *)

Module ai_clients.

Definition SECTION_MARKER : str := lit "# <<SECTION_BREAK>>".

(** The renderer's section-break call, written by the source as a literal. *)
Definition NEXT_SECTION : str := lit "self.next_section()".

Definition FENCE : str := lit "```".

Definition SIGNATURE : str := lit "def construct(self):".

Definition INDENT4 : str := lit "    ".
Definition INDENT8 : str := lit "        ".
Definition TAB : str := [9%N].

(** The comment line ["        # 新分段"] put before the marker. *)
Definition COMMENT_LINE : str :=
  INDENT8 ++ lit "# " ++ [26032%N; 20998%N; 27573%N].

Definition _strip_code_fences (code : str) : str :=
  let stripped := strip code in
  if startswith stripped FENCE then
    let lines := splitlines stripped in
    let lines := if truthy lines then skipn 1 lines else lines in
    let lines :=
      if truthy lines && startswith (strip (last lines [])) FENCE
      then removelast lines else lines in
    join [NL] lines
  else code.

Definition _remove_common_indent (code : str) : str :=
  let lines := filter (fun line => truthy (strip line)) (splitlines code) in
  if negb (truthy lines) then []
  else
    let min_indent :=
      min_of (map (fun line => length line - length (lstrip line))
                  (filter (fun line => truthy (strip line)) lines)) in
    strip (join [NL]
             (map (fun line => if min_indent <? length line
                               then skipn min_indent line else line)
                  lines)).

(** The two variables of the scan loop of the locator. *)
Record scan_state := {
  found_construct : bool;
  last_indented_line : Z
}.

Definition scan_step (st : scan_state) (il : nat * str) : scan_state :=
  let (i, line) := il in
  let found := if contains SIGNATURE line then true else found_construct st in
  let last :=
    if found && (startswith line INDENT4 || startswith line TAB)
             && truthy (strip line)
    then Z.of_nat i else last_indented_line st in
  {| found_construct := found; last_indented_line := last |}.

Definition _find_construct_insert_position (lines : list str) : Z :=
  let st := fold_left scan_step (enumerate lines)
              {| found_construct := false; last_indented_line := (-1)%Z |} in
  if negb (last_indented_line st =? -1)%Z then (last_indented_line st + 1)%Z
  else
    match find (fun il => contains SIGNATURE (snd il)) (enumerate lines) with
    | Some (i, _) => (Z.of_nat i + 1)%Z
    | None => Z.of_nat (length lines)
    end.

Definition _strip_markers_and_sections (code : str) : str :=
  let cleaned_lines :=
    fold_left
      (fun acc line =>
         let stripped := strip line in
         if contains SECTION_MARKER line then acc
         else if contains NEXT_SECTION stripped then acc
         else acc ++ [line])
      (split_char NL code) [] in
  strip (join [NL] cleaned_lines) ++ [NL].

Definition _replace_section_marker (code : str) : str :=
  let lines := split_char NL code in
  let marker_indices :=
    map fst (filter (fun il => contains SECTION_MARKER (snd il))
                    (enumerate lines)) in
  match marker_indices with
  | [] => code
  | first_idx :: others =>
      let line := nth first_idx lines [] in
      let indent := firstn (length line - length (lstrip line)) line in
      let lines := set_item first_idx (indent ++ NEXT_SECTION) lines in
      let lines := fold_left (fun ls idx => pop idx ls) (rev others) lines in
      join [NL] lines
  end.

(** The new content of a continuation round: the text after the first
    marker, with its common indentation removed, when the response has a
    marker, and the whole response otherwise. *)
Definition new_content (cleaned : str) : str :=
  if contains SECTION_MARKER cleaned then
    let parts := split_once SECTION_MARKER cleaned in
    if 1 <? length parts then _remove_common_indent (nth 1 parts [])
    else cleaned
  else cleaned.

(** The loop that appends the generated lines to the four opening lines
    of the new section. *)
Definition append_generated (new_section_lines : list str) (cleaned : str)
  : list str :=
  fold_left
    (fun acc line =>
       if truthy (strip line)
       then acc ++ [if negb (startswith line INDENT8)
                    then INDENT8 ++ line else line]
       else acc ++ [[]])
    (if truthy cleaned then split_char NL cleaned else [])
    new_section_lines.

(** The lines of the program after the slice assignment
    [lines[insert_pos:insert_pos] = new_section_lines], before the markers
    are replaced. *)
Definition spliced_lines (existing_code cleaned : str) : list str :=
  let cleaned := new_content cleaned in
  let lines := split_char NL existing_code in
  let insert_pos := Z.to_nat (_find_construct_insert_position lines) in
  let new_section_lines :=
    [ []; COMMENT_LINE; INDENT8 ++ SECTION_MARKER; [] ] in
  let new_section_lines := append_generated new_section_lines cleaned in
  firstn insert_pos lines ++ new_section_lines ++ skipn insert_pos lines.

Definition ensure_section_addition
  (existing_code ai_response current_prompt : str) : str :=
  let cleaned := strip (_strip_code_fences ai_response) in
  if negb (truthy (strip existing_code))
  then _strip_markers_and_sections cleaned
  else _replace_section_marker (join [NL] (spliced_lines existing_code cleaned)).

(** *** The sanitizer *)

(** The loop [while lines and (lines[0].startswith("from ") or
    lines[0].startswith("import ")): lines.pop(0)]. *)
Fixpoint pop_imports (lines : list str) : list str :=
  match lines with
  | [] => []
  | line :: lines' =>
      if startswith line (lit "from ") || startswith line (lit "import ")
      then pop_imports lines' else lines
  end.

Definition MANIM_IMPORT : str := lit "from manim import".

Definition sanitize_code (code previous_code : str) : str :=
  let cleaned := strip (_strip_code_fences code) in
  if truthy (strip previous_code) then
    let lines := splitlines cleaned in
    let lines := pop_imports lines in
    strip (join [NL] lines)
  else
    let cleaned :=
      if negb (contains MANIM_IMPORT cleaned)
      then lit "from manim import *" ++ [NL; NL] ++ cleaned
      else cleaned in
    cleaned ++ [NL].

(** *** The providers *)

(** The address that [_call_deepseek] requests, from the configured base
    address. *)
Definition deepseek_url (deepseek_base_url : str) : str :=
  let base := rstrip_chars (lit "/") (strip deepseek_base_url) in
  let base :=
    if negb (startswith base (lit "http://"))
       && negb (startswith base (lit "https://"))
    then lit "https://" ++ base else base in
  let base_url := base ++ lit "/v1" in
  base_url ++ lit "/chat/completions".

Section Exceptions.

(** The exceptions other than [AIError] that derive from [Exception], and
    their [str()]. *)
Variable Exc : Type.
Variable exc_str : Exc -> str.

Inductive exception :=
| AIError (message : str)
| Other (exc : Exc).

(** [str(exc)] *)
Definition exception_str (e : exception) : str :=
  match e with
  | AIError message => message
  | Other exc => exc_str exc
  end.

(** A call that returns a value or raises. *)
Inductive outcome (A : Type) :=
| Returns (a : A)
| Raises (e : exception).
Arguments Returns {A} a.
Arguments Raises {A} e.

(** A provider, called with the settings, the request, the previous
    program and the timeout; the [debug] callback only logs. *)
Definition provider : Type :=
  config.AISettings -> str -> str -> Z -> outcome str.

Variables _call_deepseek _call_gemini : provider.

(** The message ["未指定有效的 AI 模式"]. *)
Definition NO_MODE_MESSAGE : str :=
  [26410; 25351; 23450; 26377; 25928; 30340; 32; 65; 73; 32; 27169; 24335]%N.

Definition _resolve_provider (mode : str) : outcome (str * provider) :=
  if str_eqb mode (lit "deepseek")
  then Returns (lit "deepseek", _call_deepseek)
  else if str_eqb mode (lit "gemini")
  then Returns (lit "gemini", _call_gemini)
  else Raises (AIError NO_MODE_MESSAGE).

(** The message [f"AI {name} 接口调用失败: {exc}"]. *)
Definition call_failed_message (name : str) (exc : exception) : str :=
  lit "AI " ++ name
  ++ [32; 25509; 21475; 35843; 29992; 22833; 36133; 58; 32]%N
  ++ exception_str exc.

Definition generate_manim_code
           (settings : config.AISettings) (mode prompt previous_code : str)
           (timeout : Z) : outcome (str * str) :=
  match _resolve_provider mode with
  | Raises e => Raises e
  | Returns (name, provider) =>
      match provider settings prompt previous_code timeout with
      | Returns code => Returns (name, code)
      | Raises exc => Raises (AIError (call_failed_message name exc))
      end
  end.

End Exceptions.

Arguments AIError {Exc} message.
Arguments Other {Exc} exc.
Arguments Returns {Exc A} a.
Arguments Raises {Exc A} e.

(** *** The answer of Gemini *)

(** A value decoded from JSON by [response.json()]. *)
#[local] Unset Elimination Schemes.
Inductive value :=
| VNone
| VBool (b : bool)
| VInt (n : Z)
| VFloat (nonzero : bool)
| VStr (s : str)
| VList (items : list value)
| VDict (items : list (str * value)).
#[local] Set Elimination Schemes.

(** The errors of the interpreter on a value of the wrong type. *)
Inductive python_error := AttributeError | IndexError | KeyError | TypeError.

(** The truth value of a decoded value. *)
Definition value_truthy (v : value) : bool :=
  match v with
  | VNone => false
  | VBool b => b
  | VInt n => negb (n =? 0)%Z
  | VFloat nonzero => nonzero
  | VStr s => truthy s
  | VList items => truthy items
  | VDict items => truthy items
  end.

(** [v.get(key, default)]: only a dictionary has the method. *)
Definition value_get (v : value) (key : str) (default : value)
  : outcome python_error value :=
  match v with
  | VDict items =>
      match find (fun kv => str_eqb key (fst kv)) items with
      | Some kv => Returns (snd kv)
      | None => Returns default
      end
  | _ => Raises (Other AttributeError)
  end.

(** [v[0]] *)
Definition value_first (v : value) : outcome python_error value :=
  match v with
  | VList (x :: _) => Returns x
  | VStr (c :: _) => Returns (VStr [c])
  | VList [] | VStr [] => Raises (Other IndexError)
  | VDict _ => Raises (Other KeyError)
  | VNone | VBool _ | VInt _ | VFloat _ => Raises (Other TypeError)
  end.

(** The items that [for part in v] visits. *)
Definition value_iter (v : value) : outcome python_error (list value) :=
  match v with
  | VList items => Returns items
  | VStr s => Returns (map (fun c => VStr [c]) s)
  | VDict items => Returns (map (fun kv => VStr (fst kv)) items)
  | VNone | VBool _ | VInt _ | VFloat _ => Raises (Other TypeError)
  end.

(** [[part.get("text", "") for part in parts]] *)
Fixpoint text_parts_of (parts : list value)
  : outcome python_error (list value) :=
  match parts with
  | [] => Returns []
  | part :: parts' =>
      match value_get part (lit "text") (VStr []) with
      | Raises e => Raises e
      | Returns text =>
          match text_parts_of parts' with
          | Raises e => Raises e
          | Returns texts => Returns (text :: texts)
          end
      end
  end.

(** The strings of a sequence that [str.join] accepts. *)
Fixpoint strings_of (vs : list value) : option (list str) :=
  match vs with
  | [] => Some []
  | VStr s :: vs' =>
      match strings_of vs' with
      | Some ss => Some (s :: ss)
      | None => None
      end
  | _ :: _ => None
  end.

(** The message ["Gemini 返回为空"]. *)
Definition GEMINI_NO_CANDIDATE : str :=
  [71; 101; 109; 105; 110; 105; 32; 36820; 22238; 20026; 31354]%N.

(** The message ["Gemini 返回内容为空"]. *)
Definition GEMINI_NO_CONTENT : str :=
  [71; 101; 109; 105; 110; 105; 32; 36820; 22238; 20869; 23481; 20026;
   31354]%N.

(** What [_call_gemini] does with the decoded answer [data]. *)
Definition gemini_content (data : value) : outcome python_error str :=
  match value_get data (lit "candidates") (VList []) with
  | Raises e => Raises e
  | Returns candidates =>
      if negb (value_truthy candidates)
      then Raises (AIError GEMINI_NO_CANDIDATE)
      else
        match value_first candidates with
        | Raises e => Raises e
        | Returns candidate =>
            match value_get candidate (lit "content") (VDict []) with
            | Raises e => Raises e
            | Returns content_value =>
                match value_get content_value (lit "parts") (VList []) with
                | Raises e => Raises e
                | Returns parts =>
                    match value_iter parts with
                    | Raises e => Raises e
                    | Returns items =>
                        match text_parts_of items with
                        | Raises e => Raises e
                        | Returns text_parts =>
                            match strings_of text_parts with
                            | None => Raises (Other TypeError)
                            | Some texts =>
                                let content := strip (join [NL] texts) in
                                if negb (truthy content)
                                then Raises (AIError GEMINI_NO_CONTENT)
                                else Returns content
                            end
                        end
                    end
                end
            end
        end
  end.

End ai_clients.

Import ai_clients.


(** ** [app/manim_runner.py] *)

Module manim_runner.

(** A [pathlib.Path] as the sequence of its components. *)
Definition Path := list str.

(** [p.name]: the final component. *)
Definition name (p : Path) : str := last p [].

(** [str(p)] *)
Definition path_str (p : Path) : str :=
  match p with
  | [] => lit "."
  | _ :: _ => join (lit "/") p
  end.

Inductive RenderError := Build_RenderError (message : str).

(** A call that returns a value or raises [RenderError]. *)
Inductive result (A : Type) :=
| Return (a : A)
| Raise (e : RenderError).
Arguments Return {A} a.
Arguments Raise {A} e.

(** Sequencing: an exception of the first call ends the caller. *)
Definition bind {A B : Type} (r : result A) (k : A -> result B) : result B :=
  match r with
  | Return a => k a
  | Raise e => Raise e
  end.

(** *** The pattern [class\s+(\w+)\s*\(\s*Scene\s*\)] *)

Section SceneClassRe.

(** The alphanumeric characters of the Unicode database of the Python
    runtime, [c.isalnum()], a parameter of the model. *)
Variable isalnum : char -> bool.

(** [\w]: an alphanumeric character or the underscore. *)
Definition isword (c : char) : bool := isalnum c || (c =? 95)%N.

(** A greedy repetition [cls*] followed by the rest [k] of the pattern:
    the longest run is tried first, shorter ones on failure of [k];
    [k] receives the text taken so far and the text left. *)
Fixpoint greedy {R : Type} (cls : char -> bool)
         (k : str -> str -> option R) (taken s : str) : option R :=
  match s with
  | [] => k taken []
  | c :: s' =>
      if cls c then
        match greedy cls k (taken ++ [c]) s' with
        | Some r => Some r
        | None => k taken s
        end
      else k taken s
  end.

(** [cls+]: one character of the class, then [cls*]. *)
Definition greedy1 {R : Type} (cls : char -> bool)
           (k : str -> str -> option R) (s : str) : option R :=
  match s with
  | [] => None
  | c :: s' => if cls c then greedy cls k [c] s' else None
  end.

(** A literal of the pattern. *)
Definition literal {R : Type} (p : str) (k : str -> option R) (s : str)
  : option R :=
  if startswith s p then k (skipn (length p) s) else None.

(** The pattern after the group, piece by piece from its end:
    [\s*\)], then [\s*Scene\s*\)], then [\s*\(\s*Scene\s*\)]; a match
    returns group 1. *)
Definition re_close (group1 : str) : str -> option str :=
  greedy isspace (fun _ => literal (lit ")") (fun _ => Some group1)) [].

Definition re_scene (group1 : str) : str -> option str :=
  greedy isspace (fun _ => literal (lit "Scene") (re_close group1)) [].

Definition re_open (group1 : str) : str -> option str :=
  greedy isspace (fun _ => literal (lit "(") (re_scene group1)) [].

(** [SCENE_CLASS_RE.match] at the head of [s]: group 1 on success. *)
Definition scene_class_match (s : str) : option str :=
  literal (lit "class")
    (greedy1 isspace (fun _ => greedy1 isword re_open)) s.

(** [SCENE_CLASS_RE.search(code)]: the match at the leftmost position that
    has one. *)
Fixpoint scene_class_search (code : str) : option str :=
  match scene_class_match code with
  | Some group1 => Some group1
  | None =>
      match code with
      | [] => None
      | _ :: code' => scene_class_search code'
      end
  end.

(** The message ["未找到 Scene 子类，请检查 AI 输出"]. *)
Definition NO_SCENE_MESSAGE : str :=
  [26410; 25214; 21040; 32; 83; 99; 101; 110; 101; 32; 23376; 31867; 65292;
   35831; 26816; 26597; 32; 65; 73; 32; 36755; 20986]%N.

Definition extract_scene_class (code : str) : result str :=
  match scene_class_search code with
  | None => Raise (Build_RenderError NO_SCENE_MESSAGE)
  | Some group1 => Return group1
  end.

(** [render_manim_scene] extracts the class name before anything else;
    [rest] stands for what it does with the name afterwards: writing the
    script, running the renderer, collecting the section videos. *)
Definition render_manim_scene {A : Type}
           (cumulative_code : str) (rest : str -> result A) : result A :=
  bind (extract_scene_class cumulative_code) rest.

End SceneClassRe.

(** *** The files under the job directory *)

(** A directory lists its entries in the order in which the system yields
    them. *)
#[local] Unset Elimination Schemes.
Inductive node :=
| File
| Dir (entries : list (str * node)).
#[local] Set Elimination Schemes.

Definition entries (n : node) : list (str * node) :=
  match n with
  | File => []
  | Dir es => es
  end.

Definition child (n : node) (nm : str) : option node :=
  match find (fun e => str_eqb nm (fst e)) (entries n) with
  | Some e => Some (snd e)
  | None => None
  end.

Fixpoint lookup (n : node) (p : Path) : option node :=
  match p with
  | [] => Some n
  | nm :: p' =>
      match child n nm with
      | Some n' => lookup n' p'
      | None => None
      end
  end.

(** [(job_dir / p).exists()] *)
Definition path_exists (job_dir : node) (p : Path) : bool :=
  match lookup job_dir p with
  | Some _ => true
  | None => false
  end.

(** [job_dir.glob("videos/*/*/sections")] *)
Definition glob_sections (job_dir : node) : list Path :=
  match child job_dir (lit "videos") with
  | None => []
  | Some videos =>
      flat_map
        (fun e1 =>
           flat_map
             (fun e2 =>
                match child (snd e2) (lit "sections") with
                | Some _ =>
                    [[lit "videos"; fst e1; fst e2; lit "sections"]]
                | None => []
                end)
             (entries (snd e1)))
        (entries videos)
  end.

(** [s.endswith(p)] *)
Definition endswith (s p : str) : bool := startswith (rev s) (rev p).

(** [(job_dir / d).glob("*.mp4")]: the entries, files or directories, whose
    name ends with [.mp4], letter case respected; a path that is not a
    directory has none. *)
Definition glob_mp4 (job_dir : node) (d : Path) : list Path :=
  match lookup job_dir d with
  | None => []
  | Some n =>
      map (fun e => d ++ [fst e])
          (filter (fun e => endswith (fst e) (lit ".mp4")) (entries n))
  end.

Definition find_section_videos (job_dir : node) (class_name : str)
  : list Path :=
  let sections_dir :=
    [lit "videos"; lit "scene"; lit "1080p30"; lit "sections"] in
  let sections_dir :=
    if negb (path_exists job_dir sections_dir) then
      match find (fun quality_dir => path_exists job_dir quality_dir)
                 (glob_sections job_dir) with
      | Some quality_dir => quality_dir
      | None => sections_dir
      end
    else sections_dir in
  if negb (path_exists job_dir sections_dir) then []
  else
    let section_files := glob_mp4 job_dir sections_dir in
    sorted_by name section_files.

(** *** The renderer *)

(** How [subprocess.run] ends once the process has started: the timeout
    expires, or the process completes. *)
Inductive process_end :=
| TimeoutExpired
| CompletedProcess (returncode : Z) (stdout stderr : str).

(** The directories under [n], [n] first, each with its path from [p]; a
    directory is followed by what its entries hold, in their order. *)
Fixpoint directories (n : node) (p : Path) {struct n} : list (Path * node) :=
  match n with
  | File => []
  | Dir es => (p, n) :: flat_map (fun e => directories (snd e) (p ++ [fst e])) es
  end.

(** [output_dir.rglob("render.mp4")] *)
Definition rglob_render (output_dir : node) : list Path :=
  flat_map
    (fun d =>
       match child (snd d) (lit "render.mp4") with
       | Some _ => [fst d ++ [lit "render.mp4"]]
       | None => []
       end)
    (directories output_dir []).

(** [output_dir.rglob("*.mp4")] *)
Definition rglob_mp4 (output_dir : node) : list Path :=
  flat_map
    (fun d =>
       map (fun e => fst d ++ [fst e])
           (filter (fun e => endswith (fst e) (lit ".mp4")) (entries (snd d))))
    (directories output_dir []).

(** The message [f"Manim 渲染超时（{timeout}s）"]. *)
Definition timeout_message (timeout : Z) : str :=
  [77; 97; 110; 105; 109; 32; 28210; 26579; 36229; 26102; 65288]%N
  ++ str_of_int timeout ++ [115; 65289]%N.

(** The message ["未找到渲染输出视频"]. *)
Definition NO_VIDEO_MESSAGE : str :=
  [26410; 25214; 21040; 28210; 26579; 36755; 20986; 35270; 39057]%N.

(** [run_manim] from the end of the renderer process on: [output_dir] is
    the output directory, a directory since [mkdir] returned, as the
    process leaves it, and [st_mtime] gives the modification time of a
    path, the times in their order on an integer scale. *)
Definition run_manim (ended : process_end) (output_dir : node)
           (st_mtime : Path -> Z) (timeout : Z) : result Path :=
  match ended with
  | TimeoutExpired => Raise (Build_RenderError (timeout_message timeout))
  | CompletedProcess returncode stdout stderr =>
      if negb (returncode =? 0)%Z
      then Raise (Build_RenderError (if truthy stderr then stderr else stdout))
      else
        let candidates := rglob_render output_dir in
        let candidates :=
          if negb (truthy candidates) then rglob_mp4 output_dir
          else candidates in
        match candidates with
        | [] => Raise (Build_RenderError NO_VIDEO_MESSAGE)
        | first :: others => Return (max_by st_mtime first others)
        end
  end.

End manim_runner.

Import manim_runner.

(** ** [app/database.py] *)

Module database.

Record Segment := {
  id : Z;
  workspace : str;
  segment_index : Z;
  input_text : str;
  cumulative_code : str;
  section_video_path : str;
  created_at : str
}.

(** The database file: the rows of the table [segments] in the order of
    their row ids, the rows of the table [settings], and the greatest row
    id that the table [segments] has ever held, which AUTOINCREMENT
    keeps.  The integers of SQLite have 64 bits, with [MAX_INT64] for the
    greatest; [Z] stands for them, and the operations below follow the
    database as long as the numbers they compute are such integers. *)
Record Database := {
  segments : list Segment;
  settings : list (str * str);
  sequence : Z
}.


(** The tables that [_init_db] creates in a new file. *)
Definition empty : Database :=
  {| segments := []; settings := []; sequence := 0 |}.

(** [WHERE workspace = ?] *)
Definition in_workspace (w : str) (row : Segment) : bool :=
  str_eqb (workspace row) w.

(** [MAX(...)] over the selected rows: [None] for NULL. *)
Definition sql_max (l : list Z) : option Z :=
  match l with
  | [] => None
  | x :: l' => Some (fold_left Z.max l' x)
  end.

(** [COALESCE(x, d)] *)
Definition coalesce (x : option Z) (d : Z) : Z :=
  match x with
  | Some v => v
  | None => d
  end.

(** The row id that AUTOINCREMENT gives to a new row. *)
Definition next_id (db : Database) : Z :=
  (Z.max (coalesce (sql_max (map id (segments db))) 0) (sequence db) + 1)%Z.

(** [create_segment], with the time stamp that it reads from the clock:
    the database after the call and the segment returned.  Here the
    database computes two numbers, the index [MAX(segment_index) + 1] and
    the row id; they are the integers below where every index of the
    workspace, every id and the greatest id ever held are less than
    [MAX_INT64].  At [MAX_INT64] the sum is no integer any more and
    AUTOINCREMENT refuses the row; the model does not follow the database
    there. *)
Definition create_segment (db : Database)
           (workspace input_text created_at : str) : Database * Segment :=
  let segment_index :=
    (coalesce
       (sql_max (map segment_index
                     (filter (in_workspace workspace) (segments db))))
       (-1) + 1)%Z in
  let segment_id := next_id db in
  let row :=
    {| id := segment_id; workspace := workspace;
       segment_index := segment_index; input_text := input_text;
       cumulative_code := []; section_video_path := [];
       created_at := created_at |} in
  ({| segments := segments db ++ [row]; settings := settings db;
      sequence := segment_id |},
   row).

Definition update_segment_render (db : Database) (segment_id : Z)
           (cumulative_code section_video_path : str) : Database :=
  {| segments :=
       map (fun row =>
              if (id row =? segment_id)%Z
              then {| id := id row; workspace := workspace row;
                      segment_index := segment_index row;
                      input_text := input_text row;
                      cumulative_code := cumulative_code;
                      section_video_path := section_video_path;
                      created_at := created_at row |}
              else row)
           (segments db);
     settings := settings db;
     sequence := sequence db |}.

(** [ORDER BY segment_index DESC]; rows of equal index, which SQLite may
    give in any order, stay in the order of the table here. *)
Fixpoint insert_desc (row : Segment) (l : list Segment) : list Segment :=
  match l with
  | [] => [row]
  | y :: l' =>
      if (segment_index y <=? segment_index row)%Z then row :: l
      else y :: insert_desc row l'
  end.

Fixpoint order_desc (l : list Segment) : list Segment :=
  match l with
  | [] => []
  | row :: l' => insert_desc row (order_desc l')
  end.

(** [ORDER BY segment_index ASC], with the same convention. *)
Fixpoint insert_asc (row : Segment) (l : list Segment) : list Segment :=
  match l with
  | [] => [row]
  | y :: l' =>
      if (segment_index row <=? segment_index y)%Z then row :: l
      else y :: insert_asc row l'
  end.

Fixpoint order_asc (l : list Segment) : list Segment :=
  match l with
  | [] => []
  | row :: l' => insert_asc row (order_asc l')
  end.

(** [LIMIT ?]: a negative limit is no limit.  The limit is a 64-bit
    integer: the binding raises [OverflowError] on another one before the
    query runs. *)
Definition sql_limit {A : Type} (limit : Z) (l : list A) : list A :=
  if (limit <? 0)%Z then l else firstn (Z.to_nat limit) l.

Definition list_segments (db : Database) (workspace : str) (limit : Z)
  : list Segment :=
  sql_limit limit (order_desc (filter (in_workspace workspace) (segments db))).

Definition list_segments_asc (db : Database) (workspace : str)
  : list Segment :=
  order_asc (filter (in_workspace workspace) (segments db)).

Definition get_latest_cumulative_code (db : Database) (workspace : str)
  : str :=
  match sql_limit 1
          (order_desc (filter (in_workspace workspace) (segments db))) with
  | row :: _ => if truthy (cumulative_code row) then cumulative_code row else []
  | [] => []
  end.

Definition get_segment_count (db : Database) (workspace : str) : Z :=
  Z.of_nat (length (filter (in_workspace workspace) (segments db))).

Definition get_setting (db : Database) (key default : str) : str :=
  match find (fun kv => str_eqb (fst kv) key) (settings db) with
  | Some kv => snd kv
  | None => default
  end.

(** [INSERT ... ON CONFLICT(key) DO UPDATE SET value = excluded.value] *)
Fixpoint upsert (key value : str) (rows : list (str * str))
  : list (str * str) :=
  match rows with
  | [] => [(key, value)]
  | kv :: rows' =>
      if str_eqb (fst kv) key then (fst kv, value) :: rows'
      else kv :: upsert key value rows'
  end.

Definition set_setting (db : Database) (key value : str) : Database :=
  {| segments := segments db;
     settings := upsert key value (settings db);
     sequence := sequence db |}.


(** The letters that LIKE takes for equal: those of ASCII, without regard
    to case. *)
Definition fold_case (c : char) : char :=
  if ((65 <=? c) && (c <=? 90))%N then (c + 32)%N else c.

(** The comparison of LIKE on the characters of a pattern and of a text:
    [%] stands for any run of characters, [_] for any one character. *)
Fixpoint like_chars (pattern : str) : str -> bool :=
  match pattern with
  | [] => fun s => negb (truthy s)
  | c :: pattern' =>
      if (c =? 37)%N then
        fix skip (s : str) : bool :=
          like_chars pattern' s ||
          match s with
          | [] => false
          | _ :: s' => skip s'
          end
      else
        fun s =>
          match s with
          | [] => false
          | d :: s' =>
              ((c =? 95)%N || (fold_case c =? fold_case d)%N)
              && like_chars pattern' s'
          end
  end.

(** The part of a text in front of its first NUL character. *)
Fixpoint before_nul (s : str) : str :=
  match s with
  | [] => []
  | c :: s' => if (c =? 0)%N then [] else c :: before_nul s'
  end.

(** [s LIKE pattern] of SQLite, which reads the pattern and the text up to
    their first NUL character. *)
Definition like (pattern s : str) : bool :=
  like_chars (before_nul pattern) (before_nul s).

(** The texts that UTF-8 encodes, those without a surrogate code point: on
    a parameter that is another text the binding raises
    [UnicodeEncodeError] and no statement runs. *)
Definition encodable (s : str) : bool :=
  forallb (fun c => (c <? 55296)%N || ((57343 <? c)%N && (c <=? 1114111)%N))
          s.

(** The number of bytes of a text in UTF-8, the encoding of the texts of
    the database. *)
Definition utf8_length (s : str) : N :=
  fold_left
    (fun n c =>
       n + (if c <? 128 then 1 else if c <? 2048 then 2
            else if c <? 65536 then 3 else 4))%N
    s 0%N.

(** The longest pattern, in bytes, that LIKE takes. *)
Definition MAX_LIKE_PATTERN_LENGTH : N := 50000.

(** [delete_workspace_data]: [None] stands for an exception, which leaves
    the database as it was: the error of the binding on a name that UTF-8
    does not encode, raised before the first statement runs, or the error
    of LIKE on a pattern that is too long, which it raises at the first
    row it is to examine and which undoes the transaction. *)
Definition delete_workspace_data (db : Database) (workspace : str)
  : option Database :=
  if negb (encodable workspace) then None
  else if truthy (settings db)
          && (MAX_LIKE_PATTERN_LENGTH <? utf8_length (lit "%::" ++ workspace))%N
  then None
  else
    Some
      {| segments :=
           filter (fun row => negb (in_workspace workspace row)) (segments db);
         settings :=
           filter (fun kv => negb (like (lit "%::" ++ workspace) (fst kv)))
                  (settings db);
         sequence := sequence db |}.

Definition delete_segment (db : Database) (segment_id : Z) : Database :=
  {| segments := filter (fun row => negb (id row =? segment_id)%Z) (segments db);
     settings := settings db;
     sequence := sequence db |}.

End database.

(** ** [app/ui_main.py] *)

Module ui_main.

(** [l[i]] for an integer index: negative indices count from the end;
    [None] stands for [IndexError]. *)
Definition getitem {A : Type} (l : list A) (i : Z) : option A :=
  if (i <? 0)%Z then
    if (i + Z.of_nat (length l) <? 0)%Z then None
    else nth_error l (Z.to_nat (i + Z.of_nat (length l)))
  else nth_error l (Z.to_nat i).

(** The value of [section_video_path] that [MainWindow._on_finished]
    records for the current segment: the empty string when the round has
    no file to play. *)
Definition _on_finished_section_video_path
  (segment_index : Z) (video_path : Path) (section_videos : list Path)
  : option str :=
  if (segment_index =? 0)%Z then Some (path_str video_path)
  else
    let section_video_path := [] in
    if truthy section_videos then
      let sorted_videos := sorted_by name section_videos in
      let idx := segment_index in
      if (idx <? Z.of_nat (length sorted_videos))%Z then
        option_map path_str (getitem sorted_videos idx)
      else option_map path_str (getitem sorted_videos (-1)%Z)
    else Some section_video_path.

(** [item.is_dir()] *)
Definition is_dir (n : node) : bool :=
  match n with
  | File => false
  | Dir _ => true
  end.

(** [MainWindow._list_workspaces]: [jobs_dir] is what the path of the jobs
    directory holds, if anything; [None] in the result stands for the
    error of [iterdir] on a path that is no directory. *)
Definition _list_workspaces (jobs_dir : option node) : option (list str) :=
  match jobs_dir with
  | None => Some []
  | Some File => None
  | Some (Dir es) =>
      Some (sorted_by (fun item_name : str => item_name)
              (map fst
                 (filter (fun item => is_dir (snd item)
                                      && negb (startswith (fst item) (lit ".")))
                         es)))
  end.

(** The mode that [MainWindow._on_generate] passes to the worker for the
    text of the mode box: a lookup in a two-entry dictionary with a
    default. *)
Definition ai_mode_of (ai_mode_text : str) : str :=
  if str_eqb ai_mode_text (lit "DeepSeek") then lit "deepseek"
  else if str_eqb ai_mode_text (lit "Gemini") then lit "gemini"
  else lit "deepseek".

End ui_main.

(** ** [app/workers.py] *)

Module workers.

(** The program that [RenderWorker.run] hands to the renderer for the
    answer [code] of the provider. *)
Definition run_code (previous_code prompt code : str) : str :=
  let code := sanitize_code code previous_code in
  ensure_section_addition previous_code code prompt.

End workers.

Import ui_main.

(** ** Vocabulary of the statements *)

Module Vocabulary.

(** A line that holds the signature of the designated method. *)
Definition is_signature_line (line : str) : bool := contains SIGNATURE line.

(** What the locator takes for a line of code of the method: a non-blank
    line that begins with four spaces or with a tab. *)
Definition is_indented_line (line : str) : bool :=
  (startswith line INDENT4 || startswith line TAB) && truthy (strip line).

(** [s] is the index of the first signature line of [lines]. *)
Definition first_signature_at (lines : list str) (s : nat) : Prop :=
  (exists line, nth_error lines s = Some line /\ is_signature_line line = true)
  /\ forall i line, i < s -> nth_error lines i = Some line ->
                    is_signature_line line = false.

(** The width of the leading whitespace of a line. *)
Definition indent_width (line : str) : nat :=
  length line - length (lstrip line).

(** The locator in the words of the specification: the body of the method
    is indented one level, [level] columns, deeper than the signature line;
    the offset is the one after the last non-blank line, at or after the
    signature line, indented at least as deep as the body, and the one
    after the signature line when there is no such line.  [None] when the
    text has no signature line. *)
Definition spec_insert_position (level : nat) (lines : list str) : option Z :=
  match find (fun il => is_signature_line (snd il)) (enumerate lines) with
  | None => None
  | Some (s, signature) =>
      let body_level := indent_width signature + level in
      let body :=
        filter (fun il => (s <=? fst il) && truthy (strip (snd il))
                          && (body_level <=? indent_width (snd il)))
               (enumerate lines) in
      match rev body with
      | (j, _) :: _ => Some (Z.of_nat j + 1)%Z
      | [] => Some (Z.of_nat s + 1)%Z
      end
  end.

(** A line of the body of a method in the plain sense: not blank and
    indented deeper than the signature line. *)
Definition is_body_line_of (signature line : str) : bool :=
  truthy (strip line) && (indent_width signature <? indent_width line).

(** The text, once trimmed, begins with a fence: its first non-blank line
    is a fence opener. *)
Definition opens_with_fence (code : str) : bool :=
  startswith (strip code) FENCE.

(** A line with a character that is not whitespace. *)
Definition nonblank (line : str) : bool := truthy (strip line).

(** The dedent step in the words of the specification: the lines of the
    fragment, each non-blank line without its first [m] characters, [m]
    the least indentation of the non-blank lines, and the blank lines as
    they are, in place. *)
Definition spec_dedent_lines (code : str) : list str :=
  let m := min_of (map indent_width (filter nonblank (splitlines code))) in
  map (fun line => if nonblank line then skipn m line else line)
      (splitlines code).

(** The previous program with the block of a new section spliced in at
    the offset of the locator: a blank line, the comment line, the marker
    line, a blank line, then the content lines. *)
Definition splice (existing_code : str) (content_lines : list str)
  : list str :=
  let lines := split_char NL existing_code in
  let insert_pos := Z.to_nat (_find_construct_insert_position lines) in
  firstn insert_pos lines
  ++ ([ []; COMMENT_LINE; INDENT8 ++ SECTION_MARKER; [] ] ++ content_lines)
  ++ skipn insert_pos lines.

(** The lines of a text; the empty text has none. *)
Definition content_lines_of (content : str) : list str :=
  if truthy content then split_char NL content else [].

(** The new content of a response before any normalization: the text
    after the first marker, the whole text when there is no marker. *)
Definition raw_new_content (cleaned : str) : str :=
  match partition_first SECTION_MARKER cleaned with
  | Some (_, after) => after
  | None => cleaned
  end.

(** The normalizer in the words of the specification: the content is
    dedented, then every non-blank line is prefixed by the target
    indentation, and blank lines stay blank. *)
Definition spec_normalized_lines (content : str) : list str :=
  map (fun line => if nonblank line then INDENT8 ++ line else line)
      (content_lines_of (_remove_common_indent content)).

(** The line that the assembly loop appends for a generated line. *)
Definition reindent (line : str) : str :=
  if nonblank line
  then if startswith line INDENT8 then line else INDENT8 ++ line
  else [].

(** [p] comes no later than [q] in the order of the file names. *)
Definition name_le (p q : Path) : Prop := str_le (name p) (name q) = true.

(** No directory named [sections] exists anywhere under the job
    directory. *)
Definition no_sections_dir (job_dir : node) : Prop :=
  forall (p : Path) (es : list (str * node)),
    name p = lit "sections" -> lookup job_dir p <> Some (Dir es).

(** [s] begins with a declaration [class <nm>(Scene)] as the pattern
    allows it: whitespace after [class], a class name of word characters,
    optional whitespace around the parentheses and around [Scene]. *)
Definition declares_at (isalnum : char -> bool) (s nm : str) : Prop :=
  exists ws1 ws2 ws3 ws4 rest,
    s = lit "class" ++ ws1 ++ nm ++ ws2 ++ lit "(" ++ ws3 ++ lit "Scene"
        ++ ws4 ++ lit ")" ++ rest /\
    ws1 <> [] /\ forallb isspace ws1 = true /\
    nm <> [] /\ forallb (isword isalnum) nm = true /\
    forallb isspace ws2 = true /\ forallb isspace ws3 = true /\
    forallb isspace ws4 = true.

(** The text has a substring that is a scene-class declaration. *)
Definition has_declaration (isalnum : char -> bool) (code : str) : Prop :=
  exists pre s nm, code = pre ++ s /\ declares_at isalnum s nm.

(** The alphanumeric characters of ASCII, for running examples. *)
Definition ascii_alnum (c : char) : bool :=
  ((48 <=? c) && (c <=? 57) || (65 <=? c) && (c <=? 90) ||
   (97 <=? c) && (c <=? 122))%N.

(** No alphanumeric character is whitespace or the opening parenthesis,
    as in the Unicode database. *)
Definition alnum_apart (isalnum : char -> bool) : Prop :=
  forall c, isalnum c = true -> isspace c = false /\ c <> 40%N.

(** A text without a line boundary, such as a line that [splitlines]
    returns. *)
Definition no_linebreak (line : str) : bool :=
  forallb (fun c => negb (is_linebreak c)) line.

(** A text without whitespace at either end. *)
Definition trimmed (s : str) : Prop := strip s = s.

(** The import line that the sanitizer puts in front of a first answer. *)
Definition IMPORT_LINE : str := lit "from manim import *".

(** A line without the marker. *)
Definition marker_free (line : str) : bool :=
  negb (contains SECTION_MARKER line).

(** The segments of a workspace hold, in the order of their creation, the
    indices 0, 1, 2 and so on. *)
Definition consecutive (db : database.Database) : Prop :=
  forall w,
    map database.segment_index
        (filter (database.in_workspace w) (database.segments db))
    = map Z.of_nat
          (seq 0 (length (filter (database.in_workspace w)
                                 (database.segments db)))).


(** A text without the NUL character. *)
Definition nul_free (s : str) : bool := forallb (fun c => negb (c =? 0)%N) s.

(** Two texts that LIKE takes for equal, character by character. *)
Definition like_equal (a b : str) : Prop :=
  map database.fold_case a = map database.fold_case b.

(** A part of an answer of Gemini that holds the text [t]. *)
Definition text_part (t : str) : value := VDict [(lit "text", VStr t)].

(** An answer of Gemini whose first candidate holds the texts [ts], with
    [others] for the further candidates. *)
Definition gemini_answer (ts : list str) (others : list value) : value :=
  VDict
    [(lit "candidates",
      VList
        (VDict [(lit "content",
                 VDict [(lit "parts", VList (map text_part ts))])]
         :: others))].

End Vocabulary.

Import Vocabulary.

(** * Properties *)

(** ** Facts on the string operations *)

Section StrFacts.

Implicit Types (s p sub a b : str) (c : char).

Lemma startswith_iff s p :
  startswith s p = true <-> exists r, s = p ++ r.
Proof.
  revert s; induction p as [|x p IH]; intros s; simpl.
  - split; [intros _; now exists s | reflexivity].
  - destruct s as [|y s].
    + split; [discriminate | intros [r Hr]; discriminate].
    + rewrite andb_true_iff, N.eqb_eq, IH. split.
      * intros [-> [r ->]]. now exists r.
      * intros [r Hr]. injection Hr as -> ->. eauto.
Qed.

Lemma startswith_app p r : startswith (p ++ r) p = true.
Proof. apply startswith_iff. now exists r. Qed.

Lemma contains_iff sub s :
  contains sub s = true <-> exists a b, s = a ++ sub ++ b.
Proof.
  induction s as [|c s IH].
  - simpl. rewrite orb_false_r, startswith_iff. split.
    + intros [r Hr]. now exists [], r.
    + intros [a [b H]]. destruct a; [now exists b | discriminate].
  - simpl. rewrite orb_true_iff, startswith_iff, IH. split.
    + intros [[r Hr] | [a [b H]]].
      * now exists [], r.
      * exists (c :: a), b. now rewrite H.
    + intros [a [b H]]. destruct a as [|x a].
      * left. now exists b.
      * right. injection H as _ H. now exists a, b.
Qed.

Lemma contains_infix sub a s b :
  contains sub s = true -> contains sub (a ++ s ++ b) = true.
Proof.
  rewrite !contains_iff. intros [x [y ->]].
  exists (a ++ x), (y ++ b). now rewrite <- !app_assoc.
Qed.

(** A match that begins in front of a separator which the pattern does not
    have ends in front of it. *)
Lemma startswith_before_sep s c b p :
  ~ In c p -> startswith (s ++ c :: b) p = true -> startswith s p = true.
Proof.
  intros Hc. revert p Hc.
  induction s as [|y s IH]; intros [|x p] Hc; simpl; trivial.
  - rewrite andb_true_iff, N.eqb_eq. intros [-> _]. destruct Hc. now left.
  - rewrite !andb_true_iff. intros [-> H]. split; trivial.
    apply IH; trivial. intros Hin. apply Hc. now right.
Qed.

Lemma startswith_app_l s r p :
  startswith s p = true -> startswith (s ++ r) p = true.
Proof.
  rewrite !startswith_iff. intros [x ->]. exists (x ++ r).
  now rewrite app_assoc.
Qed.

(** An occurrence of a pattern without the separator lies on one side of
    the separator. *)
Lemma contains_app_sep sub a c b :
  ~ In c sub ->
  contains sub (a ++ c :: b) = contains sub a || contains sub b.
Proof.
  intros Hc. induction a as [|y a IH].
  - simpl. rewrite orb_false_r.
    destruct (startswith (c :: b) sub) eqn:E1.
    + apply (startswith_before_sep [] c b) in E1; trivial. now rewrite E1.
    + destruct sub as [|x sub]; [discriminate E1|]. reflexivity.
  - simpl. rewrite IH.
    destruct (startswith (y :: a ++ c :: b) sub) eqn:E1.
    + apply (startswith_before_sep (y :: a) c b) in E1; trivial.
      simpl in E1. now rewrite E1.
    + destruct (startswith (y :: a) sub) eqn:E2.
      * apply (startswith_app_l _ (c :: b)) in E2. simpl in E2. congruence.
      * reflexivity.
Qed.

Lemma contains_join_sep sub c (ls : list str) :
  ~ In c sub -> sub <> [] ->
  contains sub (join [c] ls) = existsb (contains sub) ls.
Proof.
  intros Hc Hne. induction ls as [|l ls IH]; simpl.
  - destruct sub; [contradiction | reflexivity].
  - destruct ls as [|l' ls].
    + simpl. now rewrite orb_false_r.
    + change (l ++ [c] ++ join [c] (l' :: ls))
        with (l ++ c :: join [c] (l' :: ls)).
      rewrite contains_app_sep by trivial. now rewrite IH.
Qed.

Lemma contains_snoc_sep sub c s :
  ~ In c sub -> sub <> [] -> contains sub (s ++ [c]) = contains sub s.
Proof.
  intros Hc Hne. rewrite contains_app_sep by trivial.
  destruct sub; [contradiction | simpl; apply orb_false_r].
Qed.

(** *** Stripping *)

Lemma lstrip_suffix s : exists w, s = w ++ lstrip s /\ forallb isspace w = true.
Proof.
  induction s as [|c s [w [Hw Hs]]]; simpl.
  - now exists [].
  - destruct (isspace c) eqn:E.
    + exists (c :: w). simpl. rewrite E, Hs. split; [now f_equal | reflexivity].
    + now exists [].
Qed.

Lemma rstrip_prefix s : exists w, s = rstrip s ++ w /\ forallb isspace w = true.
Proof.
  unfold rstrip. destruct (lstrip_suffix (rev s)) as [w [Hw Hs]].
  exists (rev w). split.
  - rewrite <- rev_app_distr, <- Hw. now rewrite rev_involutive.
  - rewrite forallb_forall in *. intros x Hx. apply Hs. now apply in_rev.
Qed.

Lemma strip_infix s : exists w1 w2, s = w1 ++ strip s ++ w2.
Proof.
  destruct (lstrip_suffix s) as [w1 [H1 _]].
  destruct (rstrip_prefix (lstrip s)) as [w2 [H2 _]].
  exists w1, w2. unfold strip. now rewrite <- H2.
Qed.

Lemma contains_strip sub s :
  contains sub (strip s) = true -> contains sub s = true.
Proof.
  intros H. destruct (strip_infix s) as [w1 [w2 E]]. rewrite E.
  now apply contains_infix.
Qed.

(** The width of the leading whitespace, as the source computes it. *)
Lemma indent_split s :
  s = firstn (length s - length (lstrip s)) s ++ lstrip s /\
  forallb isspace (firstn (length s - length (lstrip s)) s) = true.
Proof.
  destruct (lstrip_suffix s) as [w [Hw Hs]].
  assert (E : length s - length (lstrip s) = length w).
  { rewrite Hw at 1. rewrite length_app. lia. }
  assert (F : firstn (length w) s = w).
  { rewrite Hw, firstn_app, firstn_all, Nat.sub_diag. simpl. apply app_nil_r. }
  rewrite E, F. now split.
Qed.

(** Leading whitespace does not open an occurrence of a pattern that
    begins with another character. *)
Lemma contains_skip_space w x sub s :
  forallb isspace w = true -> isspace x = false ->
  contains (x :: sub) (w ++ s) = contains (x :: sub) s.
Proof.
  intros Hw Hx. induction w as [|c w IH]; trivial.
  simpl in Hw. apply andb_true_iff in Hw as [Hc Hw].
  change (contains (x :: sub) ((c :: w) ++ s))
    with (startswith (c :: w ++ s) (x :: sub) || contains (x :: sub) (w ++ s)).
  rewrite IH by trivial. simpl.
  destruct (N.eqb_spec x c) as [->|_]; [congruence | reflexivity].
Qed.

(** *** Splitting and joining *)

Lemma split_char_nonempty c s : split_char c s <> [].
Proof.
  destruct s as [|x s]; simpl; [discriminate|].
  destruct (x =? c)%N; [discriminate|].
  destruct (split_char c s); discriminate.
Qed.

Lemma join_split_char c s : join [c] (split_char c s) = s.
Proof.
  induction s as [|x s IH]; trivial. simpl.
  destruct (N.eqb_spec x c) as [->|Hx].
  - pose proof (split_char_nonempty c s) as Hne.
    destruct (split_char c s) as [|l ls]; [contradiction|].
    simpl in *. now rewrite IH.
  - pose proof (split_char_nonempty c s) as Hne.
    destruct (split_char c s) as [|l ls]; [contradiction|].
    simpl in *. destruct ls; simpl; now rewrite <- IH.
Qed.

(** *** Loops that append *)

Lemma fold_left_append {A B : Type} (keep : A -> bool) (f : A -> B)
      (l : list A) (acc : list B) :
  fold_left (fun acc x => if keep x then acc ++ [f x] else acc) l acc
  = acc ++ map f (filter keep l).
Proof.
  revert acc. induction l as [|x l IH]; intros acc; simpl.
  - now rewrite app_nil_r.
  - rewrite IH. destruct (keep x); simpl; trivial. now rewrite <- app_assoc.
Qed.

End StrFacts.

(** ** The loop that removes list items by index, last index first *)

Section PopLoop.

Context {A : Type} (p : A -> bool).

Local Abbreviation hits k l :=
  (map fst (filter (fun il : nat * A => p (snd il)) (enumerate_from k l))).

Lemma hits_shift k (l : list A) : hits (S k) l = map S (hits k l).
Proof.
  revert k. induction l as [|x l IH]; intros k; simpl; trivial.
  destruct (p x); simpl; now rewrite IH.
Qed.

Lemma hits_cons (x : A) (l : list A) :
  hits 0 (x :: l) = if p x then 0 :: map S (hits 0 l) else map S (hits 0 l).
Proof. simpl. destruct (p x); simpl; now rewrite hits_shift. Qed.

Lemma pop_loop_fold (js : list nat) (l : list A) :
  fold_left (fun ls idx => pop idx ls) (rev js) l
  = fold_right (fun idx ls => pop idx ls) l js.
Proof.
  rewrite <- (rev_involutive js) at 2. now rewrite fold_left_rev_right.
Qed.

Lemma pop_loop_shift (x : A) (js : list nat) (l : list A) :
  fold_right (fun idx ls => pop idx ls) (x :: l) (map S js)
  = x :: fold_right (fun idx ls => pop idx ls) l js.
Proof. induction js as [|j js IH]; simpl; trivial. now rewrite IH. Qed.

Lemma hits_nil (l : list A) :
  hits 0 l = [] -> forallb (fun x => negb (p x)) l = true.
Proof.
  induction l as [|x l IH]; trivial.
  rewrite hits_cons. simpl. destruct (p x); [discriminate|].
  destruct (hits 0 l); [auto | discriminate].
Qed.

(** Popping every hit, from the last to the first, keeps the other items. *)
Lemma pop_loop_all (l : list A) :
  fold_right (fun idx ls => pop idx ls) l (hits 0 l)
  = filter (fun x => negb (p x)) l.
Proof.
  induction l as [|x l IH]; trivial.
  rewrite hits_cons. destruct (p x) eqn:E; simpl; rewrite E; simpl.
  - now rewrite pop_loop_shift, IH.
  - now rewrite pop_loop_shift, IH.
Qed.

(** Replacing the first hit and popping the later ones. *)
Lemma replace_first_pop_rest (mk : A -> A) (d : A) (l : list A) first others :
  hits 0 l = first :: others ->
  exists pre m post,
    l = pre ++ m :: post /\ length pre = first /\
    forallb (fun x => negb (p x)) pre = true /\ p m = true /\
    fold_left (fun ls idx => pop idx ls) (rev others)
      (set_item first (mk (nth first l d)) l)
    = pre ++ mk m :: filter (fun x => negb (p x)) post.
Proof.
  rewrite pop_loop_fold.
  revert first others. induction l as [|x l IH]; intros first others.
  - discriminate.
  - rewrite hits_cons. destruct (p x) eqn:E.
    + intros H. injection H as <- <-.
      exists [], x, l. simpl. repeat split; trivial.
      now rewrite pop_loop_shift, pop_loop_all.
    + destruct (hits 0 l) as [|f' others'] eqn:Eh; [discriminate|].
      simpl. intros H. injection H as <- <-.
      destruct (IH f' others' eq_refl) as (pre & m & post & -> & Hl & Hp & Hm & Hr).
      exists (x :: pre), m, post. simpl. rewrite E, Hl, Hp.
      repeat split; trivial.
      rewrite pop_loop_shift. now rewrite Hr.
Qed.

End PopLoop.

(** ** The marker protocol *)

Lemma not_in_chars (c : char) (s : str) :
  existsb (N.eqb c) s = false -> ~ In c s.
Proof.
  intros H Hin. assert (existsb (N.eqb c) s = true); [|congruence].
  apply existsb_exists. exists c. split; trivial. apply N.eqb_refl.
Qed.

Lemma marker_one_line : ~ In NL SECTION_MARKER.
Proof. now apply not_in_chars. Qed.

Lemma directive_one_line : ~ In NL NEXT_SECTION.
Proof. now apply not_in_chars. Qed.

Lemma marker_nonempty : SECTION_MARKER <> [].
Proof. discriminate. Qed.

Lemma directive_nonempty : NEXT_SECTION <> [].
Proof. discriminate. Qed.

(** The side conditions of the lemmas on joined lines. *)
Create HintDb one_line.
#[local] Hint Resolve marker_one_line marker_nonempty
  directive_one_line directive_nonempty : one_line.

Ltac one_line := solve [auto with one_line].

(** The loop of the first round keeps the lines that have neither the
    marker nor the section-break call. *)
Lemma first_round_loop (lines acc : list str) :
  fold_left
    (fun acc line =>
       let stripped := strip line in
       if contains SECTION_MARKER line then acc
       else if contains NEXT_SECTION stripped then acc
       else acc ++ [line]) lines acc
  = acc ++ filter (fun line => negb (contains SECTION_MARKER line)
                               && negb (contains NEXT_SECTION (strip line)))
                  lines.
Proof.
  revert acc. induction lines as [|x lines IH]; intros acc; simpl.
  - now rewrite app_nil_r.
  - rewrite IH. destruct (contains SECTION_MARKER x); simpl; trivial.
    destruct (contains NEXT_SECTION (strip x)); simpl; trivial.
    now rewrite <- app_assoc.
Qed.

(** The line written over the first marker line has no marker. *)
Lemma directive_line_no_marker (line : str) :
  contains SECTION_MARKER
    (firstn (length line - length (lstrip line)) line ++ NEXT_SECTION) = false.
Proof.
  destruct (indent_split line) as [_ Hw].
  change SECTION_MARKER with (35%N :: tl SECTION_MARKER).
  now rewrite contains_skip_space.
Qed.

(** The lines that [_replace_section_marker] joins. *)
Lemma replace_section_marker_lines (code : str) :
  exists lines,
    _replace_section_marker code = join [NL] lines /\
    forallb (fun l => negb (contains SECTION_MARKER l)) lines = true.
Proof.
  unfold _replace_section_marker.
  destruct (map fst _) as [|first others] eqn:Eh.
  - exists (split_char NL code). split; [now rewrite join_split_char|].
    now apply hits_nil in Eh.
  - destruct (replace_first_pop_rest (contains SECTION_MARKER)
                (fun line => firstn (length line - length (lstrip line)) line
                             ++ NEXT_SECTION)
                [] (split_char NL code) first others Eh)
      as (pre & m & post & El & Hl & Hp & Hm & Hr).
    eexists. split; [cbv zeta; apply f_equal; exact Hr|].
    rewrite forallb_app. simpl. rewrite Hp, directive_line_no_marker. simpl.
    apply forallb_forall. intros x Hx. now apply filter_In in Hx.
Qed.

Lemma no_marker_in_join (lines : list str) :
  forallb (fun l => negb (contains SECTION_MARKER l)) lines = true ->
  contains SECTION_MARKER (join [NL] lines) = false.
Proof.
  intros H. rewrite contains_join_sep by one_line.
  destruct (existsb _ lines) eqn:E; trivial.
  apply existsb_exists in E as [l [Hl Hc]].
  rewrite forallb_forall in H. apply H in Hl. now rewrite Hc in Hl.
Qed.

Lemma replace_section_marker_no_marker (code : str) :
  contains SECTION_MARKER (_replace_section_marker code) = false.
Proof.
  destruct (replace_section_marker_lines code) as [lines [-> H]].
  now apply no_marker_in_join.
Qed.

Lemma strip_markers_and_sections_no_marker (code : str) :
  contains SECTION_MARKER (_strip_markers_and_sections code) = false.
Proof.
  unfold _strip_markers_and_sections.
  rewrite contains_snoc_sep by one_line.
  rewrite first_round_loop. simpl.
  destruct (contains SECTION_MARKER (strip _)) eqn:E; trivial.
  apply contains_strip in E. rewrite no_marker_in_join in E; [discriminate|].
  apply forallb_forall. intros l Hl. apply filter_In in Hl as [_ Hl].
  now apply andb_true_iff in Hl.
Qed.

(** C2: whatever the previous program text and the generated fragment, the
    text returned by the assembly has no occurrence of the marker
    [# <<SECTION_BREAK>>], in the first round (markers stripped) and in a
    continuation round (markers replaced or deleted) alike. *)
Theorem assembled_text_has_no_marker (existing_code ai_response prompt : str) :
  contains SECTION_MARKER
    (ensure_section_addition existing_code ai_response prompt) = false.
Proof.
  unfold ensure_section_addition.
  destruct (negb (truthy (strip existing_code))).
  - apply strip_markers_and_sections_no_marker.
  - apply replace_section_marker_no_marker.
Qed.


(** ** The insertion-point locator *)

Section Locator.

Implicit Types (lines : list str) (st : scan_state).

Lemma scan_step_found (z : Z) (i : nat) (line : str) :
  scan_step {| found_construct := true; last_indented_line := z |} (i, line)
  = {| found_construct := true;
       last_indented_line :=
         if is_indented_line line then Z.of_nat i else z |}.
Proof.
  unfold scan_step, is_indented_line. simpl.
  now destruct (contains SIGNATURE line).
Qed.

Lemma scan_step_signature (z : Z) (i : nat) (line : str) :
  is_signature_line line = true ->
  scan_step {| found_construct := false; last_indented_line := z |} (i, line)
  = scan_step {| found_construct := true; last_indented_line := z |} (i, line).
Proof. unfold scan_step, is_signature_line. simpl. now intros ->. Qed.

Lemma scan_step_before (z : Z) (i : nat) (line : str) :
  is_signature_line line = false ->
  scan_step {| found_construct := false; last_indented_line := z |} (i, line)
  = {| found_construct := false; last_indented_line := z |}.
Proof. unfold scan_step, is_signature_line. simpl. now intros ->. Qed.

(** Before the first signature line the loop changes nothing. *)
Lemma scan_before_signature k lines z :
  forallb (fun l => negb (is_signature_line l)) lines = true ->
  fold_left scan_step (enumerate_from k lines)
    {| found_construct := false; last_indented_line := z |}
  = {| found_construct := false; last_indented_line := z |}.
Proof.
  revert k. induction lines as [|x lines IH]; intros k H; trivial.
  simpl in H. apply andb_true_iff in H as [Hx H].
  cbn [fold_left enumerate_from].
  rewrite scan_step_before by now destruct (is_signature_line x).
  now apply IH.
Qed.

(** From the signature line on the loop keeps the index of the last
    indented line it has seen. *)
Lemma scan_after_signature k lines z :
  exists z',
    fold_left scan_step (enumerate_from k lines)
      {| found_construct := true; last_indented_line := z |}
    = {| found_construct := true; last_indented_line := z' |} /\
    ((z' = z /\ forallb (fun l => negb (is_indented_line l)) lines = true) \/
     (exists j line,
        nth_error lines j = Some line /\ is_indented_line line = true /\
        z' = Z.of_nat (k + j) /\
        forallb (fun l => negb (is_indented_line l)) (skipn (S j) lines)
        = true)).
Proof.
  revert k z. induction lines as [|x lines IH]; intros k z.
  - exists z. split; trivial. now left.
  - cbn [fold_left enumerate_from]. rewrite scan_step_found.
    destruct (IH (S k) (if is_indented_line x then Z.of_nat k else z))
      as [z' [Hf Hz]].
    exists z'. split; trivial.
    destruct Hz as [[-> Hall] | (j & line & Hn & Hi & -> & Hall)].
    + destruct (is_indented_line x) eqn:E.
      * right. exists 0, x. simpl. rewrite Nat.add_0_r. now repeat split.
      * left. simpl. rewrite E. now split.
    + right. exists (S j), line. simpl. repeat split; trivial. f_equal. lia.
Qed.

(** The second loop: the index of the first signature line. *)
Lemma find_signature_none k lines :
  forallb (fun l => negb (is_signature_line l)) lines = true ->
  find (fun il => contains SIGNATURE (snd il)) (enumerate_from k lines) = None.
Proof.
  revert k. induction lines as [|x lines IH]; intros k H; trivial.
  simpl in H. apply andb_true_iff in H as [Hx H]. simpl.
  unfold is_signature_line in Hx. destruct (contains SIGNATURE x); [discriminate|].
  now apply IH.
Qed.

Lemma find_signature_first k pre line post :
  forallb (fun l => negb (is_signature_line l)) pre = true ->
  is_signature_line line = true ->
  find (fun il => contains SIGNATURE (snd il))
       (enumerate_from k (pre ++ line :: post))
  = Some (k + length pre, line).
Proof.
  revert k. induction pre as [|x pre IH]; intros k H Hl; simpl.
  - unfold is_signature_line in Hl. rewrite Hl. now rewrite Nat.add_0_r.
  - simpl in H. apply andb_true_iff in H as [Hx H].
    unfold is_signature_line in Hx. destruct (contains SIGNATURE x); [discriminate|].
    rewrite IH by trivial. do 2 f_equal. lia.
Qed.

Lemma enumerate_from_app {A : Type} k (l1 l2 : list A) :
  enumerate_from k (l1 ++ l2)
  = enumerate_from k l1 ++ enumerate_from (k + length l1) l2.
Proof.
  revert k. induction l1 as [|x l1 IH]; intros k; simpl.
  - now rewrite Nat.add_0_r.
  - rewrite IH. do 3 f_equal. lia.
Qed.

(** Every list of lines splits at its first signature line, if it has one. *)
Lemma split_at_signature lines :
  forallb (fun l => negb (is_signature_line l)) lines = true \/
  exists pre line post,
    lines = pre ++ line :: post /\
    forallb (fun l => negb (is_signature_line l)) pre = true /\
    is_signature_line line = true.
Proof.
  induction lines as [|x lines IH]; [now left|].
  destruct (is_signature_line x) eqn:E.
  - right. now exists [], x, lines.
  - destruct IH as [H | (pre & line & post & -> & Hp & Hl)].
    + left. simpl. now rewrite E.
    + right. exists (x :: pre), line, post. simpl. now rewrite E.
Qed.

(** The offset returned for a text whose first signature line is at index
    [length pre]. *)
Lemma insert_position_with_signature pre line post :
  forallb (fun l => negb (is_signature_line l)) pre = true ->
  is_signature_line line = true ->
  let r := _find_construct_insert_position (pre ++ line :: post) in
  (r = (Z.of_nat (length pre) + 1)%Z /\
   forallb (fun l => negb (is_indented_line l)) (line :: post) = true) \/
  (exists j body,
     nth_error (line :: post) j = Some body /\
     is_indented_line body = true /\
     r = (Z.of_nat (length pre + j) + 1)%Z /\
     forallb (fun l => negb (is_indented_line l)) (skipn (S j) (line :: post))
     = true).
Proof.
  intros Hp Hl. unfold _find_construct_insert_position, enumerate.
  rewrite (find_signature_first 0 pre line post Hp Hl).
  rewrite enumerate_from_app, fold_left_app, scan_before_signature by trivial.
  rewrite Nat.add_0_l.
  cbn [fold_left enumerate_from].
  rewrite scan_step_signature by trivial.
  change (fold_left scan_step (enumerate_from (S (length pre)) post)
            (scan_step {| found_construct := true;
                          last_indented_line := (-1)%Z |} (length pre, line)))
    with (fold_left scan_step (enumerate_from (length pre) (line :: post))
            {| found_construct := true; last_indented_line := (-1)%Z |}).
  destruct (scan_after_signature (length pre) (line :: post) (-1)%Z)
    as [z' [-> Hz]].
  simpl last_indented_line.
  destruct Hz as [[-> Hall] | (j & body & Hn & Hi & -> & Hall)].
  - left. now split.
  - right. exists j, body.
    destruct (Z.eqb_spec (Z.of_nat (length pre + j)) (-1)) as [E|_]; [lia|].
    now repeat split.
Qed.

End Locator.

Section LocatorClaims.

Lemma forallb_nth_error {A : Type} (f : A -> bool) (l : list A) i x :
  forallb f l = true -> nth_error l i = Some x -> f x = true.
Proof.
  intros H Hn. rewrite forallb_forall in H. apply H.
  eapply nth_error_In; eauto.
Qed.

(** The first signature line is where the text splits. *)
Lemma first_signature_split lines s :
  first_signature_at lines s ->
  exists pre line post,
    lines = pre ++ line :: post /\ length pre = s /\
    forallb (fun l => negb (is_signature_line l)) pre = true /\
    is_signature_line line = true.
Proof.
  intros [[sig [Hs Hsig]] Hfirst].
  destruct (split_at_signature lines) as [H | (pre & line & post & -> & Hp & Hl)].
  - apply (forallb_nth_error _ _ _ _ H) in Hs. now rewrite Hsig in Hs.
  - exists pre, line, post. repeat split; trivial.
    destruct (Nat.lt_trichotomy (length pre) s) as [Hlt | [Heq | Hgt]]; trivial.
    + specialize (Hfirst (length pre) line Hlt).
      rewrite nth_error_app2, Nat.sub_diag in Hfirst by lia.
      specialize (Hfirst eq_refl). congruence.
    + rewrite nth_error_app1 in Hs by trivial.
      apply (forallb_nth_error _ _ _ _ Hp) in Hs. now rewrite Hsig in Hs.
Qed.

Lemma any_signature_first lines s sig :
  nth_error lines s = Some sig -> is_signature_line sig = true ->
  exists pre line post,
    lines = pre ++ line :: post /\ length pre <= s /\
    forallb (fun l => negb (is_signature_line l)) pre = true /\
    is_signature_line line = true.
Proof.
  intros Hs Hsig.
  destruct (split_at_signature lines) as [H | (pre & line & post & -> & Hp & Hl)].
  - apply (forallb_nth_error _ _ _ _ H) in Hs. now rewrite Hsig in Hs.
  - exists pre, line, post. repeat split; trivial.
    destruct (Nat.le_gt_cases (length pre) s) as [Hle | Hgt]; trivial.
    rewrite nth_error_app1 in Hs by trivial.
    apply (forallb_nth_error _ _ _ _ Hp) in Hs. now rewrite Hsig in Hs.
Qed.

(** The locator on the lines it takes for indented: when a line with the
    signature [def construct(self):] is followed by a non-blank line that
    begins with four spaces or a tab, the offset is greater than the index
    of every such line and at most the number of lines; when no line has
    the signature the offset is the one at the end of the text. *)
Lemma insert_position_after_body (lines : list str) :
  (forall s j sig body,
      nth_error lines s = Some sig -> is_signature_line sig = true ->
      s < j -> nth_error lines j = Some body ->
      is_indented_line body = true ->
      (Z.of_nat j < _find_construct_insert_position lines
       <= Z.of_nat (length lines))%Z) /\
  (forallb (fun l => negb (is_signature_line l)) lines = true ->
   _find_construct_insert_position lines = Z.of_nat (length lines)).
Proof.
  split.
  - intros s j sig body Hs Hsig Hlt Hj Hbody.
    destruct (any_signature_first lines s sig Hs Hsig)
      as (pre & line & post & -> & Hle & Hp & Hl).
    rewrite nth_error_app2 in Hj by lia.
    destruct (insert_position_with_signature pre line post Hp Hl)
      as [[_ Hall] | (jm & bm & Hn & Hi & -> & Hall)].
    + apply (forallb_nth_error _ _ _ _ Hall) in Hj. now rewrite Hbody in Hj.
    + assert (Hjm : jm < length (line :: post)).
      { apply nth_error_Some. congruence. }
      assert (j - length pre <= jm).
      { destruct (Nat.le_gt_cases (j - length pre) jm) as [|Hgt]; trivial.
        replace (j - length pre) with (S jm + (j - length pre - S jm)) in Hj
          by lia.
        rewrite <- nth_error_skipn in Hj.
        apply (forallb_nth_error _ _ _ _ Hall) in Hj.
        now rewrite Hbody in Hj. }
      rewrite length_app. simpl length in *. lia.
  - intros H. unfold _find_construct_insert_position, enumerate.
    rewrite scan_before_signature by trivial. simpl.
    now rewrite find_signature_none.
Qed.

(** C4, at a method whose body is indented by two columns: the locator
    does not take the body line for an indented one, returns the offset
    in front of it, and the round puts the new section between the
    signature and the body. *)
Theorem insert_position_before_narrow_body :
  let lines :=
    [lit "class S(Scene):"; lit " def construct(self):"; lit "  a = 1"] in
  let fragment := lit "# <<SECTION_BREAK>>
b = 2" in
  is_signature_line (lit " def construct(self):") = true /\
  is_body_line_of (lit " def construct(self):") (lit "  a = 1") = true /\
  _find_construct_insert_position lines = 2%Z /\
  split_char NL (ensure_section_addition (join [NL] lines) fragment [])
  = [lit "class S(Scene):"; lit " def construct(self):"; []; COMMENT_LINE;
     INDENT8 ++ NEXT_SECTION; []; lit "        b = 2"; lit "  a = 1"].
Proof. vm_compute. repeat split. Qed.

(** What the locator returns for a text whose first signature line has
    index [s]: the offset after the last non-blank line, at or after that
    signature line, that begins with four spaces or a tab, whatever the
    depth of the line; the offset after the signature line when there is
    no such line. *)
Lemma insert_position_after_last_indented (lines : list str) (s : nat) :
  first_signature_at lines s ->
  (exists j body,
      s <= j /\ nth_error lines j = Some body /\
      is_indented_line body = true /\
      (forall j' l, j < j' -> nth_error lines j' = Some l ->
                    is_indented_line l = false) /\
      _find_construct_insert_position lines = (Z.of_nat j + 1)%Z)
  \/
  ((forall j l, s <= j -> nth_error lines j = Some l ->
                is_indented_line l = false) /\
   _find_construct_insert_position lines = (Z.of_nat s + 1)%Z).
Proof.
  intros Hfirst.
  destruct (first_signature_split lines s Hfirst)
    as (pre & line & post & -> & <- & Hp & Hl).
  destruct (insert_position_with_signature pre line post Hp Hl)
    as [[Hr Hall] | (jm & bm & Hn & Hi & Hr & Hall)].
  - right. split; trivial. intros j l Hle Hj.
    rewrite nth_error_app2 in Hj by trivial.
    apply (forallb_nth_error _ _ _ _ Hall) in Hj.
    now destruct (is_indented_line l).
  - left. exists (length pre + jm), bm. repeat split; trivial; try lia.
    + rewrite nth_error_app2 by lia.
      now replace (length pre + jm - length pre) with jm by lia.
    + intros j' l Hlt Hj. rewrite nth_error_app2 in Hj by lia.
      replace (j' - length pre) with (S jm + (j' - length pre - S jm)) in Hj
        by lia.
      rewrite <- nth_error_skipn in Hj.
      apply (forallb_nth_error _ _ _ _ Hall) in Hj.
      now destruct (is_indented_line l).
Qed.

(** C5, at a class that has a line at the depth of the signature after
    the method: the last line indented as deep as the body has index 2,
    whatever the width of a level, and the specified offset is 3, or 2 for
    a level too wide for the body; the locator counts the class-level line
    too and returns 4, and the round puts the new section after that
    line, outside the method. *)
Theorem insert_position_after_class_level_line :
  let lines :=
    [lit "class S(Scene):"; lit "    def construct(self):";
     lit "        a = 1"; lit "    x = 5"] in
  let fragment := lit "# <<SECTION_BREAK>>
b = 2" in
  first_signature_at lines 1 /\
  (forall level,
      0 < level ->
      spec_insert_position level lines
      = Some (if (level <=? 4)%nat then 3%Z else 2%Z)) /\
  _find_construct_insert_position lines = 4%Z /\
  split_char NL (ensure_section_addition (join [NL] lines) fragment [])
  = [lit "class S(Scene):"; lit "    def construct(self):";
     lit "        a = 1"; lit "    x = 5"; []; COMMENT_LINE;
     INDENT8 ++ NEXT_SECTION; []; lit "        b = 2"].
Proof.
  cbv zeta. split; [|split; [|split]].
  - split.
    + exists (lit "    def construct(self):"). now split.
    + intros [|i] line Hi Hn; [|lia]. injection Hn as <-. reflexivity.
  - intros level Hlevel.
    destruct level as [|[|[|[|[|level]]]]]; [lia|..];
      vm_compute; reflexivity.
  - vm_compute. reflexivity.
  - vm_compute. reflexivity.
Qed.

End LocatorClaims.

(** ** The fence stripper *)

Section FenceStripper.

Lemma length_strip_le (s : str) : length (strip s) <= length s.
Proof.
  destruct (strip_infix s) as [w1 [w2 E]]. rewrite E at 2.
  rewrite !length_app. lia.
Qed.

Lemma length_join_cons (l : str) (ls : list str) :
  length (join [NL] (l :: ls)) <= length l + 1 + length (join [NL] ls).
Proof.
  simpl. destruct ls; [lia|]. rewrite !length_app. simpl. lia.
Qed.

(** Joining the lines of a text gives back no more than the text. *)
Lemma length_join_splitlines (s : str) :
  length (join [NL] (splitlines s)) <= length s.
Proof.
  remember (length s) as n eqn:En.
  assert (Hn : length s <= n) by lia. clear En. revert s Hn.
  induction n as [|n IH]; intros s Hn.
  - destruct s; [simpl; lia | simpl in Hn; lia].
  - destruct s as [|c s']; [simpl; lia|].
    simpl in Hn. cbn [splitlines].
    destruct (is_linebreak c).
    + destruct s' as [|d s'']; [simpl; lia|].
      destruct ((c =? CR)%N && (d =? NL)%N).
      * pose proof (length_join_cons [] (splitlines s'')) as H1.
        pose proof (IH s'') as H2. simpl in *. lia.
      * pose proof (length_join_cons [] (splitlines (d :: s''))) as H1.
        pose proof (IH (d :: s'')) as H2. simpl in *. lia.
    + pose proof (IH s') as H2.
      destruct (splitlines s') as [|l ls]; [simpl; lia|].
      cbn [join] in *. destruct ls; simpl in *; [lia|].
      rewrite length_app in *. simpl in *. lia.
Qed.

Lemma length_join_removelast (ls : list str) :
  length (join [NL] (removelast ls)) <= length (join [NL] ls).
Proof.
  induction ls as [|l ls IH]; trivial.
  destruct ls as [|l' ls]; [simpl; lia|].
  change (removelast (l :: l' :: ls)) with (l :: removelast (l' :: ls)).
  pose proof (length_join_cons l (removelast (l' :: ls))).
  cbn [join]. rewrite !length_app. cbn [join] in *. simpl length in *. lia.
Qed.

(** The first line of a text that begins with a fence is not empty. *)
Lemma splitlines_fenced (s : str) :
  startswith s FENCE = true ->
  exists c l ls, splitlines s = (c :: l) :: ls.
Proof.
  intros H. apply startswith_iff in H as [r ->].
  change (FENCE ++ r) with (96%N :: (tl FENCE ++ r)).
  cbn [splitlines]. change (is_linebreak 96%N) with false. cbv iota.
  destruct (splitlines (tl FENCE ++ r)) as [|l ls]; eauto.
Qed.

(** On a fenced text the stripper returns a strictly shorter text. *)
Lemma strip_code_fences_shorter (code : str) :
  opens_with_fence code = true ->
  length (_strip_code_fences code) < length code.
Proof.
  unfold opens_with_fence, _strip_code_fences. intros H. rewrite H.
  pose proof (length_strip_le code) as H1.
  pose proof (length_join_splitlines (strip code)) as H2.
  destruct (splitlines_fenced _ H) as (c & l & ls & E). rewrite E in *.
  cbn [truthy skipn].
  assert (H3 : length (join [NL] ls) < length (join [NL] ((c :: l) :: ls))).
  { cbn [join]. destruct ls; simpl; [lia|]. rewrite !length_app. simpl. lia. }
  match goal with |- context [if ?b then _ else _] => destruct b end.
  - pose proof (length_join_removelast ls). lia.
  - lia.
Qed.

(** C8 as the specification words it fails: a fence inside the fenced
    block is stripped by the second application. *)
Lemma strip_code_fences_not_idempotent :
  ~ (forall code,
        _strip_code_fences (_strip_code_fences code) = _strip_code_fences code).
Proof.
  intros H.
  specialize (H (lit "```
```
```")).
  vm_compute in H. discriminate H.
Qed.

(** C8, amended: a text whose first non-blank line is not a fence opener
    is returned unchanged; and applying the stripper twice gives the result
    of applying it once exactly when that result does not itself open with
    a fence. *)
Theorem strip_code_fences_unfenced (code : str) :
  (opens_with_fence code = false -> _strip_code_fences code = code) /\
  (_strip_code_fences (_strip_code_fences code) = _strip_code_fences code
   <-> opens_with_fence (_strip_code_fences code) = false).
Proof.
  assert (Hu : forall c, opens_with_fence c = false -> _strip_code_fences c = c).
  { intros c Hc. unfold _strip_code_fences.
    unfold opens_with_fence in Hc. now rewrite Hc. }
  split; [apply Hu|]. split; [|apply Hu].
  intros Heq. destruct (opens_with_fence (_strip_code_fences code)) eqn:E; trivial.
  apply strip_code_fences_shorter in E. rewrite Heq in E. lia.
Qed.

(** C8 amended, at a text without a fence. *)
Lemma strip_code_fences_unfenced_witness :
  _strip_code_fences (lit "x = 1") = lit "x = 1".
Proof.
  exact (proj1 (strip_code_fences_unfenced (lit "x = 1")) eq_refl).
Defined.

End FenceStripper.

(** ** The indentation normalizer *)

Section Dedent.

Lemma fold_min_le (l : list nat) (a : nat) :
  fold_left Nat.min l a <= a /\
  forall x, In x l -> fold_left Nat.min l a <= x.
Proof.
  revert a. induction l as [|z l IH]; intros a; simpl.
  - split; [lia | intros x []].
  - destruct (IH (Nat.min a z)) as [H1 H2]. split; [lia|].
    intros x [->|Hx]; [lia | now apply H2].
Qed.

Lemma fold_min_in (l : list nat) (a : nat) :
  fold_left Nat.min l a = a \/ In (fold_left Nat.min l a) l.
Proof.
  revert a. induction l as [|z l IH]; intros a; simpl; [now left|].
  destruct (IH (Nat.min a z)) as [H|H]; [|now right; right].
  rewrite H. destruct (Nat.min_spec a z) as [[_ E]|[_ E]]; rewrite E; auto.
Qed.

Lemma min_of_le (l : list nat) (x : nat) : In x l -> min_of l <= x.
Proof.
  destruct l as [|y l]; [intros []|]. simpl.
  destruct (fold_min_le l y) as [H1 H2].
  intros [->|H]; [trivial | now apply H2].
Qed.

Lemma min_of_in (l : list nat) : l <> [] -> In (min_of l) l.
Proof.
  destruct l as [|y l]; [contradiction|]. intros _. simpl.
  destruct (fold_min_in l y) as [H|H]; auto.
Qed.

Lemma filter_idem {A : Type} (f : A -> bool) (l : list A) :
  filter f (filter f l) = filter f l.
Proof.
  induction l as [|x l IH]; trivial. simpl.
  destruct (f x) eqn:E; trivial. simpl. now rewrite E, IH.
Qed.

Lemma nonblank_lstrip (line : str) :
  nonblank line = true -> lstrip line <> [].
Proof.
  unfold nonblank, strip, rstrip. intros H E. rewrite E in H. discriminate H.
Qed.

Lemma length_lstrip_le (line : str) : length (lstrip line) <= length line.
Proof.
  destruct (lstrip_suffix line) as [w [E _]]. rewrite E at 2.
  rewrite length_app. lia.
Qed.

(** A non-blank line is longer than its indentation. *)
Lemma indent_width_lt (line : str) :
  nonblank line = true -> indent_width line < length line.
Proof.
  intros H. apply nonblank_lstrip in H. unfold indent_width.
  pose proof (length_lstrip_le line).
  destruct (lstrip line); [contradiction|]. simpl in *. lia.
Qed.

Lemma forallb_firstn {A : Type} (f : A -> bool) (n : nat) (l : list A) :
  forallb f l = true -> forallb f (firstn n l) = true.
Proof.
  revert n. induction l as [|x l IH]; intros [|n]; simpl; trivial.
  rewrite !andb_true_iff. intros [Hx Hl]. auto.
Qed.

(** Up to its indentation a line is whitespace. *)
Lemma indent_prefix_space (line : str) (m : nat) :
  m <= indent_width line -> forallb isspace (firstn m line) = true.
Proof.
  intros H. destruct (indent_split line) as [_ Hw].
  fold (indent_width line) in Hw.
  rewrite <- (Nat.min_l _ _ H), <- firstn_firstn.
  now apply forallb_firstn.
Qed.

(** C7 as the specification words it fails: the blank lines of the
    fragment are not kept in place. *)
Lemma remove_common_indent_drops_blank_lines :
  ~ (forall code,
        existsb nonblank (splitlines code) = true ->
        splitlines (_remove_common_indent code) = spec_dedent_lines code).
Proof.
  intros H.
  specialize (H (lit "a

b") eq_refl).
  vm_compute in H. discriminate H.
Qed.

(** C7, amended: for a fragment with a non-blank line, [m] the least
    width of leading whitespace over the non-blank lines, the dedent step
    drops the blank lines, removes from every other line its first [m]
    characters, all of them whitespace, joins the lines with newlines and
    trims the result at both ends. *)
Theorem remove_common_indent_dedents (code : str) :
  let lines := filter nonblank (splitlines code) in
  let m := min_of (map indent_width lines) in
  existsb nonblank (splitlines code) = true ->
  (forall line, In line lines -> m <= indent_width line) /\
  (exists line, In line lines /\ indent_width line = m) /\
  (forall line, In line lines ->
                line = firstn m line ++ skipn m line /\
                forallb isspace (firstn m line) = true) /\
  _remove_common_indent code = strip (join [NL] (map (skipn m) lines)).
Proof.
  intros lines m Hex.
  assert (Hne : lines <> []).
  { apply existsb_exists in Hex as [l [Hl Hb]]. intros E.
    assert (Hin : In l lines) by (apply filter_In; now split).
    rewrite E in Hin. destruct Hin. }
  assert (Hle : forall line, In line lines -> m <= indent_width line).
  { intros line Hl. apply min_of_le. now apply in_map. }
  repeat split.
  - exact Hle.
  - assert (Hm : In m (map indent_width lines)).
    { apply min_of_in. destruct lines; [contradiction | discriminate]. }
    apply in_map_iff in Hm as [line [E Hl]]. now exists line.
  - symmetry. apply firstn_skipn.
  - apply indent_prefix_space. now apply Hle.
  - change (_remove_common_indent code) with
      (if negb (truthy lines) then []
       else strip (join [NL]
              (map (fun line =>
                      if min_of (map indent_width (filter nonblank lines))
                         <? length line
                      then skipn (min_of (map indent_width
                                            (filter nonblank lines))) line
                      else line) lines))).
    replace (filter nonblank lines) with lines
      by (unfold lines; now rewrite filter_idem).
    fold m.
    destruct (truthy lines) eqn:Et;
      [|destruct lines; [contradiction | discriminate]].
    cbn [negb]. f_equal. f_equal.
    apply map_ext_in. intros line Hl.
    assert (Hlt : m < length line).
    { apply Nat.le_lt_trans with (indent_width line); [now apply Hle|].
      apply indent_width_lt. unfold lines in Hl.
      now apply filter_In in Hl. }
    apply Nat.ltb_lt in Hlt. now rewrite Hlt.
Qed.

(** C7 amended, at a fragment of two lines around a blank one. *)
Lemma remove_common_indent_dedents_witness :
  _remove_common_indent (lit "  a

    b")
  = strip (join [NL] (map (skipn 2) [lit "  a"; lit "    b"])).
Proof.
  exact (proj2 (proj2 (proj2
           (remove_common_indent_dedents (lit "  a

    b") eq_refl)))).
Defined.

End Dedent.

(** ** The script assembler: what is spliced in *)

Section Splice.

Lemma skipn_length_app {A : Type} (l r : list A) : skipn (length l) (l ++ r) = r.
Proof. induction l; simpl; trivial. Qed.

(** [partition_first] cuts at the first occurrence. *)
Lemma partition_first_some (sep s a b : str) :
  partition_first sep s = Some (a, b) ->
  s = a ++ sep ++ b /\
  forall a' b', s = a' ++ sep ++ b' -> length a <= length a'.
Proof.
  revert a b. induction s as [|c s IH]; intros a b.
  - simpl. destruct (startswith [] sep) eqn:E; [|discriminate].
    intros H. injection H as <- <-.
    apply startswith_iff in E as [r E].
    destruct sep; [|discriminate]. simpl. split; [trivial | intros; lia].
  - cbn [partition_first]. destruct (startswith (c :: s) sep) eqn:E.
    + intros H. injection H as <- <-.
      apply startswith_iff in E as [r E]. rewrite E.
      rewrite skipn_length_app. split; [trivial | intros; simpl; lia].
    + destruct (partition_first sep s) as [[a0 b0]|]; [|discriminate].
      intros H. injection H as <- <-.
      destruct (IH a0 b0 eq_refl) as [-> Hfirst]. split; trivial.
      intros [|x a'] b' H.
      * simpl in H. rewrite H, startswith_app in E. discriminate E.
      * injection H as _ H. simpl. apply le_n_S. eapply Hfirst; eauto.
Qed.

Lemma partition_first_contains (sep s : str) :
  contains sep s = true ->
  exists a b, partition_first sep s = Some (a, b).
Proof.
  induction s as [|c s IH].
  - simpl. rewrite orb_false_r. intros ->. eauto.
  - cbn [contains partition_first]. destruct (startswith (c :: s) sep); eauto.
    simpl. intros H. destruct (IH H) as [a [b ->]]. eauto.
Qed.

(** With a marker in the response the new content is the dedented text
    after the first marker. *)
Lemma new_content_marker (cleaned : str) :
  contains SECTION_MARKER cleaned = true ->
  new_content cleaned = _remove_common_indent (raw_new_content cleaned).
Proof.
  intros H. unfold new_content, raw_new_content, split_once. rewrite H.
  now destruct (partition_first_contains _ _ H) as [a [b ->]].
Qed.

Lemma new_content_no_marker (cleaned : str) :
  contains SECTION_MARKER cleaned = false -> new_content cleaned = cleaned.
Proof. intros H. unfold new_content. now rewrite H. Qed.

(** The loop over the generated lines appends one line for each. *)
Lemma append_generated_map (header : list str) (cleaned : str) :
  append_generated header cleaned
  = header ++ map reindent (content_lines_of cleaned).
Proof.
  unfold append_generated, content_lines_of.
  generalize (if truthy cleaned then split_char NL cleaned else []).
  intros l. revert header. induction l as [|x l IH]; intros header.
  - simpl. now rewrite app_nil_r.
  - cbn [fold_left map]. rewrite IH.
    change (reindent x)
      with (if truthy (strip x)
            then if startswith x INDENT8 then x else INDENT8 ++ x
            else []).
    destruct (truthy (strip x)), (startswith x INDENT8);
      now rewrite <- app_assoc.
Qed.

Lemma spliced_lines_eq (existing_code cleaned : str) :
  spliced_lines existing_code cleaned
  = splice existing_code
      (map reindent (content_lines_of (new_content cleaned))).
Proof.
  unfold spliced_lines, splice. cbv zeta. now rewrite append_generated_map.
Qed.

(** What a continuation round splices: after the four opening lines of
    the section, the lines of the new content, each non-blank line
    prefixed by eight spaces unless it already begins with eight spaces,
    and each blank line emptied; the new content is the text after the
    first marker with its common indentation removed when the response
    has the marker, and the trimmed response as it is otherwise. *)
Lemma spliced_content_reindented (existing_code ai_response prompt : str) :
  let cleaned := strip (_strip_code_fences ai_response) in
  let content := map reindent (content_lines_of (new_content cleaned)) in
  truthy (strip existing_code) = true ->
  ensure_section_addition existing_code ai_response prompt
  = _replace_section_marker (join [NL] (splice existing_code content)) /\
  spliced_lines existing_code cleaned = splice existing_code content /\
  (contains SECTION_MARKER cleaned = true ->
   exists before after,
     cleaned = before ++ SECTION_MARKER ++ after /\
     (forall before' after',
         cleaned = before' ++ SECTION_MARKER ++ after' ->
         length before <= length before') /\
     new_content cleaned = _remove_common_indent after) /\
  (contains SECTION_MARKER cleaned = false -> new_content cleaned = cleaned) /\
  Forall (fun line => line = [] \/ startswith line INDENT8 = true) content.
Proof.
  intros cleaned content Hprev. repeat split.
  - unfold ensure_section_addition. fold cleaned. rewrite Hprev. cbn [negb].
    now rewrite spliced_lines_eq.
  - apply spliced_lines_eq.
  - intros Hm. destruct (partition_first_contains _ _ Hm) as [a [b E]].
    exists a, b. destruct (partition_first_some _ _ _ _ E) as [H1 H2].
    repeat split; trivial.
    rewrite new_content_marker by trivial. unfold raw_new_content.
    now rewrite E.
  - apply new_content_no_marker.
  - apply Forall_forall. intros line Hl. unfold content in Hl.
    apply in_map_iff in Hl as [x [<- _]]. unfold reindent.
    destruct (nonblank x); [|now left]. right.
    destruct (startswith x INDENT8) eqn:E; [exact E | apply startswith_app].
Qed.

(** C6, at a fragment nested two levels deep: dedented and prefixed as
    specified, its innermost line stands sixteen columns deep, under the
    [if]; the round keeps that line as it came, because it begins with
    eight spaces already, and splices it eight columns deep, out of the
    [if] and of the loop. *)
Theorem nested_fragment_is_flattened :
  let previous := lit "class S(Scene):
    def construct(self):
        a = 1
" in
  let fragment := lit "# <<SECTION_BREAK>>
for i in r:
    if i:
        self.wait()" in
  truthy (strip previous) = true /\
  spec_normalized_lines
    (raw_new_content (strip (_strip_code_fences fragment)))
  = [lit "        for i in r:"; lit "            if i:";
     lit "                self.wait()"] /\
  split_char NL (ensure_section_addition previous fragment [])
  = [lit "class S(Scene):"; lit "    def construct(self):";
     lit "        a = 1"; []; COMMENT_LINE; INDENT8 ++ NEXT_SECTION; [];
     lit "        for i in r:"; lit "            if i:";
     lit "        self.wait()"; []].
Proof. vm_compute. repeat split. Qed.

End Splice.

(** ** Sorting by a string key *)

Section SortedBy.

Lemma str_le_total (a b : str) : str_le a b = false -> str_le b a = true.
Proof.
  revert b. induction a as [|x a IH]; intros [|y b]; simpl; trivial;
    try discriminate.
  destruct (N.ltb_spec x y); [discriminate|].
  destruct (N.eqb_spec x y) as [->|Hne].
  - rewrite N.ltb_irrefl, N.eqb_refl. apply IH.
  - intros _. destruct (N.ltb_spec y x); [trivial | lia].
Qed.

Lemma str_le_trans (a b c : str) :
  str_le a b = true -> str_le b c = true -> str_le a c = true.
Proof.
  revert b c. induction a as [|x a IH]; intros [|y b] [|z c]; simpl; trivial;
    try discriminate.
  destruct (N.ltb_spec x y) as [Hxy|Hxy].
  - intros _. destruct (N.ltb_spec y z) as [Hyz|Hyz].
    + intros _. destruct (N.ltb_spec x z); [trivial | lia].
    + destruct (N.eqb_spec y z) as [->|]; [|discriminate].
      intros _. destruct (N.ltb_spec x z); [trivial | lia].
  - destruct (N.eqb_spec x y) as [->|]; [|discriminate].
    intros Hab. destruct (N.ltb_spec y z); trivial.
    destruct (N.eqb_spec y z); [|discriminate]. now apply IH.
Qed.

Lemma str_le_refl (a : str) : str_le a a = true.
Proof.
  induction a as [|x a IH]; trivial. simpl.
  now rewrite N.ltb_irrefl, N.eqb_refl.
Qed.

Context {A : Type} (key : A -> str).

Local Abbreviation key_le := (fun x y : A => str_le (key x) (key y) = true).

Lemma insert_by_perm (x : A) (l : list A) :
  Permutation (insert_by key x l) (x :: l).
Proof.
  induction l as [|y l IH]; simpl; trivial.
  destruct (str_le (key x) (key y)); trivial.
  rewrite IH. apply perm_swap.
Qed.

Lemma sorted_by_perm (l : list A) : Permutation (sorted_by key l) l.
Proof.
  induction l as [|x l IH]; simpl; trivial.
  rewrite insert_by_perm. now constructor.
Qed.

Lemma sorted_by_length (l : list A) : length (sorted_by key l) = length l.
Proof. apply Permutation_length, sorted_by_perm. Qed.

Lemma insert_by_sorted (x : A) (l : list A) :
  Sorted key_le l -> Sorted key_le (insert_by key x l).
Proof.
  induction l as [|y l IH]; intros Hs; simpl.
  - repeat constructor.
  - destruct (str_le (key x) (key y)) eqn:E.
    + constructor; trivial. now constructor.
    + apply Sorted_inv in Hs as [Hs Hhd]. constructor; [now apply IH|].
      destruct l as [|z l]; simpl.
      * constructor. now apply str_le_total.
      * destruct (str_le (key x) (key z)); constructor.
        -- now apply str_le_total.
        -- now apply HdRel_inv in Hhd.
Qed.

Lemma sorted_by_sorted (l : list A) : Sorted key_le (sorted_by key l).
Proof.
  induction l as [|x l IH]; simpl; [constructor|].
  now apply insert_by_sorted.
Qed.

(** In the sorted list every item is no greater than the items after it. *)
Lemma sorted_by_strongly_sorted (l : list A) :
  StronglySorted key_le (sorted_by key l).
Proof.
  apply Sorted_StronglySorted; [|apply sorted_by_sorted].
  intros x y z. apply str_le_trans.
Qed.

End SortedBy.

(** ** The segment resolver *)

Section Resolver.

Lemma nth_error_length_last {A : Type} (x : A) (l : list A) (d : A) :
  nth_error (x :: l) (length l) = Some (last (x :: l) d).
Proof.
  revert x. induction l as [|y l IH]; intros x; trivial. apply (IH y).
Qed.

Lemma getitem_last {A : Type} (l : list A) (d : A) :
  l <> [] -> getitem l (-1)%Z = Some (last l d).
Proof.
  intros Hne. destruct l as [|x l]; [contradiction|].
  unfold getitem. change (-1 <? 0)%Z with true. cbv iota.
  destruct (Z.ltb_spec (-1 + Z.of_nat (length (x :: l))) 0) as [H|_].
  - simpl length in H. lia.
  - replace (Z.to_nat (-1 + Z.of_nat (length (x :: l)))) with (length l)
      by (simpl length; lia).
    apply nth_error_length_last.
Qed.

Lemma getitem_nonneg {A : Type} (l : list A) (i : Z) :
  (0 <= i)%Z -> getitem l i = nth_error l (Z.to_nat i).
Proof.
  intros H. unfold getitem. destruct (Z.ltb_spec i 0); [lia | trivial].
Qed.

(** C3: for round 0 the recorded file is the whole-program output, whatever
    the segments; for a round [index >= 1], with the segments ordered by
    file name, it is the segment at position [index] when
    [index < count], the last segment when [index >= count > 0], and none
    (the empty string) when [count = 0]. *)
Theorem segment_resolution
        (segment_index : Z) (video_path : Path) (section_videos : list Path) :
  let sorted_videos := sorted_by name section_videos in
  let count := Z.of_nat (length section_videos) in
  let resolved :=
    _on_finished_section_video_path segment_index video_path section_videos in
  (StronglySorted name_le sorted_videos /\
   Permutation sorted_videos section_videos) /\
  (segment_index = 0%Z -> resolved = Some (path_str video_path)) /\
  ((1 <= segment_index < count)%Z ->
   exists p, nth_error sorted_videos (Z.to_nat segment_index) = Some p /\
             resolved = Some (path_str p)) /\
  ((1 <= segment_index)%Z -> (count <= segment_index)%Z -> (0 < count)%Z ->
   resolved = Some (path_str (last sorted_videos []))) /\
  ((1 <= segment_index)%Z -> count = 0%Z -> resolved = Some []).
Proof.
  intros sorted_videos count resolved.
  split; [split; [apply sorted_by_strongly_sorted | apply sorted_by_perm]|].
  assert (Hlen : Z.of_nat (length sorted_videos) = count).
  { unfold sorted_videos, count. now rewrite sorted_by_length. }
  unfold resolved, _on_finished_section_video_path. fold sorted_videos.
  rewrite Hlen. repeat split.
  - now intros ->.
  - intros [H1 H2]. destruct (Z.eqb_spec segment_index 0); [lia|].
    destruct section_videos as [|p0 ps] eqn:E; [simpl in count; lia|].
    cbn [truthy]. destruct (Z.ltb_spec segment_index count); [|lia].
    rewrite getitem_nonneg by lia.
    destruct (nth_error sorted_videos (Z.to_nat segment_index)) as [p|] eqn:En.
    + now exists p.
    + apply nth_error_None in En. lia.
  - intros H1 H2 H3. destruct (Z.eqb_spec segment_index 0); [lia|].
    destruct section_videos as [|p0 ps] eqn:E; [simpl in count; lia|].
    cbn [truthy]. destruct (Z.ltb_spec segment_index count); [lia|].
    rewrite (getitem_last sorted_videos []); trivial.
    intros E0. rewrite E0 in Hlen. simpl in Hlen. lia.
  - intros H1 H2. destruct (Z.eqb_spec segment_index 0); [lia|].
    destruct section_videos as [|p0 ps]; [trivial|].
    unfold count in H2. simpl length in H2. lia.
Qed.

(** C3, at the examples of the specification: with two segments round 1
    plays the second one and round 5 the last one. *)
Lemma segment_resolution_witness :
  _on_finished_section_video_path 1 [lit "out"; lit "render.mp4"]
    [[lit "sections"; lit "s1.mp4"]; [lit "sections"; lit "s0.mp4"]]
  = Some (lit "sections/s1.mp4") /\
  _on_finished_section_video_path 5 [lit "out"; lit "render.mp4"]
    [[lit "sections"; lit "s1.mp4"]; [lit "sections"; lit "s0.mp4"]]
  = Some (lit "sections/s1.mp4").
Proof.
  split.
  - destruct (proj1 (proj2 (proj2 (segment_resolution 1
               [lit "out"; lit "render.mp4"]
               [[lit "sections"; lit "s1.mp4"]; [lit "sections"; lit "s0.mp4"]])))
               (conj (Z.le_refl 1) eq_refl)) as [p [Hp Hr]].
    injection Hp as <-. exact Hr.
  - refine (proj1 (proj2 (proj2 (proj2 (segment_resolution 5
               [lit "out"; lit "render.mp4"]
               [[lit "sections"; lit "s1.mp4"]; [lit "sections"; lit "s0.mp4"]]))))
               _ _ eq_refl); discriminate.
Defined.

End Resolver.

(** ** The discovery of the section videos *)

Section SectionVideos.

Lemma glob_sections_name (job_dir : node) (q : Path) :
  In q (glob_sections job_dir) -> name q = lit "sections".
Proof.
  unfold glob_sections. destruct (child job_dir (lit "videos")); [|intros []].
  intros H. apply in_flat_map in H as [e1 [_ H]].
  apply in_flat_map in H as [e2 [_ H]].
  destruct (child (snd e2) (lit "sections")); [|destruct H].
  destruct H as [<-|[]]. reflexivity.
Qed.

(** A path that is no directory has no [*.mp4] entries. *)
Lemma glob_mp4_no_dir (job_dir : node) (d : Path) :
  no_sections_dir job_dir -> name d = lit "sections" ->
  glob_mp4 job_dir d = [].
Proof.
  intros Hno Hd. unfold glob_mp4.
  destruct (lookup job_dir d) as [[|es]|] eqn:E; trivial.
  now destruct (Hno d es Hd).
Qed.

Lemma find_first_existing {A : Type} (f : A -> bool)
      (skipped : list A) (d : A) (rest : list A) :
  forallb (fun q => negb (f q)) skipped = true -> f d = true ->
  find f (skipped ++ d :: rest) = Some d.
Proof.
  intros Hs Hd. induction skipped as [|q skipped IH]; cbn [app find].
  - now rewrite Hd.
  - cbn [forallb] in Hs. apply andb_true_iff in Hs as [Hq Hs].
    apply negb_true_iff in Hq. rewrite Hq. now apply IH.
Qed.

Lemma find_none_existing {A : Type} (f : A -> bool) (l : list A) :
  forallb (fun q => negb (f q)) l = true -> find f l = None.
Proof.
  induction l as [|q l IH]; trivial. cbn [forallb find]. intros H.
  apply andb_true_iff in H as [Hq H]. apply negb_true_iff in Hq.
  rewrite Hq. now apply IH.
Qed.

(** C10: the files returned by the discovery are in ascending order of
    their names, and they are the [*.mp4] entries, all of them and each as
    often as it is listed, of the sections directory: the default one when
    it exists, else the first existing one that the pattern
    [videos/*/*/sections] finds; the result is the empty list when neither
    exists, and so when no directory named [sections] exists under the job
    directory. *)
Theorem section_videos_sorted (job_dir : node) (class_name : str) :
  let videos := find_section_videos job_dir class_name in
  let default :=
    [lit "videos"; lit "scene"; lit "1080p30"; lit "sections"] in
  StronglySorted name_le videos /\
  (path_exists job_dir default = true ->
   Permutation videos (glob_mp4 job_dir default)) /\
  (path_exists job_dir default = false ->
   forall skipped d rest,
     glob_sections job_dir = skipped ++ d :: rest ->
     forallb (fun q => negb (path_exists job_dir q)) skipped = true ->
     path_exists job_dir d = true ->
     Permutation videos (glob_mp4 job_dir d)) /\
  (path_exists job_dir default = false ->
   forallb (fun q => negb (path_exists job_dir q)) (glob_sections job_dir)
   = true ->
   videos = []) /\
  (no_sections_dir job_dir -> videos = []).
Proof.
  cbv zeta. unfold find_section_videos.
  set (default := [lit "videos"; lit "scene"; lit "1080p30"; lit "sections"]).
  destruct (path_exists job_dir default) eqn:Ed; cbn [negb].
  - rewrite Ed. cbn [negb]. split; [apply sorted_by_strongly_sorted|].
    split; [intros _; apply sorted_by_perm|].
    split; [discriminate|]. split; [discriminate|].
    intros Hno. now rewrite (glob_mp4_no_dir job_dir default Hno).
  - split; [|split; [discriminate|split; [|split]]].
    + destruct (find _ (glob_sections job_dir)) as [q|] eqn:Ef.
      * apply find_some in Ef as [_ Hq]. rewrite Hq. cbn [negb].
        apply sorted_by_strongly_sorted.
      * rewrite Ed. cbn [negb]. constructor.
    + intros _ skipped d rest Hg Hs Hd.
      assert (Ef : find (fun quality_dir => path_exists job_dir quality_dir)
                        (glob_sections job_dir) = Some d).
      { rewrite Hg.
        exact (find_first_existing (fun q => path_exists job_dir q)
                 skipped d rest Hs Hd). }
      rewrite Ef, Hd. cbn [negb]. apply sorted_by_perm.
    + intros _ Hall.
      assert (Ef : find (fun quality_dir => path_exists job_dir quality_dir)
                        (glob_sections job_dir) = None).
      { exact (find_none_existing (fun q => path_exists job_dir q) _ Hall). }
      rewrite Ef, Ed. reflexivity.
    + intros Hno.
      destruct (find _ (glob_sections job_dir)) as [q|] eqn:Ef.
      * apply find_some in Ef as [Hin Hq]. rewrite Hq. cbn [negb].
        apply glob_sections_name in Hin.
        now rewrite (glob_mp4_no_dir job_dir q Hno Hin).
      * now rewrite Ed.
Qed.

(** C10, at a job directory whose default sections directory lists two
    videos, the later name first, and a file of another kind. *)
Lemma section_videos_sorted_witness :
  Permutation
    (find_section_videos
       (Dir [(lit "videos",
              Dir [(lit "scene",
                    Dir [(lit "1080p30",
                          Dir [(lit "sections",
                                Dir [(lit "b.mp4", File);
                                     (lit "notes.txt", File);
                                     (lit "a.mp4", File)])])])])])
       (lit "S"))
    [[lit "videos"; lit "scene"; lit "1080p30"; lit "sections"; lit "b.mp4"];
     [lit "videos"; lit "scene"; lit "1080p30"; lit "sections"; lit "a.mp4"]].
Proof.
  exact (proj1 (proj2 (section_videos_sorted
           (Dir [(lit "videos",
                  Dir [(lit "scene",
                        Dir [(lit "1080p30",
                              Dir [(lit "sections",
                                    Dir [(lit "b.mp4", File);
                                         (lit "notes.txt", File);
                                         (lit "a.mp4", File)])])])])])
           (lit "S"))) eq_refl).
Defined.

End SectionVideos.

(** ** The extraction of the scene class *)

Section SceneClass.

Variable isalnum : char -> bool.

Lemma greedy_sound {R : Type} (cls : char -> bool) (k : str -> str -> option R)
      (taken s : str) (r : R) :
  greedy cls k taken s = Some r ->
  exists w rest,
    s = w ++ rest /\ forallb cls w = true /\ k (taken ++ w) rest = Some r.
Proof.
  revert taken. induction s as [|c s IH]; intros taken; simpl.
  - intros H. exists [], []. now rewrite (app_nil_r taken).
  - destruct (cls c) eqn:Ec.
    + destruct (greedy cls k (taken ++ [c]) s) as [r'|] eqn:Eg.
      * intros H. injection H as ->.
        destruct (IH _ Eg) as (w & rest & -> & Hw & Hk).
        exists (c :: w), rest. simpl. rewrite Ec, Hw.
        rewrite <- app_assoc in Hk. now repeat split.
      * intros H. exists [], (c :: s). now rewrite (app_nil_r taken).
    + intros H. exists [], (c :: s). now rewrite (app_nil_r taken).
Qed.

Lemma greedy_fallback {R : Type} (cls : char -> bool)
      (k : str -> str -> option R) (taken s : str) (r : R) :
  k taken s = Some r -> exists r', greedy cls k taken s = Some r'.
Proof.
  intros H. destruct s as [|c s]; simpl; eauto.
  destruct (cls c); eauto.
  destruct (greedy cls k (taken ++ [c]) s); eauto.
Qed.

Lemma greedy_complete {R : Type} (cls : char -> bool)
      (k : str -> str -> option R) (taken w rest : str) (r : R) :
  forallb cls w = true -> k (taken ++ w) rest = Some r ->
  exists r', greedy cls k taken (w ++ rest) = Some r'.
Proof.
  revert taken. induction w as [|c w IH]; intros taken Hw Hk.
  - rewrite app_nil_r in Hk. simpl. eapply greedy_fallback; eauto.
  - simpl in Hw. apply andb_true_iff in Hw as [Hc Hw].
    simpl. rewrite Hc.
    destruct (IH (taken ++ [c]) Hw) as [r' ->]; eauto.
    now rewrite <- app_assoc.
Qed.

Lemma greedy1_sound {R : Type} (cls : char -> bool)
      (k : str -> str -> option R) (s : str) (r : R) :
  greedy1 cls k s = Some r ->
  exists w rest,
    s = w ++ rest /\ w <> [] /\ forallb cls w = true /\ k w rest = Some r.
Proof.
  unfold greedy1. destruct s as [|c s]; [discriminate|].
  destruct (cls c) eqn:Ec; [|discriminate].
  intros H. destruct (greedy_sound _ _ _ _ _ H) as (w & rest & -> & Hw & Hk).
  exists (c :: w), rest. simpl. rewrite Ec, Hw.
  repeat split; trivial. discriminate.
Qed.

Lemma greedy1_complete {R : Type} (cls : char -> bool)
      (k : str -> str -> option R) (w rest : str) (r : R) :
  w <> [] -> forallb cls w = true -> k w rest = Some r ->
  exists r', greedy1 cls k (w ++ rest) = Some r'.
Proof.
  intros Hne Hw Hk. destruct w as [|c w]; [contradiction|].
  simpl in Hw. apply andb_true_iff in Hw as [Hc Hw].
  simpl. rewrite Hc. eapply greedy_complete; eauto.
Qed.

Lemma literal_iff {R : Type} (p : str) (k : str -> option R) (s : str) (r : R) :
  literal p k s = Some r <-> exists rest, s = p ++ rest /\ k rest = Some r.
Proof.
  unfold literal. split.
  - destruct (startswith s p) eqn:E; [|discriminate].
    apply startswith_iff in E as [rest ->]. rewrite skipn_length_app. eauto.
  - intros [rest [-> H]]. now rewrite startswith_app, skipn_length_app.
Qed.

(** The match at the head of a text finds a declaration there. *)
Lemma scene_class_match_sound (s nm : str) :
  scene_class_match isalnum s = Some nm -> declares_at isalnum s nm.
Proof.
  unfold scene_class_match, re_open, re_scene, re_close. intros H.
  apply literal_iff in H as (r0 & -> & H).
  apply greedy1_sound in H as (ws1 & r1 & -> & Hne1 & Hws1 & H).
  apply greedy1_sound in H as (g & r2 & -> & Hneg & Hg & H).
  apply greedy_sound in H as (ws2 & r3 & -> & Hws2 & H).
  apply literal_iff in H as (r4 & -> & H).
  apply greedy_sound in H as (ws3 & r5 & -> & Hws3 & H).
  apply literal_iff in H as (r6 & -> & H).
  apply greedy_sound in H as (ws4 & r7 & -> & Hws4 & H).
  apply literal_iff in H as (r8 & -> & H).
  injection H as ->.
  exists ws1, ws2, ws3, ws4, r8. now repeat split.
Qed.

(** After the class name, the rest of a declaration is matched. *)
Lemma re_open_complete (g ws2 ws3 ws4 rest : str) :
  forallb isspace ws2 = true -> forallb isspace ws3 = true ->
  forallb isspace ws4 = true ->
  exists r,
    re_open g (ws2 ++ lit "(" ++ ws3 ++ lit "Scene" ++ ws4 ++ lit ")" ++ rest)
    = Some r.
Proof.
  intros Hws2 Hws3 Hws4.
  assert (H4 : exists r, re_close g (ws4 ++ lit ")" ++ rest) = Some r).
  { unfold re_close.
    apply (greedy_complete isspace _ [] ws4 _ g Hws4).
    apply literal_iff. now exists rest. }
  destruct H4 as [r4 H4].
  assert (H3 : exists r,
             re_scene g (ws3 ++ lit "Scene" ++ ws4 ++ lit ")" ++ rest) = Some r).
  { unfold re_scene.
    apply (greedy_complete isspace _ [] ws3 _ r4 Hws3).
    apply literal_iff. now exists (ws4 ++ lit ")" ++ rest). }
  destruct H3 as [r3 H3].
  unfold re_open.
  apply (greedy_complete isspace _ [] ws2 _ r3 Hws2).
  apply literal_iff.
  now exists (ws3 ++ lit "Scene" ++ ws4 ++ lit ")" ++ rest).
Qed.

(** Where a declaration begins the match succeeds. *)
Lemma scene_class_match_complete (s nm : str) :
  declares_at isalnum s nm ->
  exists nm', scene_class_match isalnum s = Some nm'.
Proof.
  intros (ws1 & ws2 & ws3 & ws4 & rest & -> & Hne1 & Hws1 & Hne & Hnm
          & Hws2 & Hws3 & Hws4).
  destruct (re_open_complete nm ws2 ws3 ws4 rest Hws2 Hws3 Hws4) as [r2 Hr2].
  destruct (greedy1_complete (isword isalnum) re_open nm _ r2 Hne Hnm Hr2)
    as [r1 Hr1].
  destruct (greedy1_complete isspace
              (fun _ => greedy1 (isword isalnum) re_open) ws1 _ r1
              Hne1 Hws1 Hr1) as [r0 Hr0].
  exists r0. unfold scene_class_match. apply literal_iff. eauto.
Qed.

(** The search returns the match at the leftmost position that has one. *)
Lemma scene_class_search_some (code nm : str) :
  scene_class_search isalnum code = Some nm ->
  exists pre s,
    code = pre ++ s /\ scene_class_match isalnum s = Some nm /\
    forall pre' s', code = pre' ++ s' -> length pre' < length pre ->
                    scene_class_match isalnum s' = None.
Proof.
  induction code as [|c code IH].
  - intros H. discriminate H.
  - cbn [scene_class_search].
    destruct (scene_class_match isalnum (c :: code)) eqn:E.
    + intros H. injection H as ->. exists [], (c :: code).
      repeat split; trivial. intros pre' s' _ Hlt. simpl in Hlt. lia.
    + intros H. destruct (IH H) as (pre & s & -> & Hm & Hfirst).
      exists (c :: pre), s. repeat split; trivial.
      intros [|x pre'] s' Hs Hlt.
      * simpl in Hs. now rewrite <- Hs.
      * injection Hs as _ Hs. simpl in Hlt. apply (Hfirst pre' s' Hs). lia.
Qed.

Lemma scene_class_search_none (code : str) :
  scene_class_search isalnum code = None ->
  forall pre s, code = pre ++ s -> scene_class_match isalnum s = None.
Proof.
  induction code as [|c code IH].
  - intros _ [|x pre] s H; [|discriminate]. simpl in H. now rewrite <- H.
  - cbn [scene_class_search].
    destruct (scene_class_match isalnum (c :: code)) eqn:E; [discriminate|].
    intros H [|x pre] s Hs.
    + simpl in Hs. now rewrite <- Hs.
    + injection Hs as _ Hs. eapply IH; eauto.
Qed.

(** A run of characters of a class that stops in front of a character
    outside the class is determined by the text. *)
Lemma run_unique (cls : char -> bool) (w1 r1 w2 r2 : str) :
  w1 ++ r1 = w2 ++ r2 ->
  forallb cls w1 = true -> forallb cls w2 = true ->
  (forall c r, r1 = c :: r -> cls c = false) ->
  (forall c r, r2 = c :: r -> cls c = false) ->
  w1 = w2 /\ r1 = r2.
Proof.
  revert w2. induction w1 as [|c w1 IH]; intros [|d w2]; simpl.
  - now intros ->.
  - intros -> _ H2 H1 _. apply andb_true_iff in H2 as [Hd _].
    rewrite (H1 d _ eq_refl) in Hd. discriminate Hd.
  - intros <- H1 _ _ H2. apply andb_true_iff in H1 as [Hc _].
    rewrite (H2 c _ eq_refl) in Hc. discriminate Hc.
  - intros E H1 H2 S1 S2. injection E as -> E.
    apply andb_true_iff in H1 as [_ H1]. apply andb_true_iff in H2 as [_ H2].
    destruct (IH w2 E H1 H2 S1 S2) as [-> ->]. now split.
Qed.

(** With word characters apart from whitespace and from the parenthesis,
    a position has one declaration at most. *)
Lemma declares_at_unique (s nm nm' : str) :
  alnum_apart isalnum ->
  declares_at isalnum s nm -> declares_at isalnum s nm' -> nm = nm'.
Proof.
  intros Hapart.
  assert (Hword : forall c, isword isalnum c = true ->
                            isspace c = false /\ c <> 40%N).
  { intros c Hc. unfold isword in Hc. apply orb_true_iff in Hc as [Hc|Hc].
    - now apply Hapart.
    - apply N.eqb_eq in Hc as ->. split; [reflexivity | discriminate]. }
  intros (a1 & a2 & a3 & a4 & ar & -> & Ha1n & Ha1 & Hn & Hnm & Ha2 & _ & _)
         (b1 & b2 & b3 & b4 & br & E & Hb1n & Hb1 & Hn' & Hnm' & Hb2 & _ & _).
  apply app_inv_head in E.
  assert (Hs1 : forall n t c r, n <> [] -> forallb (isword isalnum) n = true ->
                                n ++ t = c :: r -> isspace c = false).
  { intros [|x n] t c r Hne Hw Hc; [contradiction|].
    injection Hc as -> _. simpl in Hw. apply andb_true_iff in Hw as [Hx _].
    now apply Hword. }
  destruct (run_unique isspace a1 _ b1 _ E Ha1 Hb1) as [_ E2].
  { intros c r. now apply Hs1. }
  { intros c r. now apply Hs1. }
  assert (Hs2 : forall ws t c r, forallb isspace ws = true ->
                                 ws ++ lit "(" ++ t = c :: r ->
                                 isword isalnum c = false).
  { intros [|x ws] t c r Hws Hc.
    - injection Hc as <- _.
      destruct (isword isalnum 40%N) eqn:E40; trivial.
      apply Hword in E40 as [_ E40]. now destruct E40.
    - injection Hc as -> _. simpl in Hws. apply andb_true_iff in Hws as [Hx _].
      destruct (isword isalnum c) eqn:Ec; trivial.
      apply Hword in Ec as [Ec _]. congruence. }
  destruct (run_unique (isword isalnum) nm _ nm' _ E2 Hnm Hnm') as [H _]; trivial.
  - intros c r. now apply Hs2.
  - intros c r. now apply Hs2.
Qed.

(** C9: the extraction raises exactly when no substring of the text is a
    scene-class declaration, and the rendering entry point then raises the
    same error to its caller; when there is a declaration the extraction
    returns, without error, the class name of a declaration at the
    leftmost position where a declaration begins, and that position has no
    declaration of another name when no alphanumeric character is
    whitespace or a parenthesis. *)
Theorem extract_scene_class_raises_iff (code : str) :
  ((exists e, extract_scene_class isalnum code = Raise e)
   <-> ~ has_declaration isalnum code) /\
  (forall (A : Type) (rest : str -> result A) e,
      extract_scene_class isalnum code = Raise e ->
      render_manim_scene isalnum code rest = Raise e) /\
  (has_declaration isalnum code ->
   exists nm, extract_scene_class isalnum code = Return nm) /\
  (forall nm,
      extract_scene_class isalnum code = Return nm ->
      exists pre s,
        code = pre ++ s /\ declares_at isalnum s nm /\
        (forall pre' s' nm',
            code = pre' ++ s' -> declares_at isalnum s' nm' ->
            length pre <= length pre') /\
        (alnum_apart isalnum ->
         forall nm', declares_at isalnum s nm' -> nm' = nm)).
Proof.
  split; [|split].
  2: { intros A rest e He. unfold render_manim_scene. now rewrite He. }
  all: unfold extract_scene_class.
  all: destruct (scene_class_search isalnum code) as [nm|] eqn:E.
  - split; [intros [e He]; discriminate He|].
    destruct (scene_class_search_some code nm E) as (pre & s & -> & Hm & _).
    intros Hno. destruct Hno. exists pre, s, nm. split; trivial.
    now apply scene_class_match_sound.
  - split; [|eauto]. intros _ (pre & s & nm & Hs & Hd).
    destruct (scene_class_match_complete s nm Hd) as [x Hx].
    rewrite (scene_class_search_none code E pre s Hs) in Hx. discriminate Hx.
  - destruct (scene_class_search_some code nm E) as (pre & s & -> & Hm & Hfirst).
    pose proof (scene_class_match_sound s nm Hm) as Hd.
    split; [intros _; now exists nm|].
    intros nm0 H. injection H as <-. exists pre, s. repeat split; trivial.
    + intros pre' s' nm' Hs Hd'.
      destruct (Nat.le_gt_cases (length pre) (length pre')) as [|Hlt];
        trivial.
      destruct (scene_class_match_complete s' nm' Hd') as [x Hx].
      rewrite (Hfirst pre' s' Hs Hlt) in Hx. discriminate Hx.
    + intros Hapart nm' Hd'. now apply (declares_at_unique s).
  - split; [|intros nm H; discriminate H].
    intros (pre & s & nm & Hs & Hd).
    destruct (scene_class_match_complete s nm Hd) as [x Hx].
    rewrite (scene_class_search_none code E pre s Hs) in Hx. discriminate Hx.
Qed.

End SceneClass.

(** C9, at a program with one scene class and at a text without any. *)
Lemma extract_scene_class_raises_iff_witness :
  (exists nm,
      extract_scene_class ascii_alnum (lit "class A(Scene):") = Return nm) /\
  ~ has_declaration ascii_alnum (lit "x = 1").
Proof.
  split.
  - apply (proj1 (proj2 (proj2 (extract_scene_class_raises_iff ascii_alnum
                                  (lit "class A(Scene):"))))).
    exists [], (lit "class A(Scene):"), (lit "A"). split; [reflexivity|].
    exists (lit " "), [], [], [], (lit ":").
    repeat split; solve [discriminate | reflexivity].
  - apply (proj1 (proj1 (extract_scene_class_raises_iff ascii_alnum
                           (lit "x = 1")))).
    eexists. reflexivity.
Defined.

(** ** The script assembler: the count of section breaks *)

Section SectionBreaks.

Lemma contains_rev (sub s : str) : contains (rev sub) (rev s) = contains sub s.
Proof.
  assert (H : forall x y, contains x y = true -> contains (rev x) (rev y) = true).
  { intros x y Hc. apply contains_iff in Hc as [a [b ->]].
    apply contains_iff. exists (rev b), (rev a).
    now rewrite !rev_app_distr, <- app_assoc. }
  destruct (contains sub s) eqn:E.
  - now apply H.
  - destruct (contains (rev sub) (rev s)) eqn:E'; trivial.
    apply H in E'. rewrite !rev_involutive in E'. congruence.
Qed.

(** Stripping keeps the occurrences of a pattern that neither begins nor
    ends with whitespace. *)
Lemma contains_strip_eq (x : char) (sub s : str) :
  isspace x = false ->
  (forall y t, rev (x :: sub) = y :: t -> isspace y = false) ->
  contains (x :: sub) (strip s) = contains (x :: sub) s.
Proof.
  intros Hx Hlast.
  destruct (lstrip_suffix s) as [w [Hs Hw]].
  rewrite Hs at 2. rewrite contains_skip_space by trivial.
  unfold strip, rstrip. rewrite <- contains_rev, rev_involutive.
  destruct (lstrip_suffix (rev (lstrip s))) as [w' [Hs' Hw']].
  rewrite <- (contains_rev (x :: sub) (lstrip s)). rewrite Hs' at 2.
  destruct (rev (x :: sub)) as [|y t] eqn:E.
  - simpl in E. now apply app_eq_nil in E as [_ E].
  - symmetry. apply contains_skip_space; trivial. now apply (Hlast y t).
Qed.

Lemma directive_strip (s : str) :
  contains NEXT_SECTION (strip s) = contains NEXT_SECTION s.
Proof.
  change NEXT_SECTION with (115%N :: tl NEXT_SECTION).
  apply contains_strip_eq; [reflexivity|].
  intros y t H. vm_compute in H. now injection H as <- _.
Qed.

Lemma count_from_absent (sub s : str) (k : nat) :
  contains sub s = false -> count_from sub s k = 0.
Proof.
  revert k. induction s as [|c s IH]; intros k; trivial.
  cbn [contains count_from]. intros H. apply orb_false_iff in H as [H1 H2].
  destruct k; [rewrite H1|]; now apply IH.
Qed.

(** The first round returns a text without the section-break call. *)
Lemma first_round_has_no_directive (existing_code ai_response prompt : str) :
  truthy (strip existing_code) = false ->
  count NEXT_SECTION
    (ensure_section_addition existing_code ai_response prompt) = 0.
Proof.
  intros Hprev. unfold ensure_section_addition. rewrite Hprev. cbn [negb].
  apply count_from_absent. unfold _strip_markers_and_sections.
  rewrite contains_snoc_sep by one_line.
  rewrite first_round_loop. cbn [app]. rewrite directive_strip.
  rewrite contains_join_sep by one_line.
  destruct (existsb _ _) eqn:E; trivial.
  apply existsb_exists in E as [l [Hl Hc]].
  apply filter_In in Hl as [_ Hl]. apply andb_true_iff in Hl as [_ Hl].
  rewrite directive_strip, Hc in Hl. discriminate Hl.
Qed.

(** C1, at a continuation round whose fragment calls
    [self.next_section()] itself: the previous text has no section break
    and the assembled text has two, the one written over the marker and
    the one of the fragment. *)
Theorem continuation_keeps_directive_of_fragment :
  let previous := lit "class S(Scene):
    def construct(self):
        a = 1
" in
  let fragment := lit "# <<SECTION_BREAK>>
self.next_section()
b = 2" in
  truthy (strip previous) = true /\
  count NEXT_SECTION previous = 0 /\
  count NEXT_SECTION (ensure_section_addition previous fragment []) = 2.
Proof. vm_compute. repeat split. Qed.

(** *** Counting over the lines of a text *)

Lemma startswith_length (s p : str) :
  startswith s p = true -> length p <= length s.
Proof.
  intros H. apply startswith_iff in H as [r ->]. rewrite length_app. lia.
Qed.

(** The occurrences of a one-line pattern are counted line by line. *)
Lemma count_from_app_sep (sub a b : str) (c : char) (k : nat) :
  ~ In c sub -> sub <> [] -> k <= length a ->
  count_from sub (a ++ c :: b) k = count_from sub a k + count_from sub b 0.
Proof.
  intros Hc Hne. revert k. induction a as [|y a IH]; intros k Hk.
  - simpl in Hk. replace k with 0 by lia. cbn [app count_from].
    destruct (startswith (c :: b) sub) eqn:E; trivial.
    apply (startswith_before_sep [] c b) in E; trivial.
    destruct sub; [contradiction | discriminate E].
  - cbn [app count_from]. destruct k as [|k].
    + destruct (startswith (y :: a ++ c :: b) sub) eqn:E.
      * apply (startswith_before_sep (y :: a) c b) in E; trivial.
        rewrite E. apply startswith_length in E. simpl in E.
        rewrite IH by lia. reflexivity.
      * destruct (startswith (y :: a) sub) eqn:E'.
        -- apply (startswith_app_l _ (c :: b)) in E'. simpl in E'. congruence.
        -- now apply IH; lia.
    + apply IH. simpl in Hk. lia.
Qed.

Lemma count_join (sub : str) (c : char) (ls : list str) :
  ~ In c sub -> sub <> [] ->
  count sub (join [c] ls) = list_sum (map (count sub) ls).
Proof.
  intros Hc Hne. induction ls as [|l ls IH]; trivial.
  cbn [join map list_sum]. destruct ls as [|l' ls].
  - simpl. lia.
  - change (l ++ [c] ++ join [c] (l' :: ls))
      with (l ++ c :: join [c] (l' :: ls)).
    unfold count in *. rewrite count_from_app_sep by (trivial; lia).
    now rewrite IH.
Qed.

Lemma split_char_one_line (c : char) (l : str) :
  ~ In c l -> split_char c l = [l].
Proof.
  induction l as [|x l IH]; trivial. intros H. simpl.
  destruct (N.eqb_spec x c) as [->|_]; [destruct H; now left|].
  rewrite IH; [trivial | intros Hin; apply H; now right].
Qed.

Lemma split_char_app_sep (c : char) (l rest : str) :
  ~ In c l -> split_char c (l ++ c :: rest) = l :: split_char c rest.
Proof.
  induction l as [|x l IH]; intros H; simpl.
  - now rewrite N.eqb_refl.
  - destruct (N.eqb_spec x c) as [->|_]; [destruct H; now left|].
    rewrite IH; [trivial | intros Hin; apply H; now right].
Qed.

(** Splitting what was joined gives the lines back. *)
Lemma split_char_join (c : char) (ls : list str) :
  ls <> [] -> Forall (fun l => ~ In c l) ls ->
  split_char c (join [c] ls) = ls.
Proof.
  intros Hne Hall. induction Hall as [|l ls Hl Hall IH]; [contradiction|].
  cbn [join]. destruct ls as [|l' ls].
  - now apply split_char_one_line.
  - change (l ++ [c] ++ join [c] (l' :: ls))
      with (l ++ c :: join [c] (l' :: ls)).
    rewrite split_char_app_sep by trivial. f_equal. apply IH. discriminate.
Qed.

Lemma split_char_lines (c : char) (s : str) :
  Forall (fun l => ~ In c l) (split_char c s).
Proof.
  induction s as [|x s IH]; simpl.
  - constructor; [intros [] | constructor].
  - destruct (N.eqb_spec x c) as [->|Hx].
    + constructor; [intros [] | trivial].
    + destruct (split_char c s) as [|l ls].
      * constructor; [|constructor]. intros [H|[]]. congruence.
      * apply Forall_cons_iff in IH as [Hl Hls]. constructor; trivial.
        intros [H|H]; [congruence | contradiction].
Qed.

(** *** The continuation round *)

Lemma first_hit_unique {A : Type} (p : A -> bool)
      (pre pre' : list A) (m m' : A) (post post' : list A) :
  pre ++ m :: post = pre' ++ m' :: post' ->
  forallb (fun x => negb (p x)) pre = true -> p m = true ->
  forallb (fun x => negb (p x)) pre' = true -> p m' = true ->
  pre = pre' /\ m = m' /\ post = post'.
Proof.
  revert pre'. induction pre as [|x pre IH]; intros [|y pre']; simpl.
  - intros E _ _ _ _. now injection E as -> ->.
  - intros E _ Hm Hy _. injection E as -> _.
    apply andb_true_iff in Hy as [Hy _]. rewrite Hm in Hy. discriminate Hy.
  - intros E Hx _ _ Hm'. injection E as -> _.
    apply andb_true_iff in Hx as [Hx _]. rewrite Hm' in Hx. discriminate Hx.
  - intros E Hx Hm Hy Hm'. injection E as -> E.
    apply andb_true_iff in Hx as [_ Hx]. apply andb_true_iff in Hy as [_ Hy].
    destruct (IH pre' E Hx Hm Hy Hm') as (-> & -> & ->). now repeat split.
Qed.

(** Over lines whose first marker line is [m], the replacement writes the
    section-break call over [m] and drops the later marker lines. *)
Lemma replace_section_marker_at (pre post : list str) (m : str) :
  Forall (fun l => ~ In NL l) (pre ++ m :: post) ->
  forallb (fun l => negb (contains SECTION_MARKER l)) pre = true ->
  contains SECTION_MARKER m = true ->
  _replace_section_marker (join [NL] (pre ++ m :: post))
  = join [NL]
      (pre ++ (firstn (length m - length (lstrip m)) m ++ NEXT_SECTION)
           :: filter (fun l => negb (contains SECTION_MARKER l)) post).
Proof.
  intros Hnl Hpre Hm. unfold _replace_section_marker.
  rewrite split_char_join; trivial; [|now destruct pre].
  destruct (map fst _) as [|first others] eqn:Eh.
  - apply hits_nil in Eh. rewrite forallb_app in Eh.
    apply andb_true_iff in Eh as [_ Eh]. simpl in Eh. rewrite Hm in Eh.
    discriminate Eh.
  - destruct (replace_first_pop_rest (contains SECTION_MARKER)
                (fun line => firstn (length line - length (lstrip line)) line
                             ++ NEXT_SECTION)
                [] (pre ++ m :: post) first others Eh)
      as (pre' & m' & post' & El & Hl & Hp & Hm' & Hr).
    destruct (first_hit_unique _ _ _ _ _ _ _ El Hpre Hm Hp Hm')
      as (<- & <- & <-).
    cbv zeta. apply f_equal. exact Hr.
Qed.

Lemma filter_all {A : Type} (f : A -> bool) (l : list A) :
  forallb f l = true -> filter f l = l.
Proof.
  induction l as [|x l IH]; trivial. simpl.
  intros H. apply andb_true_iff in H as [-> H]. now rewrite IH.
Qed.

Lemma list_sum_cons (x : nat) (l : list nat) :
  list_sum (x :: l) = x + list_sum l.
Proof. reflexivity. Qed.

Lemma list_sum_zero (l : list nat) :
  Forall (fun n => n = 0) l -> list_sum l = 0.
Proof. induction 1 as [|x l -> _ IH]; trivial. Qed.

(** The lines of a text without the marker have no marker. *)
Lemma lines_without_marker (s : str) :
  contains SECTION_MARKER s = false ->
  forallb (fun l => negb (contains SECTION_MARKER l)) (split_char NL s) = true.
Proof.
  intros H. rewrite <- (join_split_char NL s) in H.
  rewrite contains_join_sep in H by one_line.
  apply forallb_forall. intros l Hl.
  destruct (contains SECTION_MARKER l) eqn:E; trivial.
  assert (existsb (contains SECTION_MARKER) (split_char NL s) = true);
    [|congruence].
  apply existsb_exists. eauto.
Qed.

(** The generated lines carry no section-break call when the new content
    has none. *)
Lemma content_lines_without_directive (content : str) :
  contains NEXT_SECTION content = false ->
  Forall (fun l => ~ In NL l /\ count NEXT_SECTION l = 0)
         (map reindent (content_lines_of content)).
Proof.
  intros H. apply Forall_forall. intros l Hl.
  apply in_map_iff in Hl as [x [<- Hx]].
  unfold content_lines_of in Hx. destruct (truthy content); [|destruct Hx].
  assert (Hnl : ~ In NL x).
  { pose proof (split_char_lines NL content) as Hall.
    rewrite Forall_forall in Hall. now apply Hall. }
  assert (Hc : contains NEXT_SECTION x = false).
  { rewrite <- (join_split_char NL content) in H.
    rewrite contains_join_sep in H by one_line.
    destruct (contains NEXT_SECTION x) eqn:E; trivial.
    assert (existsb (contains NEXT_SECTION) (split_char NL content) = true);
      [|congruence].
    apply existsb_exists. eauto. }
  unfold reindent. destruct (nonblank x); [|split; [intros [] | reflexivity]].
  destruct (startswith x INDENT8).
  - split; trivial. now apply count_from_absent.
  - split.
    + intros Hin. apply in_app_or in Hin as [Hin|Hin]; [|contradiction].
      revert Hin. now apply not_in_chars.
    + apply count_from_absent.
      change NEXT_SECTION with (115%N :: tl NEXT_SECTION).
      now rewrite (contains_skip_space INDENT8).
Qed.

(** Apart from fragments that call [self.next_section()] themselves, a
    continuation round over a previous text without the marker adds one
    section break exactly. *)
Lemma continuation_adds_one_directive (existing_code ai_response prompt : str) :
  truthy (strip existing_code) = true ->
  contains SECTION_MARKER existing_code = false ->
  contains NEXT_SECTION (new_content (strip (_strip_code_fences ai_response)))
  = false ->
  count NEXT_SECTION (ensure_section_addition existing_code ai_response prompt)
  = count NEXT_SECTION existing_code + 1.
Proof.
  intros Hprev Hmark Hdir.
  unfold ensure_section_addition. rewrite Hprev. cbn [negb].
  rewrite spliced_lines_eq.
  set (content := map reindent
                    (content_lines_of
                       (new_content (strip (_strip_code_fences ai_response))))).
  pose proof (content_lines_without_directive _ Hdir) as Hcontent.
  fold content in Hcontent.
  unfold splice.
  set (lines := split_char NL existing_code).
  set (pos := Z.to_nat (_find_construct_insert_position lines)).
  pose proof (lines_without_marker _ Hmark) as Hlines. fold lines in Hlines.
  pose proof (split_char_lines NL existing_code) as Hnl. fold lines in Hnl.
  assert (Htake : forallb (fun l => negb (contains SECTION_MARKER l))
                          (firstn pos lines) = true)
    by now apply forallb_firstn.
  assert (Hdrop : forallb (fun l => negb (contains SECTION_MARKER l))
                          (skipn pos lines) = true).
  { apply forallb_forall. intros l Hl. rewrite forallb_forall in Hlines.
    apply Hlines. rewrite <- (firstn_skipn pos lines).
    apply in_or_app. now right. }
  assert (Hnl1 : Forall (fun l => ~ In NL l) (firstn pos lines)).
  { apply Forall_forall. intros l Hl. rewrite Forall_forall in Hnl.
    apply Hnl. rewrite <- (firstn_skipn pos lines). apply in_or_app. now left. }
  assert (Hnl2 : Forall (fun l => ~ In NL l) (skipn pos lines)).
  { apply Forall_forall. intros l Hl. rewrite Forall_forall in Hnl.
    apply Hnl. rewrite <- (firstn_skipn pos lines). apply in_or_app. now right. }
  change (firstn pos lines
          ++ ([[]; COMMENT_LINE; INDENT8 ++ SECTION_MARKER; []] ++ content)
          ++ skipn pos lines)
    with (firstn pos lines
          ++ [[]; COMMENT_LINE] ++ (INDENT8 ++ SECTION_MARKER)
          :: ([] :: content ++ skipn pos lines)).
  rewrite app_assoc.
  rewrite replace_section_marker_at.
  - rewrite count_join by one_line.
    cbn [filter]. change (negb (contains SECTION_MARKER [])) with true.
    cbv iota. rewrite filter_app, (filter_all _ _ Hdrop).
    rewrite !map_app. cbn [map]. rewrite !map_app.
    rewrite !list_sum_app, !list_sum_cons, list_sum_app.
    change (list_sum []) with 0.
    change (count NEXT_SECTION []) with 0.
    change (count NEXT_SECTION COMMENT_LINE) with 0.
    change (count NEXT_SECTION
              (firstn (length (INDENT8 ++ SECTION_MARKER)
                       - length (lstrip (INDENT8 ++ SECTION_MARKER)))
                      (INDENT8 ++ SECTION_MARKER) ++ NEXT_SECTION)) with 1.
    rewrite (list_sum_zero (map (count NEXT_SECTION) (filter _ content))).
    + rewrite <- (join_split_char NL existing_code) at 1. fold lines.
      rewrite count_join by one_line.
      rewrite <- (firstn_skipn pos lines) at 3.
      rewrite map_app, list_sum_app. unfold str. lia.
    + apply Forall_forall. intros n Hn. apply in_map_iff in Hn as [l [<- Hl]].
      apply filter_In in Hl as [Hl _]. rewrite Forall_forall in Hcontent.
      now apply Hcontent.
  - apply Forall_app. split; [apply Forall_app; split; trivial|].
    + constructor; [intros []|].
      constructor; [now apply not_in_chars | constructor].
    + constructor; [now apply not_in_chars|].
      constructor; [intros []|]. apply Forall_app. split; trivial.
      eapply Forall_impl; [|exact Hcontent]. now intros l [H _].
  - rewrite forallb_app. apply andb_true_iff. split; [exact Htake | reflexivity].
  - reflexivity.
Qed.

End SectionBreaks.

(** * Further properties *)

(** ** More on stripping, splitting and joining *)

Section MoreStrFacts.

Implicit Types (s x y : str) (c : char).

Lemma lstrip_app x y :
  lstrip (x ++ y) = if truthy (lstrip x) then lstrip x ++ y else lstrip y.
Proof.
  induction x as [|c x IH]; trivial. simpl.
  destruct (isspace c); [exact IH | reflexivity].
Qed.

Lemma lstrip_head s c r : lstrip s = c :: r -> isspace c = false.
Proof.
  induction s as [|d s IH]; [discriminate|]. simpl.
  destruct (isspace d) eqn:E; [exact IH|]. intros H. now injection H as <- _.
Qed.

Lemma lstrip_fixed s :
  (forall c r, s = c :: r -> isspace c = false) -> lstrip s = s.
Proof.
  destruct s as [|c r]; trivial. intros H. simpl.
  now rewrite (H c r eq_refl).
Qed.

Lemma lstrip_idem s : lstrip (lstrip s) = lstrip s.
Proof.
  apply lstrip_fixed. intros c r H. now apply lstrip_head in H.
Qed.

Lemma rstrip_idem s : rstrip (rstrip s) = rstrip s.
Proof. unfold rstrip. now rewrite rev_involutive, lstrip_idem. Qed.

Lemma rstrip_app x y :
  rstrip (x ++ y) = if truthy (rstrip y) then x ++ rstrip y else rstrip x.
Proof.
  unfold rstrip. rewrite rev_app_distr, lstrip_app.
  destruct (lstrip (rev y)) as [|c r] eqn:E; trivial.
  cbn [truthy]. rewrite rev_app_distr, rev_involutive.
  destruct (rev (c :: r)) eqn:E'; trivial.
  apply (f_equal (@rev char)) in E'. rewrite rev_involutive in E'.
  discriminate E'.
Qed.

(** What [rstrip] leaves begins as the text does. *)
Lemma rstrip_head s c r :
  rstrip s = c :: r -> exists r', s = c :: r'.
Proof.
  intros H. destruct (rstrip_prefix s) as [w [Hs _]].
  rewrite H in Hs. simpl in Hs. eauto.
Qed.

Lemma strip_idem s : strip (strip s) = strip s.
Proof.
  unfold strip at 1. rewrite lstrip_fixed.
  - apply rstrip_idem.
  - intros c r H. unfold strip in H. apply rstrip_head in H as [r' H].
    now apply lstrip_head in H.
Qed.

(** A text that begins and ends with other characters than whitespace is
    its own [strip]. *)
Lemma strip_fixed s :
  (forall c r, s = c :: r -> isspace c = false) ->
  (forall c r, rev s = c :: r -> isspace c = false) ->
  strip s = s.
Proof.
  intros H1 H2. unfold strip. rewrite lstrip_fixed by trivial.
  unfold rstrip. rewrite lstrip_fixed by trivial. apply rev_involutive.
Qed.

Lemma join_cons_cons (sep : str) (l l' : str) (ls : list str) :
  join sep (l :: l' :: ls) = l ++ sep ++ join sep (l' :: ls).
Proof. reflexivity. Qed.

Lemma join_snoc (sep : str) (ls : list str) (x : str) :
  ls <> [] -> join sep (ls ++ [x]) = join sep ls ++ sep ++ x.
Proof.
  induction ls as [|l ls IH]; [contradiction|]. intros _.
  destruct ls as [|l' ls]; trivial.
  change ((l :: l' :: ls) ++ [x]) with (l :: (l' :: ls) ++ [x]).
  change ((l' :: ls) ++ [x]) with (l' :: ls ++ [x]) at 1.
  rewrite !join_cons_cons.
  change (l' :: ls ++ [x]) with ((l' :: ls) ++ [x]).
  rewrite IH by discriminate. now rewrite <- !app_assoc.
Qed.

(** A line of a joined text is a part of the text. *)
Lemma join_in (sep : str) (ls : list str) (l : str) :
  In l ls -> exists a b, join sep ls = a ++ l ++ b.
Proof.
  induction ls as [|x ls IH]; [intros []|].
  intros [->|Hin].
  - destruct ls as [|l' ls].
    + exists [], []. simpl. now rewrite app_nil_r.
    + exists [], (sep ++ join sep (l' :: ls)). reflexivity.
  - destruct (IH Hin) as [a [b E]]. destruct ls as [|l' ls]; [destruct Hin|].
    exists (x ++ sep ++ a), b. rewrite join_cons_cons, E.
    now rewrite <- !app_assoc.
Qed.

(** *** The lines of [splitlines] *)

Lemma splitlines_one_line s :
  s <> [] -> no_linebreak s = true -> splitlines s = [s].
Proof.
  induction s as [|c s IH]; [contradiction|]. intros _ H.
  simpl in H. apply andb_true_iff in H as [Hc Hs].
  cbn [splitlines]. destruct (is_linebreak c); [discriminate|].
  destruct s as [|d s]; trivial. now rewrite IH.
Qed.

Lemma splitlines_app_nl s rest :
  no_linebreak s = true ->
  splitlines (s ++ NL :: rest) = s :: splitlines rest.
Proof.
  induction s as [|c s IH]; intros H.
  - cbn [app splitlines]. change (is_linebreak NL) with true. cbv iota.
    now destruct rest.
  - simpl in H. apply andb_true_iff in H as [Hc Hs].
    cbn [app splitlines]. destruct (is_linebreak c); [discriminate|].
    now rewrite IH.
Qed.

(** Lines without line boundaries, the last one not empty, are what
    [splitlines] finds in their joined text. *)
Lemma splitlines_join (ls : list str) :
  forallb no_linebreak ls = true -> last ls [NL] <> [] ->
  splitlines (join [NL] ls) = ls.
Proof.
  induction ls as [|l ls IH]; trivial. intros H Hlast.
  simpl in H. apply andb_true_iff in H as [Hl Hls].
  destruct ls as [|l' ls].
  - apply splitlines_one_line; trivial.
  - rewrite join_cons_cons.
    change (l ++ [NL] ++ join [NL] (l' :: ls))
      with (l ++ NL :: join [NL] (l' :: ls)).
    rewrite splitlines_app_nl by trivial. f_equal. now apply IH.
Qed.

End MoreStrFacts.

(** ** The fence stripper on a fenced block *)

Section FencedBlock.

(** X1: a block that opens with a fence line, whatever follows the fence
    on that line, and closes with a fence line is stripped to the lines in
    between, joined by newlines. *)
Theorem strip_code_fences_fenced_block (info : str) (ls : list str) :
  no_linebreak info = true -> forallb no_linebreak ls = true ->
  _strip_code_fences (join [NL] ((FENCE ++ info) :: ls ++ [FENCE]))
  = join [NL] ls.
Proof.
  intros Hinfo Hls.
  set (whole := join [NL] ((FENCE ++ info) :: ls ++ [FENCE])).
  assert (Hhead : exists r, whole = FENCE ++ r).
  { unfold whole. destruct (ls ++ [FENCE]) as [|l' ls'] eqn:E.
    - now destruct ls.
    - rewrite join_cons_cons, <- app_assoc. eauto. }
  assert (Htail : exists r, rev whole = rev FENCE ++ r).
  { unfold whole.
    change ((FENCE ++ info) :: ls ++ [FENCE])
      with (((FENCE ++ info) :: ls) ++ [FENCE]).
    rewrite join_snoc by discriminate.
    rewrite !rev_app_distr, <- app_assoc. eauto. }
  assert (Hstrip : strip whole = whole).
  { apply strip_fixed.
    - destruct Hhead as [r ->]. intros c r' H. now injection H as <- _.
    - destruct Htail as [r ->]. intros c r' H. now injection H as <- _. }
  unfold _strip_code_fences. rewrite Hstrip.
  destruct Hhead as [r Hr]. rewrite Hr at 1. rewrite startswith_app.
  unfold whole. rewrite splitlines_join.
  - cbn [truthy skipn].
    assert (Hne : truthy (ls ++ [FENCE]) = true) by now destruct ls.
    rewrite Hne, last_last.
    change (startswith (strip FENCE) FENCE) with true. cbn [andb].
    now rewrite removelast_last.
  - cbn [forallb]. rewrite forallb_app, Hls. cbn [forallb].
    unfold no_linebreak at 1. rewrite forallb_app. fold (no_linebreak info).
    now rewrite Hinfo.
  - change ((FENCE ++ info) :: ls ++ [FENCE])
      with (((FENCE ++ info) :: ls) ++ [FENCE]).
    rewrite last_last. discriminate.
Qed.

(** X1, at a block of two lines tagged [python]. *)
Lemma strip_code_fences_fenced_block_witness :
  _strip_code_fences (lit "```python
a = 1
b = 2
```") = lit "a = 1
b = 2".
Proof.
  exact (strip_code_fences_fenced_block (lit "python")
           [lit "a = 1"; lit "b = 2"] eq_refl eq_refl).
Defined.

End FencedBlock.

(** ** The sanitizer *)

Section Sanitizer.

(** X2: in the first round the sanitizer returns a text that has the
    import of manim and ends with a newline; in a continuation round it
    returns a text without whitespace at either end. *)
Theorem sanitize_code_shape (code previous_code : str) :
  (truthy (strip previous_code) = false ->
   exists body,
     sanitize_code code previous_code = body ++ [NL] /\
     contains MANIM_IMPORT body = true) /\
  (truthy (strip previous_code) = true ->
   trimmed (sanitize_code code previous_code)).
Proof.
  unfold sanitize_code. split; intros ->.
  - destruct (contains MANIM_IMPORT (strip (_strip_code_fences code))) eqn:E;
      cbn [negb]; eexists; split; try reflexivity; trivial.
  - apply strip_idem.
Qed.

(** X2, at a first answer without the import and at a continuation. *)
Lemma sanitize_code_shape_witness :
  (exists body,
      sanitize_code (lit "x = 1") [] = body ++ [NL] /\
      contains MANIM_IMPORT body = true) /\
  trimmed (sanitize_code (lit "import os
  b = 2  ") (lit "class S(Scene): pass")).
Proof.
  split.
  - exact (proj1 (sanitize_code_shape (lit "x = 1") []) eq_refl).
  - exact (proj2 (sanitize_code_shape (lit "import os
  b = 2  ") (lit "class S(Scene): pass")) eq_refl).
Defined.

End Sanitizer.

(** ** The program of a round *)

Section RoundProgram.

Import workers.

(** Stripping keeps a head that neither begins nor ends with whitespace,
    and what it leaves after the head begins as the text does. *)
Lemma strip_keeps_head (a b : str) :
  a <> [] -> lstrip a = a -> rstrip a = a ->
  exists b' w, strip (a ++ b) = a ++ b' /\ b = b' ++ w.
Proof.
  intros Hne Hl Hr. unfold strip.
  rewrite lstrip_app, Hl. destruct a as [|c a]; [contradiction|].
  cbn [truthy]. rewrite rstrip_app.
  destruct (rstrip_prefix b) as [w [Hb _]].
  destruct (rstrip b) as [|d r] eqn:E; cbn [truthy].
  - exists [], b. now rewrite Hr, app_nil_r.
  - exists (d :: r), w. now split.
Qed.

Lemma import_line_kept (b : str) :
  exists b' w, strip (IMPORT_LINE ++ b) = IMPORT_LINE ++ b' /\ b = b' ++ w.
Proof. apply strip_keeps_head; [discriminate | reflexivity..]. Qed.

(** After the import line a text goes on with a newline or ends. *)
Lemma after_import_line (b' w x : str) :
  NL :: x = b' ++ w -> b' = [] \/ exists r, b' = NL :: r.
Proof.
  destruct b' as [|c r]; [now left|]. intros H. injection H as <- _.
  right. eauto.
Qed.

(** X3: in the first round, when the answer of the provider lacks the
    import of manim, the program handed to the renderer begins with the
    line [from manim import *]. *)
Theorem first_program_begins_with_import (previous_code prompt code : str) :
  truthy (strip previous_code) = false ->
  contains MANIM_IMPORT (strip (_strip_code_fences code)) = false ->
  startswith (run_code previous_code prompt code) (IMPORT_LINE ++ [NL]) = true.
Proof.
  intros Hprev Himp. unfold run_code, sanitize_code, ensure_section_addition.
  rewrite Hprev, Himp. cbn [negb].
  set (cleaned0 := strip (_strip_code_fences code)).
  change (lit "from manim import *" ++ [NL; NL] ++ cleaned0)
    with (IMPORT_LINE ++ NL :: NL :: cleaned0).
  rewrite <- app_assoc.
  set (b := (NL :: NL :: cleaned0) ++ [NL]).
  destruct (import_line_kept b) as (b' & w & Hs & Hb).
  assert (Hfence : _strip_code_fences (IMPORT_LINE ++ b) = IMPORT_LINE ++ b).
  { unfold _strip_code_fences. now rewrite Hs. }
  rewrite Hfence, Hs.
  assert (Hlines : exists rest, split_char NL (IMPORT_LINE ++ b') = IMPORT_LINE :: rest).
  { destruct (after_import_line b' w (NL :: cleaned0 ++ [NL]) Hb) as [->|[r ->]].
    - exists []. rewrite app_nil_r. apply split_char_one_line.
      now apply not_in_chars.
    - eexists. apply split_char_app_sep. now apply not_in_chars. }
  destruct Hlines as [rest Hlines].
  unfold _strip_markers_and_sections. rewrite first_round_loop, Hlines.
  cbn [app filter].
  change (negb (contains SECTION_MARKER IMPORT_LINE)
          && negb (contains NEXT_SECTION (strip IMPORT_LINE))) with true.
  cbv iota.
  set (kept := filter _ rest).
  assert (Hjoin : exists x, join [NL] (IMPORT_LINE :: kept) = IMPORT_LINE ++ x
                            /\ (x = [] \/ exists r, x = NL :: r)).
  { destruct kept as [|k ks].
    - exists []. split; [now rewrite app_nil_r | now left].
    - rewrite join_cons_cons. eexists. split; [reflexivity|].
      right. eexists. reflexivity. }
  destruct Hjoin as (x & -> & Hx).
  destruct (import_line_kept x) as (x' & w' & -> & Hx').
  apply startswith_iff. rewrite <- app_assoc.
  destruct Hx as [->|[r ->]].
  - destruct x'; [|discriminate]. now exists [].
  - destruct (after_import_line x' w' r Hx') as [->|[r' ->]].
    + now exists [].
    + exists (r' ++ [NL]). now rewrite <- app_assoc.
Qed.

(** X3, at a first answer of one line. *)
Lemma first_program_begins_with_import_witness :
  startswith (run_code [] (lit "a dot") (lit "x = 1")) (IMPORT_LINE ++ [NL])
  = true.
Proof.
  exact (first_program_begins_with_import [] (lit "a dot") (lit "x = 1")
           eq_refl eq_refl).
Defined.

(** The generated lines hold no newline. *)
Lemma content_lines_one_line (content : str) :
  Forall (fun l => ~ In NL l) (map reindent (content_lines_of content)).
Proof.
  apply Forall_forall. intros l Hl. apply in_map_iff in Hl as [x [<- Hx]].
  unfold content_lines_of in Hx. destruct (truthy content); [|destruct Hx].
  assert (Hnl : ~ In NL x).
  { pose proof (split_char_lines NL content) as Hall.
    rewrite Forall_forall in Hall. now apply Hall. }
  unfold reindent. destruct (nonblank x); [|intros []].
  destruct (startswith x INDENT8); trivial.
  intros Hin. apply in_app_or in Hin as [Hin|Hin]; [|contradiction].
  revert Hin. now apply not_in_chars.
Qed.

(** The lines that a continuation round splices hold no newline. *)
Lemma spliced_lines_one_line (existing_code : str) (content : str) :
  Forall (fun l => ~ In NL l)
         (splice existing_code (map reindent (content_lines_of content))).
Proof.
  unfold splice.
  pose proof (split_char_lines NL existing_code) as Hnl.
  set (lines := split_char NL existing_code) in *.
  set (pos := Z.to_nat (_find_construct_insert_position lines)).
  rewrite <- (firstn_skipn pos lines) in Hnl.
  apply Forall_app in Hnl as [H1 H2].
  apply Forall_app. split; trivial. apply Forall_app. split; trivial.
  apply Forall_app. split; [|apply content_lines_one_line].
  constructor; [intros []|].
  constructor; [now apply not_in_chars|].
  constructor; [now apply not_in_chars|].
  constructor; [intros [] | constructor].
Qed.

(** X4: over a previous program without the marker, a continuation round
    returns the lines of the previous program, all of them and in their
    order, with one block put in at the offset of the locator: an empty
    line, the comment line, the line of the section break at eight spaces,
    an empty line, and the generated lines that have no marker. *)
Theorem continuation_program_shape (existing_code ai_response prompt : str) :
  let lines := split_char NL existing_code in
  let insert_pos := Z.to_nat (_find_construct_insert_position lines) in
  let generated :=
    map reindent
        (content_lines_of
           (new_content (strip (_strip_code_fences ai_response)))) in
  truthy (strip existing_code) = true ->
  contains SECTION_MARKER existing_code = false ->
  ensure_section_addition existing_code ai_response prompt
  = join [NL]
      (firstn insert_pos lines
       ++ [ []; COMMENT_LINE; INDENT8 ++ NEXT_SECTION; [] ]
       ++ filter marker_free generated
       ++ skipn insert_pos lines).
Proof.
  intros lines insert_pos generated Hprev Hmark.
  unfold ensure_section_addition. rewrite Hprev. cbn [negb].
  rewrite spliced_lines_eq. fold generated.
  pose proof (spliced_lines_one_line existing_code
                (new_content (strip (_strip_code_fences ai_response)))) as Hnl.
  fold generated in Hnl. unfold splice in *. fold lines insert_pos in Hnl |- *.
  pose proof (lines_without_marker _ Hmark) as Hlines. fold lines in Hlines.
  assert (Htake : forallb (fun l => negb (contains SECTION_MARKER l))
                          (firstn insert_pos lines) = true)
    by now apply forallb_firstn.
  assert (Hdrop : forallb (fun l => negb (contains SECTION_MARKER l))
                          (skipn insert_pos lines) = true).
  { apply forallb_forall. intros l Hl. rewrite forallb_forall in Hlines.
    apply Hlines. rewrite <- (firstn_skipn insert_pos lines).
    apply in_or_app. now right. }
  change (firstn insert_pos lines
          ++ ([[]; COMMENT_LINE; INDENT8 ++ SECTION_MARKER; []] ++ generated)
          ++ skipn insert_pos lines)
    with (firstn insert_pos lines
          ++ [[]; COMMENT_LINE] ++ (INDENT8 ++ SECTION_MARKER)
          :: ([] :: generated ++ skipn insert_pos lines)) in Hnl |- *.
  rewrite app_assoc in Hnl |- *.
  rewrite replace_section_marker_at; trivial.
  - cbn [filter]. change (negb (contains SECTION_MARKER [])) with true.
    cbv iota. rewrite filter_app, (filter_all _ _ Hdrop).
    rewrite <- app_assoc. reflexivity.
  - rewrite forallb_app. apply andb_true_iff. split; [exact Htake | reflexivity].
Qed.

(** X4, at the round of the end-to-end example. *)
Lemma continuation_program_shape_witness :
  ensure_section_addition (lit "class S(Scene):
    def construct(self):
        a = 1
") (lit "# <<SECTION_BREAK>>
    b = 2") []
  = join [NL]
      [lit "class S(Scene):"; lit "    def construct(self):";
       lit "        a = 1"; []; COMMENT_LINE; INDENT8 ++ NEXT_SECTION; [];
       lit "        b = 2"; []].
Proof.
  exact (continuation_program_shape (lit "class S(Scene):
    def construct(self):
        a = 1
") (lit "# <<SECTION_BREAK>>
    b = 2") [] eq_refl eq_refl).
Defined.

End RoundProgram.

(** ** The scene class from round to round *)

Section SceneClassKept.

Variable isalnum : char -> bool.

Lemma has_declaration_infix (a s b : str) :
  has_declaration isalnum s -> has_declaration isalnum (a ++ s ++ b).
Proof.
  intros (pre & t & nm & -> & ws1 & ws2 & ws3 & ws4 & rest & -> & H).
  exists (a ++ pre), (lit "class" ++ ws1 ++ nm ++ ws2 ++ lit "(" ++ ws3
                      ++ lit "Scene" ++ ws4 ++ lit ")" ++ rest ++ b), nm.
  split.
  - now rewrite <- !app_assoc.
  - now exists ws1, ws2, ws3, ws4, (rest ++ b).
Qed.

Lemma extract_scene_class_declared (code : str) :
  has_declaration isalnum code ->
  exists nm, extract_scene_class isalnum code = Return nm.
Proof.
  intros (pre & s & nm & Hs & Hd). unfold extract_scene_class.
  destruct (scene_class_search isalnum code) as [x|] eqn:E; eauto.
  destruct (scene_class_match_complete isalnum s nm Hd) as [y Hy].
  rewrite (scene_class_search_none isalnum code E pre s Hs) in Hy.
  discriminate Hy.
Qed.

(** The replacement of the markers keeps the lines without a marker. *)
Lemma replace_section_marker_keeps (code line : str) :
  In line (split_char NL code) -> marker_free line = true ->
  exists a b, _replace_section_marker code = a ++ line ++ b.
Proof.
  intros Hin Hfree. unfold _replace_section_marker.
  destruct (map fst _) as [|first others] eqn:Eh.
  - rewrite <- (join_split_char NL code). now apply join_in.
  - destruct (replace_first_pop_rest (contains SECTION_MARKER)
                (fun line => firstn (length line - length (lstrip line)) line
                             ++ NEXT_SECTION)
                [] (split_char NL code) first others Eh)
      as (pre & m & post & El & Hl & Hp & Hm & Hr).
    cbv zeta.
    replace (fold_left (fun ls idx => pop idx ls) (rev others) _)
      with (pre ++ (firstn (length m - length (lstrip m)) m ++ NEXT_SECTION)
                :: filter (fun x => negb (contains SECTION_MARKER x)) post)
      by (symmetry; exact Hr).
    apply join_in. rewrite El in Hin.
    apply in_app_or in Hin as [Hin|[Hin|Hin]].
    + apply in_or_app. now left.
    + subst m. unfold marker_free in Hfree. rewrite Hm in Hfree.
      discriminate Hfree.
    + apply in_or_app. right. right. apply filter_In. now split.
Qed.

(** X5: when a line of the previous program that has no marker holds a
    scene-class declaration, the program of a continuation round has a
    declaration too, and the extraction of its scene class returns a
    name. *)
Theorem scene_class_survives_round
        (existing_code ai_response prompt line : str) :
  truthy (strip existing_code) = true ->
  In line (split_char NL existing_code) ->
  marker_free line = true ->
  has_declaration isalnum line ->
  has_declaration isalnum
    (ensure_section_addition existing_code ai_response prompt) /\
  exists nm,
    extract_scene_class isalnum
      (ensure_section_addition existing_code ai_response prompt) = Return nm.
Proof.
  intros Hprev Hin Hfree Hdecl.
  assert (H : has_declaration isalnum
                (ensure_section_addition existing_code ai_response prompt)).
  { unfold ensure_section_addition. rewrite Hprev. cbn [negb].
    rewrite spliced_lines_eq.
    destruct (replace_section_marker_keeps
                (join [NL]
                   (splice existing_code
                      (map reindent
                         (content_lines_of
                            (new_content
                               (strip (_strip_code_fences ai_response)))))))
                line) as (a & b & ->); trivial.
    - rewrite split_char_join.
      + unfold splice. apply in_or_app.
        rewrite <- (firstn_skipn
                      (Z.to_nat (_find_construct_insert_position
                                   (split_char NL existing_code)))
                      (split_char NL existing_code)) in Hin.
        apply in_app_or in Hin as [Hin|Hin]; [now left|].
        right. apply in_or_app. now right.
      + unfold splice. intros E. apply app_eq_nil in E as [_ E].
        discriminate E.
      + apply spliced_lines_one_line.
    - now apply has_declaration_infix. }
  split; trivial. now apply extract_scene_class_declared.
Qed.

End SceneClassKept.

(** X5, at the round of the end-to-end example. *)
Lemma scene_class_survives_round_witness :
  exists nm,
    extract_scene_class ascii_alnum
      (ensure_section_addition (lit "class S(Scene):
    def construct(self):
        a = 1
") (lit "# <<SECTION_BREAK>>
    b = 2") []) = Return nm.
Proof.
  refine (proj2 (scene_class_survives_round ascii_alnum
                   (lit "class S(Scene):
    def construct(self):
        a = 1
") (lit "# <<SECTION_BREAK>>
    b = 2") [] (lit "class S(Scene):") eq_refl _ eq_refl _)).
  - left. reflexivity.
  - exists [], (lit "class S(Scene):"), (lit "S"). split; [reflexivity|].
    exists (lit " "), [], [], [], (lit ":").
    repeat split; solve [discriminate | reflexivity].
Defined.

(** ** The providers *)

Section Providers.

Lemma str_eqb_eq (a b : str) : str_eqb a b = true <-> a = b.
Proof.
  revert b; induction a as [|x a IH]; intros [|y b]; simpl;
    try (split; [discriminate | intros H; discriminate H]).
  - split; trivial.
  - rewrite andb_true_iff, N.eqb_eq, IH. split.
    + now intros [-> ->].
    + intros H. now injection H.
Qed.

Lemma endswith_app (r p : str) : endswith (r ++ p) p = true.
Proof. unfold endswith. rewrite rev_app_distr. apply startswith_app. Qed.

Lemma lstrip_chars_all (chars s : str) :
  forallb (fun c => existsb (N.eqb c) chars) s = true ->
  lstrip_chars chars s = [].
Proof.
  induction s as [|c s IH]; trivial. simpl.
  intros H. apply andb_true_iff in H as [-> H]. now apply IH.
Qed.

Lemma lstrip_chars_app (chars x y : str) :
  forallb (fun c => existsb (N.eqb c) chars) x = true ->
  lstrip_chars chars (x ++ y) = lstrip_chars chars y.
Proof.
  induction x as [|c x IH]; trivial. simpl.
  intros H. apply andb_true_iff in H as [-> H]. now apply IH.
Qed.

Lemma lstrip_all (w : str) : forallb isspace w = true -> lstrip w = [].
Proof.
  induction w as [|c w IH]; trivial. simpl.
  intros H. apply andb_true_iff in H as [-> H]. now apply IH.
Qed.

Lemma forallb_rev {A : Type} (f : A -> bool) (l : list A) :
  forallb f (rev l) = forallb f l.
Proof.
  induction l as [|x l IH]; trivial. simpl.
  rewrite forallb_app, IH. simpl. rewrite andb_true_r. apply andb_comm.
Qed.

Lemma rstrip_all (w : str) : forallb isspace w = true -> rstrip w = [].
Proof.
  intros H. unfold rstrip. rewrite lstrip_all; trivial.
  now rewrite forallb_rev.
Qed.

(** Whitespace around a text does not change its [strip]. *)
Lemma strip_padded (w1 s w2 : str) :
  forallb isspace w1 = true -> forallb isspace w2 = true ->
  strip (w1 ++ s ++ w2) = strip s.
Proof.
  intros H1 H2. unfold strip.
  rewrite lstrip_app, (lstrip_all w1 H1). cbn [truthy].
  rewrite lstrip_app. destruct (lstrip s) as [|c r] eqn:E; cbn [truthy].
  - rewrite (lstrip_all w2 H2). reflexivity.
  - rewrite rstrip_app, (rstrip_all w2 H2). reflexivity.
Qed.

(** X6: the address that the DeepSeek provider requests names a scheme
    and ends with the path of the chat completions, whatever the base
    address of the settings is. *)
Theorem deepseek_url_shape (deepseek_base_url : str) :
  (startswith (deepseek_url deepseek_base_url) (lit "http://") = true \/
   startswith (deepseek_url deepseek_base_url) (lit "https://") = true) /\
  endswith (deepseek_url deepseek_base_url) (lit "/v1/chat/completions")
  = true.
Proof.
  unfold deepseek_url. cbv zeta.
  set (base := rstrip_chars (lit "/") (strip deepseek_base_url)).
  split.
  - destruct (startswith base (lit "http://")) eqn:E1; cbn [negb andb].
    + left. apply startswith_iff in E1 as [r ->]. apply startswith_iff.
      exists (r ++ lit "/v1" ++ lit "/chat/completions").
      now rewrite <- !app_assoc.
    + right. destruct (startswith base (lit "https://")) eqn:E2; cbn [negb].
      * apply startswith_iff in E2 as [r ->]. apply startswith_iff.
        exists (r ++ lit "/v1" ++ lit "/chat/completions").
        now rewrite <- !app_assoc.
      * apply startswith_iff.
        exists (base ++ lit "/v1" ++ lit "/chat/completions").
        now rewrite <- !app_assoc.
  - rewrite <- app_assoc.
    change (lit "/v1" ++ lit "/chat/completions")
      with (lit "/v1/chat/completions").
    apply endswith_app.
Qed.

(** X7: whitespace around the base address and slashes at its end do not
    change the address that is requested. *)
Theorem deepseek_url_normalizes (base w1 w2 slashes : str) :
  trimmed base ->
  forallb isspace w1 = true -> forallb isspace w2 = true ->
  forallb (N.eqb 47) slashes = true ->
  deepseek_url (w1 ++ (base ++ slashes) ++ w2) = deepseek_url base.
Proof.
  intros Hb H1 H2 Hs. unfold deepseek_url.
  rewrite strip_padded by trivial.
  assert (Hsl : forallb (fun c => existsb (N.eqb c) (lit "/")) (rev slashes)
                = true).
  { rewrite forallb_rev. rewrite forallb_forall in *. intros c Hc.
    apply Hs in Hc. apply N.eqb_eq in Hc as <-. reflexivity. }
  assert (E : rstrip_chars (lit "/") (strip (base ++ slashes))
              = rstrip_chars (lit "/") (strip base)).
  { rewrite Hb. destruct base as [|c r].
    - cbn [app]. destruct (strip slashes) as [|c r] eqn:E.
      + reflexivity.
      + assert (Hall : forallb (fun c => existsb (N.eqb c) (lit "/"))
                         (rev (strip slashes)) = true).
        { destruct (strip_infix slashes) as (a & b & Hab).
          rewrite forallb_rev. rewrite forallb_forall. intros x Hx.
          rewrite forallb_rev in Hsl. rewrite forallb_forall in Hsl.
          apply Hsl. rewrite Hab. apply in_or_app. right.
          apply in_or_app. now left. }
        rewrite E in Hall. unfold rstrip_chars.
        rewrite (lstrip_chars_all _ _ Hall). reflexivity.
    - assert (Hc : isspace c = false).
      { unfold trimmed, strip in Hb. apply rstrip_head in Hb as Hb'.
        destruct Hb' as [r' Hr']. now apply lstrip_head in Hr'. }
      assert (Hfix : strip ((c :: r) ++ slashes) = (c :: r) ++ slashes).
      { destruct slashes as [|d sl] using rev_ind.
        - now rewrite app_nil_r.
        - apply strip_fixed.
          + intros x y H. injection H as <- _. exact Hc.
          + rewrite app_assoc, rev_app_distr. cbn [rev app].
            intros x y H. injection H as <- _.
            rewrite forallb_app in Hs. apply andb_true_iff in Hs as [_ Hs].
            cbn [forallb] in Hs. rewrite andb_true_r in Hs.
            apply N.eqb_eq in Hs as <-. reflexivity. }
      rewrite Hfix. unfold rstrip_chars. rewrite rev_app_distr.
      now rewrite lstrip_chars_app. }
  rewrite E. reflexivity.
Qed.

End Providers.

(** X7, at an address with a slash and a line end. *)
Lemma deepseek_url_normalizes_witness :
  deepseek_url (lit " api.deepseek.com/
") = lit "https://api.deepseek.com/v1/chat/completions".
Proof.
  exact (deepseek_url_normalizes (lit "api.deepseek.com") (lit " ") [NL]
           (lit "/") eq_refl eq_refl eq_refl eq_refl).
Defined.

(** ** The call of a provider *)

Section Generation.

Context {Exc : Type} (exc_str : Exc -> str).
Context (_call_deepseek _call_gemini : provider Exc).

Local Abbreviation generate :=
  (generate_manim_code Exc exc_str _call_deepseek _call_gemini).

Lemma resolve_provider_cases (mode : str) :
  (mode = lit "deepseek" /\
   _resolve_provider Exc _call_deepseek _call_gemini mode
   = Returns (mode, _call_deepseek)) \/
  (mode = lit "gemini" /\
   _resolve_provider Exc _call_deepseek _call_gemini mode
   = Returns (mode, _call_gemini)) \/
  (mode <> lit "deepseek" /\ mode <> lit "gemini" /\
   _resolve_provider Exc _call_deepseek _call_gemini mode
   = Raises (AIError NO_MODE_MESSAGE)).
Proof.
  unfold _resolve_provider.
  destruct (str_eqb mode (lit "deepseek")) eqn:E1.
  - apply str_eqb_eq in E1 as ->. now left.
  - destruct (str_eqb mode (lit "gemini")) eqn:E2.
    + apply str_eqb_eq in E2 as ->. right. now left.
    + right. right. repeat split; trivial.
      * intros ->. discriminate E1.
      * intros ->. discriminate E2.
Qed.

(** X8: the generation returns exactly when the mode names a provider
    and that provider returns; the name it returns is the mode, the code
    is the answer of the provider, unchanged. *)
Theorem generate_manim_code_returns
        (settings : config.AISettings) (mode prompt previous_code : str)
        (timeout : Z) (name code : str) :
  generate settings mode prompt previous_code timeout = Returns (name, code)
  <->
  name = mode /\
  ((mode = lit "deepseek" /\
    _call_deepseek settings prompt previous_code timeout = Returns code) \/
   (mode = lit "gemini" /\
    _call_gemini settings prompt previous_code timeout = Returns code)).
Proof.
  unfold generate_manim_code.
  destruct (resolve_provider_cases mode)
    as [[Hm ->]|[[Hm ->]|(H1 & H2 & ->)]].
  - destruct (_call_deepseek settings prompt previous_code timeout)
      as [c|e] eqn:E; split.
    + intros H. injection H as <- <-. split; trivial. left. now split.
    + intros [-> [[_ H]|[H _]]].
      * now injection H as ->.
      * rewrite Hm in H. discriminate H.
    + discriminate.
    + intros [_ [[_ H]|[H _]]]; [discriminate H|].
      rewrite Hm in H. discriminate H.
  - destruct (_call_gemini settings prompt previous_code timeout)
      as [c|e] eqn:E; split.
    + intros H. injection H as <- <-. split; trivial. right. now split.
    + intros [-> [[H _]|[_ H]]].
      * rewrite Hm in H. discriminate H.
      * now injection H as ->.
    + discriminate.
    + intros [_ [[H _]|[_ H]]]; [|discriminate H].
      rewrite Hm in H. discriminate H.
  - split; [discriminate|]. intros [_ [[H _]|[H _]]]; contradiction.
Qed.

(** X9: whatever exception the generation raises is an [AIError]: the
    one of an unknown mode, or the one that wraps an exception of the
    provider, [AIError] or not, under a message that names the provider
    and ends with the text of that exception. *)
Theorem generate_manim_code_raises
        (settings : config.AISettings) (mode prompt previous_code : str)
        (timeout : Z) (e : exception Exc) :
  generate settings mode prompt previous_code timeout = Raises e ->
  (mode <> lit "deepseek" /\ mode <> lit "gemini" /\
   e = AIError NO_MODE_MESSAGE) \/
  exists exc,
    e = AIError (call_failed_message Exc exc_str mode exc) /\
    ((mode = lit "deepseek" /\
      _call_deepseek settings prompt previous_code timeout = Raises exc) \/
     (mode = lit "gemini" /\
      _call_gemini settings prompt previous_code timeout = Raises exc)).
Proof.
  unfold generate_manim_code.
  destruct (resolve_provider_cases mode)
    as [[Hm ->]|[[Hm ->]|(H1 & H2 & ->)]].
  - destruct (_call_deepseek settings prompt previous_code timeout)
      as [c|exc] eqn:E; [discriminate|].
    intros H. injection H as <-. right. exists exc. split; trivial.
    left. now split.
  - destruct (_call_gemini settings prompt previous_code timeout)
      as [c|exc] eqn:E; [discriminate|].
    intros H. injection H as <-. right. exists exc. split; trivial.
    right. now split.
  - intros H. injection H as <-. now left.
Qed.

(** X10: the mode that the window passes for the text of its mode box
    always names a provider, so that a generation started from the window
    fails only with the wrapped exception of a provider. *)
Theorem generate_from_window_mode
        (settings : config.AISettings)
        (ai_mode_text prompt previous_code : str)
        (timeout : Z) (e : exception Exc) :
  generate settings (ai_mode_of ai_mode_text) prompt previous_code timeout
  = Raises e ->
  exists exc,
    e = AIError (call_failed_message Exc exc_str (ai_mode_of ai_mode_text)
                   exc).
Proof.
  unfold generate_manim_code.
  destruct (resolve_provider_cases (ai_mode_of ai_mode_text))
    as [[Hm ->]|[[Hm ->]|(H1 & H2 & _)]].
  - destruct (_call_deepseek settings prompt previous_code timeout)
      as [c|exc]; [discriminate|].
    intros H. injection H as <-. eauto.
  - destruct (_call_gemini settings prompt previous_code timeout)
      as [c|exc]; [discriminate|].
    intros H. injection H as <-. eauto.
  - unfold ai_mode_of in H1, H2.
    destruct (str_eqb ai_mode_text (lit "DeepSeek")); [now elim H1|].
    destruct (str_eqb ai_mode_text (lit "Gemini"));
      [now elim H2|now elim H1].
Qed.

End Generation.

(** X9, at a provider that raises an exception of the interpreter. *)
Lemma generate_manim_code_raises_witness :
  (lit "gemini" <> lit "deepseek" /\ lit "gemini" <> lit "gemini" /\
   @AIError unit
     (call_failed_message unit (fun _ => lit "boom") (lit "gemini")
        (Other tt))
   = AIError NO_MODE_MESSAGE) \/
  exists exc,
    @AIError unit
      (call_failed_message unit (fun _ => lit "boom") (lit "gemini")
         (Other tt))
    = AIError (call_failed_message unit (fun _ => lit "boom") (lit "gemini")
                 exc) /\
    ((lit "gemini" = lit "deepseek" /\
      @Raises unit str (Other tt) = Raises exc) \/
     (lit "gemini" = lit "gemini" /\
      @Raises unit str (Other tt) = Raises exc)).
Proof.
  exact (generate_manim_code_raises (fun _ : unit => lit "boom")
           (fun _ _ _ _ => Raises (Other tt))
           (fun _ _ _ _ => Raises (Other tt))
           (config.Build_AISettings [] [] [] [] [])
           (lit "gemini") [] [] 60%Z _ eq_refl).
Defined.

(** X10, at the same provider and the text of the mode box. *)
Lemma generate_from_window_mode_witness :
  exists exc,
    @AIError unit
      (call_failed_message unit (fun _ => lit "boom") (lit "gemini")
         (Other tt))
    = AIError (call_failed_message unit (fun _ => lit "boom")
                 (ai_mode_of (lit "Gemini")) exc).
Proof.
  exact (generate_from_window_mode (fun _ : unit => lit "boom")
           (fun _ _ _ _ => Raises (Other tt))
           (fun _ _ _ _ => Raises (Other tt))
           (config.Build_AISettings [] [] [] [] [])
           (lit "Gemini") [] [] 60%Z _ eq_refl).
Defined.

(** ** The answer of Gemini *)

Section GeminiAnswer.

Lemma text_parts_of_text_parts (ts : list str) :
  text_parts_of (map text_part ts) = Returns (map VStr ts).
Proof.
  induction ts as [|t ts IH]; trivial.
  cbn [map text_parts_of]. rewrite IH. reflexivity.
Qed.

Lemma strings_of_strings (ts : list str) : strings_of (map VStr ts) = Some ts.
Proof.
  induction ts as [|t ts IH]; trivial.
  cbn [map strings_of]. now rewrite IH.
Qed.

(** X11: a content that the Gemini provider takes from an answer is not
    empty and has no whitespace at either end. *)
Theorem gemini_content_returned (data : value) (content : str) :
  gemini_content data = Returns content ->
  content <> [] /\ trimmed content.
Proof.
  unfold gemini_content.
  destruct (value_get data _ _) as [candidates|]; [|discriminate].
  destruct (negb (value_truthy candidates)); [discriminate|].
  destruct (value_first candidates) as [candidate|]; [|discriminate].
  destruct (value_get candidate _ _) as [content_value|]; [|discriminate].
  destruct (value_get content_value _ _) as [parts|]; [|discriminate].
  destruct (value_iter parts) as [items|]; [|discriminate].
  destruct (text_parts_of items) as [text_parts|]; [|discriminate].
  destruct (strings_of text_parts) as [texts|]; [|discriminate].
  cbv zeta. destruct (strip (join [NL] texts)) as [|c r] eqn:E.
  - discriminate.
  - cbn [truthy negb]. intros H. injection H as <-. split; [discriminate|].
    unfold trimmed. rewrite <- E. apply strip_idem.
Qed.

(** X12: from an answer whose first candidate holds texts, the provider
    takes these texts joined by line ends and stripped, whatever the
    further candidates are, and raises [AIError] when nothing but
    whitespace is left. *)
Theorem gemini_content_of_texts (ts : list str) (others : list value) :
  gemini_content (gemini_answer ts others)
  = if truthy (strip (join [NL] ts))
    then Returns (strip (join [NL] ts))
    else Raises (AIError GEMINI_NO_CONTENT).
Proof.
  unfold gemini_content, gemini_answer.
  change (value_get (VDict [(lit "candidates", ?v)]) (lit "candidates") ?d)
    with (@Returns python_error value v).
  cbv iota. cbn [value_truthy truthy negb value_first].
  change (value_get (VDict [(lit "content", ?v)]) (lit "content") ?d)
    with (@Returns python_error value v).
  cbv iota.
  change (value_get (VDict [(lit "parts", ?v)]) (lit "parts") ?d)
    with (@Returns python_error value v).
  cbv iota. cbn [value_iter].
  rewrite text_parts_of_text_parts, strings_of_strings. cbv zeta.
  now destruct (truthy (strip (join [NL] ts))).
Qed.

End GeminiAnswer.

(** X11, at an answer with one text. *)
Lemma gemini_content_returned_witness :
  lit "x = 1" <> [] /\ trimmed (lit "x = 1").
Proof.
  exact (gemini_content_returned (gemini_answer [lit " x = 1 "] [])
           (lit "x = 1") eq_refl).
Defined.

(** ** The video of a rendering *)

Section RenderedVideo.

Lemma max_by_in {A : Type} (key : A -> Z) (x : A) (l : list A) :
  In (max_by key x l) (x :: l).
Proof.
  revert x; induction l as [|y l IH]; intros x; [now left|].
  cbn [max_by]. destruct (IH (if (key x <? key y)%Z then y else x)) as [H|H].
  - rewrite <- H. destruct (key x <? key y)%Z; [right|]; now left.
  - right. now right.
Qed.

Lemma max_by_ge_first {A : Type} (key : A -> Z) (x : A) (l : list A) :
  (key x <= key (max_by key x l))%Z.
Proof.
  revert x; induction l as [|y l IH]; intros x; cbn [max_by]; [lia|].
  specialize (IH (if (key x <? key y)%Z then y else x)).
  destruct (Z.ltb_spec (key x) (key y)); lia.
Qed.

Lemma max_by_ge {A : Type} (key : A -> Z) (x : A) (l : list A) (y : A) :
  In y (x :: l) -> (key y <= key (max_by key x l))%Z.
Proof.
  revert x; induction l as [|z l IH]; intros x.
  - intros [E|[]]. subst y. cbn [max_by]. lia.
  - intros [E|[E|H]]; cbn [max_by].
    + subst y.
      pose proof (max_by_ge_first key (if (key x <? key z)%Z then z else x) l).
      destruct (Z.ltb_spec (key x) (key z)); lia.
    + subst y.
      pose proof (max_by_ge_first key (if (key x <? key z)%Z then z else x) l).
      destruct (Z.ltb_spec (key x) (key z)); lia.
    + apply IH. now right.
Qed.

(** What [rglob("render.mp4")] finds is named [render.mp4], and
    [rglob("*.mp4")] finds it too. *)
Lemma rglob_render_found (output_dir : node) (p : Path) :
  In p (rglob_render output_dir) ->
  name p = lit "render.mp4" /\ In p (rglob_mp4 output_dir).
Proof.
  unfold rglob_render, rglob_mp4. rewrite !in_flat_map.
  intros [d [Hd Hp]]. unfold child in Hp.
  destruct (find _ (entries (snd d))) as [e|] eqn:E; [|destruct Hp].
  destruct Hp as [<-|[]]. apply find_some in E as [Hin He].
  apply str_eqb_eq in He. split.
  - unfold name. apply last_last.
  - exists d. split; trivial. apply in_map_iff. exists e. split.
    + now rewrite <- He.
    + apply filter_In. split; trivial. now rewrite <- He.
Qed.


(** X14: the video that the renderer returns is an entry under the output
    directory whose name ends with [.mp4]; it is named [render.mp4] when
    any entry is, and among these, or among all of them when none is named
    so, none was modified later. *)
Theorem run_manim_latest
        (ended : process_end) (output_dir : node) (st_mtime : Path -> Z)
        (timeout : Z) (latest : Path) :
  run_manim ended output_dir st_mtime timeout = Return latest ->
  In latest (rglob_mp4 output_dir) /\
  (rglob_render output_dir <> [] ->
   In latest (rglob_render output_dir) /\ name latest = lit "render.mp4") /\
  (forall p, In p (rglob_render output_dir) ->
             (st_mtime p <= st_mtime latest)%Z) /\
  (rglob_render output_dir = [] ->
   forall p, In p (rglob_mp4 output_dir) ->
             (st_mtime p <= st_mtime latest)%Z).
Proof.
  unfold run_manim. destruct ended as [|returncode stdout stderr];
    [discriminate|].
  destruct (negb (returncode =? 0)%Z); [discriminate|]. cbv zeta.
  destruct (rglob_render output_dir) as [|r rs] eqn:Er; cbn [truthy negb].
  - destruct (rglob_mp4 output_dir) as [|q qs] eqn:Eq; [discriminate|].
    intros H. injection H as <-. split; [apply max_by_in|].
    split; [intros H; now elim H|]. split; [intros p []|].
    intros _ p Hp. now apply max_by_ge.
  - intros H. injection H as <-.
    assert (Hin : In (max_by st_mtime r rs) (rglob_render output_dir)).
    { rewrite Er. apply max_by_in. }
    destruct (rglob_render_found output_dir _ Hin) as [Hname Hmp4].
    split; trivial. split; [intros _; rewrite <- Er; now split|].
    split; [|discriminate]. intros p Hp. now apply max_by_ge.
Qed.

End RenderedVideo.

(** X14, at an output directory with two videos, the first one newer. *)
Lemma run_manim_latest_witness :
  In [lit "a.mp4"] (rglob_mp4 (Dir [(lit "a.mp4", File); (lit "b.mp4", File)]))
  /\ (forall p,
        In p (rglob_mp4 (Dir [(lit "a.mp4", File); (lit "b.mp4", File)])) ->
        ((if str_eqb (name p) (lit "a.mp4") then 2 else 1) <= 2)%Z).
Proof.
  destruct (run_manim_latest (CompletedProcess 0 [] [])
              (Dir [(lit "a.mp4", File); (lit "b.mp4", File)])
              (fun p => if str_eqb (name p) (lit "a.mp4") then 2 else 1)%Z
              600%Z [lit "a.mp4"] eq_refl) as (H1 & _ & _ & H4).
  split; [exact H1 | exact (H4 eq_refl)].
Defined.

(** ** The segments of the database *)

Section Segments.

Import database.

Implicit Types (db : Database) (row seg : Segment) (w : str).

Lemma str_eqb_refl (a : str) : str_eqb a a = true.
Proof. now apply str_eqb_eq. Qed.

Lemma str_eqb_neq (a b : str) : a <> b -> str_eqb a b = false.
Proof.
  intros H. destruct (str_eqb a b) eqn:E; trivial.
  apply str_eqb_eq in E. contradiction.
Qed.

Lemma fold_max_ge_init (l : list Z) (x : Z) : (x <= fold_left Z.max l x)%Z.
Proof.
  revert x; induction l as [|a l IH]; intros x; simpl; [lia|].
  specialize (IH (Z.max x a)). lia.
Qed.

Lemma fold_max_ge_in (l : list Z) (x y : Z) :
  In y l -> (y <= fold_left Z.max l x)%Z.
Proof.
  revert x; induction l as [|a l IH]; intros x; [intros []|].
  intros [E|H]; simpl.
  - subst a. pose proof (fold_max_ge_init l (Z.max x y)). lia.
  - now apply IH.
Qed.

Lemma sql_max_ge (l : list Z) (y d : Z) :
  In y l -> (y <= coalesce (sql_max l) d)%Z.
Proof.
  destruct l as [|x l]; [intros []|]. intros [E|H]; simpl.
  - subst x. apply fold_max_ge_init.
  - now apply fold_max_ge_in.
Qed.

Lemma sql_max_snoc (l : list Z) (y : Z) :
  sql_max (l ++ [y])
  = Some (match sql_max l with Some m => Z.max m y | None => y end).
Proof.
  destruct l as [|x l]; trivial. simpl. now rewrite fold_left_app.
Qed.

Lemma sql_max_seq (n : nat) :
  (coalesce (sql_max (map Z.of_nat (seq 0 n))) (-1) = Z.of_nat n - 1)%Z.
Proof.
  induction n as [|n IH]; trivial.
  rewrite seq_S, map_app. cbn [map]. rewrite sql_max_snoc.
  destruct (sql_max (map Z.of_nat (seq 0 n))) as [m|];
    cbn [coalesce] in *; lia.
Qed.

Lemma next_id_fresh db row :
  In row (segments db) -> (id row < next_id db)%Z.
Proof.
  intros H. unfold next_id.
  pose proof (sql_max_ge (map id (segments db)) (id row) 0
                (in_map id _ _ H)). lia.
Qed.


Lemma filter_snoc {A : Type} (f : A -> bool) (l : list A) (x : A) :
  filter f (l ++ [x]) = filter f l ++ (if f x then [x] else []).
Proof. rewrite filter_app. simpl. now destruct (f x). Qed.

(** The rows of a workspace after [create_segment]. *)
Lemma create_segment_rows db w text t w' :
  filter (in_workspace w') (segments (fst (create_segment db w text t)))
  = filter (in_workspace w') (segments db)
    ++ (if str_eqb w w' then [snd (create_segment db w text t)] else []).
Proof.
  unfold create_segment. cbn [fst snd segments]. rewrite filter_snoc.
  reflexivity.
Qed.


Lemma in_insert_desc row x (l : list Segment) :
  In row (insert_desc x l) <-> row = x \/ In row l.
Proof.
  induction l as [|y l IH]; simpl.
  - intuition.
  - destruct (segment_index y <=? segment_index x)%Z; simpl;
      [|rewrite IH]; intuition.
Qed.

Lemma in_order_desc row (l : list Segment) :
  In row (order_desc l) <-> In row l.
Proof.
  induction l as [|y l IH]; simpl; [tauto|].
  rewrite in_insert_desc, IH. intuition.
Qed.

Lemma insert_desc_sorted x (l : list Segment) :
  StronglySorted (fun a b => (segment_index b <= segment_index a)%Z) l ->
  StronglySorted (fun a b => (segment_index b <= segment_index a)%Z)
                 (insert_desc x l).
Proof.
  induction l as [|y l IH]; intros H; simpl.
  - constructor; constructor.
  - inversion H as [|? ? Hl Hy]; subst.
    destruct (Z.leb_spec (segment_index y) (segment_index x)).
    + constructor; trivial. constructor; trivial.
      rewrite Forall_forall in *. intros z Hz. specialize (Hy z Hz). lia.
    + constructor; [now apply IH|].
      rewrite Forall_forall in *. intros z Hz.
      apply in_insert_desc in Hz as [->|Hz]; [lia | now apply Hy].
Qed.

Lemma order_desc_sorted (l : list Segment) :
  StronglySorted (fun a b => (segment_index b <= segment_index a)%Z)
                 (order_desc l).
Proof.
  induction l as [|x l IH]; simpl; [constructor|].
  now apply insert_desc_sorted.
Qed.

Lemma length_insert_desc x (l : list Segment) :
  length (insert_desc x l) = S (length l).
Proof.
  induction l as [|y l IH]; trivial. simpl.
  destruct (segment_index y <=? segment_index x)%Z; simpl; now rewrite ?IH.
Qed.

Lemma length_order_desc (l : list Segment) :
  length (order_desc l) = length l.
Proof.
  induction l as [|x l IH]; trivial. simpl.
  now rewrite length_insert_desc, IH.
Qed.

Lemma in_firstn {A : Type} (n : nat) (l : list A) (x : A) :
  In x (firstn n l) -> In x l.
Proof.
  intros H. rewrite <- (firstn_skipn n l). apply in_or_app. now left.
Qed.

Lemma strongly_sorted_firstn {A : Type} (R : A -> A -> Prop) (n : nat)
      (l : list A) :
  StronglySorted R l -> StronglySorted R (firstn n l).
Proof.
  revert n; induction l as [|x l IH]; intros [|n] H; simpl;
    try constructor.
  - inversion H; subst. now apply IH.
  - inversion H as [|? ? _ Hx]; subst. rewrite Forall_forall in *.
    intros y Hy. apply Hx. eapply in_firstn. exact Hy.
Qed.




(** X16: the segments that [list_segments] returns are segments of the
    workspace, the greater index first; a limit that is not negative
    bounds their number, and a negative limit leaves all of them. *)
Theorem list_segments_sorted db w (limit : Z) :
  StronglySorted (fun a b => (segment_index b <= segment_index a)%Z)
                 (list_segments db w limit) /\
  (forall row, In row (list_segments db w limit) ->
               In row (segments db) /\ workspace row = w) /\
  (Z.of_nat (length (list_segments db w limit)) <= get_segment_count db w)%Z
  /\
  ((0 <= limit)%Z ->
   Z.of_nat (length (list_segments db w limit))
   = Z.min limit (get_segment_count db w)) /\
  ((limit < 0)%Z ->
   forall row, In row (segments db) -> workspace row = w ->
               In row (list_segments db w limit)).
Proof.
  unfold list_segments, sql_limit, get_segment_count.
  pose proof (order_desc_sorted (filter (in_workspace w) (segments db)))
    as Hs.
  pose proof (length_order_desc (filter (in_workspace w) (segments db)))
    as Hl.
  assert (Hin : forall row,
             In row (order_desc (filter (in_workspace w) (segments db))) ->
             In row (segments db) /\ workspace row = w).
  { intros row Hr. apply in_order_desc, filter_In in Hr as [Hr Hw].
    split; trivial. now apply str_eqb_eq. }
  destruct (Z.ltb_spec limit 0) as [Hneg|Hpos].
  - repeat split; try (now apply Hin); trivial; try lia.
    intros _ row Hr Hw. apply in_order_desc, filter_In. split; trivial.
    unfold in_workspace. now apply str_eqb_eq.
  - split; [now apply strongly_sorted_firstn|].
    split; [intros row Hr; apply Hin; eapply in_firstn; exact Hr|].
    rewrite length_firstn, Hl. repeat split; lia.
Qed.


End Segments.




(** ** A round in the database *)

Section RoundInDatabase.

Import database.

Implicit Types (db : Database) (row seg : Segment) (w : str).

(** What [update_segment_render] does to a row. *)
Local Abbreviation updated segment_id code path :=
  (fun row : Segment =>
     if (id row =? segment_id)%Z
     then {| id := id row; workspace := workspace row;
             segment_index := segment_index row;
             input_text := input_text row;
             cumulative_code := code;
             section_video_path := path;
             created_at := created_at row |}
     else row).

Lemma filter_map_same {A : Type} (f : A -> bool) (g : A -> A) (l : list A) :
  (forall x, f (g x) = f x) ->
  filter f (map g l) = map g (filter f l).
Proof.
  intros H. induction l as [|x l IH]; trivial. simpl.
  rewrite H. destruct (f x); simpl; now rewrite IH.
Qed.



Lemma updated_workspace segment_id code path w row :
  in_workspace w (updated segment_id code path row) = in_workspace w row.
Proof. cbv beta. now destruct (id row =? segment_id)%Z. Qed.

Lemma updated_index segment_id code path row :
  segment_index (updated segment_id code path row) = segment_index row.
Proof. cbv beta. now destruct (id row =? segment_id)%Z. Qed.

(** The rows of a workspace after [update_segment_render]. *)
Lemma update_segment_render_rows db segment_id code path w :
  filter (in_workspace w)
         (segments (update_segment_render db segment_id code path))
  = map (updated segment_id code path)
        (filter (in_workspace w) (segments db)).
Proof.
  unfold update_segment_render. cbn [segments].
  apply filter_map_same. intros row. apply updated_workspace.
Qed.

(** The table after the deletion of the segment just created. *)
Lemma delete_created_segment db w text t :
  segments (delete_segment (fst (create_segment db w text t))
              (id (snd (create_segment db w text t))))
  = segments db.
Proof.
  unfold delete_segment, create_segment.
  cbn [fst snd segments id]. rewrite filter_snoc. cbn [id].
  rewrite Z.eqb_refl. cbn [negb]. rewrite app_nil_r.
  apply filter_all. apply forallb_forall. intros row Hr.
  apply next_id_fresh in Hr.
  destruct (Z.eqb_spec (id row) (next_id db)); [lia|reflexivity].
Qed.


(** X19: a round that fails leaves the segments as they were:
    [delete_segment] on the segment that [create_segment] has just made
    gives the table of before, and with it the lists, the counts and the
    latest program of every workspace. *)
Theorem failed_round_restores db w input_text t :
  let created := create_segment db w input_text t in
  let db' := delete_segment (fst created) (id (snd created)) in
  segments db' = segments db /\
  settings db' = settings db /\
  forall w' limit,
    list_segments db' w' limit = list_segments db w' limit /\
    list_segments_asc db' w' = list_segments_asc db w' /\
    get_segment_count db' w' = get_segment_count db w' /\
    get_latest_cumulative_code db' w' = get_latest_cumulative_code db w'.
Proof.
  cbv zeta. pose proof (delete_created_segment db w input_text t) as H.
  split; [exact H|]. split; [reflexivity|]. intros w' limit.
  unfold list_segments, list_segments_asc, get_segment_count,
    get_latest_cumulative_code.
  now rewrite H.
Qed.

(** X20: where the segments of every workspace hold the indices 0, 1, 2
    and so on, the index of a new segment is the number of segments of
    its workspace, and the table is of this kind again after
    [create_segment], after [update_segment_render], and after
    [delete_segment] on the new segment. *)
Theorem consecutive_round db w input_text t :
  consecutive db ->
  let created := create_segment db w input_text t in
  segment_index (snd created) = get_segment_count db w /\
  consecutive (fst created) /\
  (forall segment_id code path,
      consecutive (update_segment_render db segment_id code path)) /\
  consecutive (delete_segment (fst created) (id (snd created))).
Proof.
  intros H. cbv zeta.
  assert (Hidx : segment_index (snd (create_segment db w input_text t))
                 = get_segment_count db w).
  { unfold create_segment, get_segment_count. cbn [snd segment_index].
    rewrite (H w), sql_max_seq. lia. }
  split; [exact Hidx|]. split; [|split].
  - intros w'. rewrite create_segment_rows.
    destruct (str_eqb w w') eqn:E.
    + apply str_eqb_eq in E as <-.
      rewrite map_app, length_app. cbn [map length].
      rewrite Nat.add_1_r, seq_S, map_app, <- (H w). cbn [map Nat.add].
      now rewrite Hidx.
    + rewrite app_nil_r. apply H.
  - intros segment_id code path w'.
    rewrite update_segment_render_rows, map_map, length_map.
    rewrite <- (H w'). apply map_ext. intros row. apply updated_index.
  - intros w'. rewrite delete_created_segment. apply H.
Qed.

End RoundInDatabase.


(** X20, at the empty database. *)
Lemma consecutive_round_witness :
  database.segment_index
    (snd (database.create_segment database.empty (lit "w") (lit "a") []))
  = database.get_segment_count database.empty (lit "w").
Proof.
  refine (proj1 (consecutive_round database.empty (lit "w") (lit "a") [] _)).
  intros w. reflexivity.
Defined.

(** ** The settings of the database *)

Section Settings.

Import database.

Implicit Types (db : Database) (key value default : str).




End Settings.

(** ** The deletion of a workspace *)

Section WorkspaceDeletion.

Import database.

Implicit Types (db : Database) (w key : str) (p s : str).

Lemma utf8_length_le s : (utf8_length s <= 4 * N.of_nat (length s))%N.
Proof.
  unfold utf8_length.
  assert (H : forall n : N,
             (fold_left
                (fun n c =>
                   n + (if c <? 128 then 1 else if c <? 2048 then 2
                        else if c <? 65536 then 3 else 4))%N s n
              <= n + 4 * N.of_nat (length s))%N).
  { induction s as [|c s IH]; intros n; cbn [fold_left length]; [lia|].
    specialize (IH (n + (if (c <? 128)%N then 1
                         else if (c <? 2048)%N then 2
                         else if (c <? 65536)%N then 3 else 4))%N).
    destruct (c <? 128)%N, (c <? 2048)%N, (c <? 65536)%N; lia. }
  apply (H 0%N).
Qed.

Lemma like_percent p s :
  like_chars (37%N :: p) s
  = like_chars p s
    || match s with [] => false | _ :: s' => like_chars (37%N :: p) s' end.
Proof. destruct s; reflexivity. Qed.

Lemma like_char (c d : char) p s :
  c <> 37%N ->
  like_chars (c :: p) (d :: s)
  = ((c =? 95)%N || (fold_case c =? fold_case d)%N) && like_chars p s.
Proof.
  intros H. cbn [like_chars]. destruct (N.eqb_spec c 37); [contradiction|].
  reflexivity.
Qed.

(** A text is like a pattern that it equals up to the case of the
    letters, whatever wildcards the pattern holds. *)
Lemma like_equal_like p s : like_equal s p -> like_chars p s = true.
Proof.
  unfold like_equal. revert s; induction p as [|c p IH]; intros [|d s] H;
    try discriminate H; trivial.
  cbn [map] in H. injection H as Hc Hs.
  destruct (N.eq_dec c 37) as [->|Hne].
  - rewrite like_percent. rewrite (like_percent p s), (IH s Hs).
    apply orb_true_r.
  - rewrite like_char by trivial. rewrite (IH s Hs), Hc, N.eqb_refl.
    now rewrite orb_true_r.
Qed.

Lemma like_suffix p prefix s :
  like_chars p s = true -> like_chars (37%N :: p) (prefix ++ s) = true.
Proof.
  intros H. induction prefix as [|c r IH].
  - rewrite like_percent. cbn [app]. now rewrite H.
  - rewrite like_percent. cbn [app]. rewrite IH. apply orb_true_r.
Qed.

Lemma fold_case_colon (d : char) :
  fold_case 58%N = fold_case d -> d = 58%N.
Proof.
  unfold fold_case. change ((65 <=? 58)%N && (58 <=? 90)%N) with false.
  cbv iota. destruct (N.leb_spec 65 d), (N.leb_spec d 90); cbn [andb]; lia.
Qed.

Lemma fold_case_nul (c d : char) :
  fold_case c = fold_case d -> (c =? 0)%N = (d =? 0)%N.
Proof.
  unfold fold_case.
  destruct (N.leb_spec 65 c), (N.leb_spec c 90), (N.leb_spec 65 d),
    (N.leb_spec d 90), (N.eqb_spec c 0), (N.eqb_spec d 0); cbn [andb];
    trivial; lia.
Qed.

(** The text in front of the first NUL is a part of the text. *)
Lemma before_nul_prefix s : exists r, s = before_nul s ++ r.
Proof.
  induction s as [|c s [r IH]]; [now exists []|]. cbn [before_nul].
  destruct (c =? 0)%N.
  - now exists (c :: s).
  - exists r. cbn [app]. now rewrite <- IH.
Qed.

Lemma before_nul_app (a b : str) :
  nul_free a = true -> before_nul (a ++ b) = a ++ before_nul b.
Proof.
  induction a as [|c a IH]; trivial. cbn [nul_free forallb].
  intros H. apply andb_true_iff in H as [Hc Ha].
  apply negb_true_iff in Hc. cbn [app before_nul]. rewrite Hc.
  now rewrite (IH Ha).
Qed.

Lemma like_equal_before_nul (a b : str) :
  like_equal a b -> like_equal (before_nul a) (before_nul b).
Proof.
  unfold like_equal. revert b; induction a as [|c a IH]; intros [|d b] H;
    try discriminate H; trivial.
  cbn [map] in H. injection H as Hc Hs. cbn [before_nul].
  rewrite (fold_case_nul c d Hc). destruct (d =? 0)%N; trivial.
  cbn [map]. now rewrite Hc, (IH b Hs).
Qed.

(** A key that is like the pattern of a workspace holds two colons. *)
Lemma like_chars_contains w key :
  like_chars (lit "%::" ++ w) key = true -> contains (lit "::") key = true.
Proof.
  change (lit "%::" ++ w) with (37%N :: 58%N :: 58%N :: w).
  induction key as [|c key IH]; rewrite like_percent.
  - discriminate.
  - intros H. apply orb_true_iff in H as [H|H].
    + rewrite like_char in H by discriminate.
      apply andb_true_iff in H as [H1 H2].
      destruct key as [|c' key]; [discriminate H2|].
      rewrite like_char in H2 by discriminate.
      apply andb_true_iff in H2 as [H2 _].
      cbn [N.eqb orb] in H1, H2.
      apply N.eqb_eq, fold_case_colon in H1.
      apply N.eqb_eq, fold_case_colon in H2. subst.
      apply contains_iff. now exists [], key.
    + cbn [contains]. rewrite (IH H). apply orb_true_r.
Qed.

Lemma pattern_before_nul w :
  before_nul (lit "%::" ++ w) = lit "%::" ++ before_nul w.
Proof. reflexivity. Qed.

Lemma like_contains w key :
  like (lit "%::" ++ w) key = true -> contains (lit "::") key = true.
Proof.
  unfold like. rewrite pattern_before_nul. intros H.
  apply like_chars_contains in H.
  destruct (before_nul_prefix key) as [r Hr]. rewrite Hr.
  apply contains_iff in H as (a & b & ->). apply contains_iff.
  exists a, (b ++ r). now rewrite <- !app_assoc.
Qed.

(** A key that ends with two colons and the name of the workspace, up to
    the case of the letters, is like the pattern of the workspace, when
    no NUL stands in front of the colons. *)
Lemma like_workspace_key w prefix w' :
  nul_free prefix = true -> like_equal w' w ->
  like (lit "%::" ++ w) (prefix ++ lit "::" ++ w') = true.
Proof.
  intros Hp Hw. unfold like. rewrite pattern_before_nul.
  rewrite before_nul_app by trivial.
  change (before_nul (lit "::" ++ w')) with (lit "::" ++ before_nul w').
  change (lit "%::" ++ before_nul w)
    with (37%N :: lit "::" ++ before_nul w).
  apply like_suffix, like_equal_like. apply like_equal_before_nul in Hw.
  unfold like_equal in *. rewrite !map_app. now rewrite Hw.
Qed.

Lemma find_filter_key (q : str -> bool) key (l : list (str * str)) :
  find (fun kv => str_eqb (fst kv) key)
       (filter (fun kv => negb (q (fst kv))) l)
  = if q key then None else find (fun kv => str_eqb (fst kv) key) l.
Proof.
  induction l as [|kv l IH]; [now destruct (q key)|]. cbn [filter find].
  destruct (str_eqb (fst kv) key) eqn:E.
  - apply str_eqb_eq in E. rewrite E.
    destruct (q key) eqn:Eq; cbn [negb]; [exact IH|].
    cbn [find]. now rewrite <- E, str_eqb_refl.
  - destruct (q (fst kv)); cbn [negb]; [exact IH|].
    cbn [find]. rewrite E. exact IH.
Qed.

Lemma filter_other_workspace w w' (l : list Segment) :
  filter (in_workspace w')
         (filter (fun row => negb (in_workspace w row)) l)
  = if str_eqb w w' then [] else filter (in_workspace w') l.
Proof.
  induction l as [|row l IH]; [now destruct (str_eqb w w')|].
  cbn [filter].
  destruct (in_workspace w row) eqn:E; cbn [negb].
  - rewrite IH. unfold in_workspace in E. apply str_eqb_eq in E.
    unfold in_workspace at 2. rewrite E.
    now destruct (str_eqb w w').
  - cbn [filter]. rewrite IH.
    destruct (in_workspace w' row) eqn:E'; trivial.
    unfold in_workspace in E, E'. apply str_eqb_eq in E'.
    rewrite E' in E. rewrite str_eqb_neq; trivial.
    intros ->. rewrite str_eqb_refl in E. discriminate E.
Qed.

Lemma delete_workspace_data_some db w db' :
  delete_workspace_data db w = Some db' ->
  segments db'
  = filter (fun row => negb (in_workspace w row)) (segments db) /\
  settings db'
  = filter (fun kv => negb (like (lit "%::" ++ w) (fst kv))) (settings db).
Proof.
  unfold delete_workspace_data.
  destruct (negb (encodable w)); [discriminate|].
  destruct (truthy (settings db) && _); [discriminate|].
  intros H. injection H as <-. now split.
Qed.

(** X23: [delete_workspace_data] succeeds for a workspace whose name
    UTF-8 encodes and has at most 12497 characters, whatever the tables
    hold. *)
Theorem delete_workspace_data_succeeds db w :
  encodable w = true ->
  (Z.of_nat (length w) <= 12497)%Z ->
  exists db', delete_workspace_data db w = Some db'.
Proof.
  intros He H. unfold delete_workspace_data. rewrite He. cbn [negb].
  pose proof (utf8_length_le (lit "%::" ++ w)) as Hle.
  rewrite length_app in Hle.
  change (length (lit "%::")) with 3 in Hle.
  unfold MAX_LIKE_PATTERN_LENGTH.
  destruct (N.ltb_spec 50000 (utf8_length (lit "%::" ++ w)));
    [unfold str, char in *; lia|].
  rewrite andb_false_r. eauto.
Qed.

(** X24: after [delete_workspace_data], the workspace has no segment and
    no latest program; the segments of the other workspaces are as they
    were, and their indices are still 0, 1, 2 and so on where they were
    before. *)
Theorem delete_workspace_data_segments db w db' :
  delete_workspace_data db w = Some db' ->
  (forall limit, list_segments db' w limit = []) /\
  get_segment_count db' w = 0%Z /\
  get_latest_cumulative_code db' w = [] /\
  (forall w' limit,
      w' <> w ->
      list_segments db' w' limit = list_segments db w' limit /\
      get_segment_count db' w' = get_segment_count db w' /\
      get_latest_cumulative_code db' w'
      = get_latest_cumulative_code db w') /\
  (consecutive db -> consecutive db').
Proof.
  intros H. apply delete_workspace_data_some in H as [Hs _].
  assert (Hrows : forall w',
             filter (in_workspace w') (segments db')
             = if str_eqb w w' then []
               else filter (in_workspace w') (segments db)).
  { intros w'. rewrite Hs. apply filter_other_workspace. }
  unfold list_segments, get_segment_count, get_latest_cumulative_code.
  pose proof (Hrows w) as Hw. rewrite str_eqb_refl in Hw.
  rewrite Hw. cbn [order_desc length].
  split.
  { intros limit. unfold sql_limit.
    destruct (limit <? 0)%Z; [reflexivity | apply firstn_nil]. }
  split; [reflexivity|]. split; [reflexivity|]. split.
  - intros w' limit Hne. rewrite (Hrows w').
    rewrite str_eqb_neq by congruence. now repeat split.
  - intros Hc w'. rewrite (Hrows w').
    destruct (str_eqb w w'); [reflexivity | apply Hc].
Qed.

(** X25: [delete_workspace_data] leaves every setting whose key holds no
    two colons in a row, and removes every setting whose key is a text
    without NUL, then two colons, then a name that equals the name of the
    workspace up to the case of the letters. *)
Theorem delete_workspace_data_settings db w db' :
  delete_workspace_data db w = Some db' ->
  (forall key default,
      contains (lit "::") key = false ->
      get_setting db' key default = get_setting db key default) /\
  (forall prefix w' default,
      nul_free prefix = true ->
      like_equal w' w ->
      get_setting db' (prefix ++ lit "::" ++ w') default = default).
Proof.
  intros H. apply delete_workspace_data_some in H as [_ Hs].
  unfold get_setting. rewrite Hs. split.
  - intros key default Hk. rewrite find_filter_key.
    destruct (like (lit "%::" ++ w) key) eqn:E; trivial.
    apply like_contains in E. rewrite E in Hk. discriminate Hk.
  - intros prefix w' default Hp Hw. rewrite find_filter_key.
    now rewrite like_workspace_key.
Qed.

End WorkspaceDeletion.

(** X23, at a short name and a table of settings that is not empty. *)
Lemma delete_workspace_data_succeeds_witness :
  exists db',
    database.delete_workspace_data
      (database.set_setting database.empty (lit "width") (lit "1920"))
      (lit "demo") = Some db'.
Proof.
  apply delete_workspace_data_succeeds; [reflexivity | simpl; lia].
Defined.

(** X24, at a table with one segment. *)
Lemma delete_workspace_data_segments_witness :
  database.get_segment_count
    {| database.segments := [];
       database.settings := [];
       database.sequence := 1 |} (lit "w") = 0%Z.
Proof.
  exact (proj1 (proj2 (delete_workspace_data_segments
                         (fst (database.create_segment database.empty
                                 (lit "w") (lit "a") []))
                         (lit "w") _ eq_refl))).
Defined.

(** X25, at the setting of a workspace whose name differs by the case. *)
Lemma delete_workspace_data_settings_witness :
  database.get_setting
    {| database.segments := [];
       database.settings := [(lit "width", lit "1920")];
       database.sequence := 0 |}
    (lit "scene::demo") (lit "none") = lit "none".
Proof.
  exact (proj2 (delete_workspace_data_settings
                  (database.set_setting
                     (database.set_setting database.empty
                        (lit "width") (lit "1920"))
                     (lit "scene::demo") (lit "x"))
                  (lit "Demo") _ eq_refl)
           (lit "scene") (lit "demo") (lit "none") eq_refl eq_refl).
Defined.

(** ** The workspaces of the window *)

Section Workspaces.

(** X26: the workspaces that the window lists are the names of the
    directories of the jobs directory that do not begin with a dot, in
    ascending order and as often as the directory holds them; without a
    jobs directory there is none. *)
Theorem list_workspaces_sorted (es : list (str * node)) :
  _list_workspaces None = Some [] /\
  exists names,
    _list_workspaces (Some (Dir es)) = Some names /\
    StronglySorted (fun a b => str_le a b = true) names /\
    Permutation names
      (map fst
         (filter (fun item => is_dir (snd item)
                              && negb (startswith (fst item) (lit ".")))
                 es)) /\
    forall item_name,
      In item_name names <->
      exists n, In (item_name, n) es /\ is_dir n = true /\
                startswith item_name (lit ".") = false.
Proof.
  split; [reflexivity|]. eexists. split; [reflexivity|].
  split; [apply (sorted_by_strongly_sorted (fun item_name : str => item_name))|].
  split; [apply sorted_by_perm|].
  intros item_name. split.
  - intros H. apply (Permutation_in _ (sorted_by_perm _ _)) in H.
    apply in_map_iff in H as ([nm n] & <- & H).
    apply filter_In in H as [Hin H]. apply andb_true_iff in H as [Hd Hs].
    exists n. cbn [fst snd] in *. repeat split; trivial.
    now apply negb_true_iff.
  - intros (n & Hin & Hd & Hs).
    apply (Permutation_in _ (Permutation_sym (sorted_by_perm _ _))).
    apply in_map_iff. exists (item_name, n). split; trivial.
    apply filter_In. split; trivial. cbn [fst snd]. now rewrite Hd, Hs.
Qed.

End Workspaces.

(** ** The program of the first round *)

Section FirstRound.

(** X27: without a previous program, the program is the answer, fences
    stripped, without the lines that hold the marker or the section-break
    call, stripped of the whitespace around it and closed by one line
    end; it holds no section-break call. *)
Theorem first_round_program_shape (existing_code ai_response prompt : str) :
  truthy (strip existing_code) = false ->
  let kept :=
    filter (fun line => marker_free line
                        && negb (contains NEXT_SECTION line))
           (split_char NL (strip (_strip_code_fences ai_response))) in
  ensure_section_addition existing_code ai_response prompt
  = strip (join [NL] kept) ++ [NL] /\
  trimmed (strip (join [NL] kept)) /\
  contains NEXT_SECTION
    (ensure_section_addition existing_code ai_response prompt) = false.
Proof.
  intros Hprev. cbv zeta.
  assert (E : ensure_section_addition existing_code ai_response prompt
              = strip (join [NL]
                         (filter (fun line =>
                                    marker_free line
                                    && negb (contains NEXT_SECTION line))
                                 (split_char NL
                                    (strip (_strip_code_fences ai_response)))))
                ++ [NL]).
  { unfold ensure_section_addition. rewrite Hprev. cbn [negb].
    unfold _strip_markers_and_sections. rewrite first_round_loop.
    cbn [app]. do 3 f_equal. apply filter_ext. intros line.
    unfold marker_free. now rewrite directive_strip. }
  split; [exact E|]. split; [apply strip_idem|].
  rewrite E. rewrite contains_snoc_sep by one_line.
  rewrite directive_strip. rewrite contains_join_sep by one_line.
  destruct (existsb _ _) eqn:Ex; trivial.
  apply existsb_exists in Ex as [l [Hl Hc]].
  apply filter_In in Hl as [_ Hl]. apply andb_true_iff in Hl as [_ Hl].
  rewrite Hc in Hl. discriminate Hl.
Qed.

End FirstRound.

(** X27, at an answer that holds a marker line. *)
Lemma first_round_program_shape_witness :
  ensure_section_addition [] (lit "# <<SECTION_BREAK>>
x = 1
") [] = lit "x = 1
".
Proof.
  exact (proj1 (first_round_program_shape [] (lit "# <<SECTION_BREAK>>
x = 1
") [] eq_refl)).
Defined.
